(** * Local speech-to-text session supervisor (modules/speech_to_text.py)

    A shallow embedding of the feeder thread, the recognition callbacks and
    the restart loop of [transcribe_with_diarization_local], and the
    properties of its specification.

    Python values are modelled as follows:
    - [int] is [Z];
    - [float] is IEEE 754 binary64, through the reference implementation
      [SpecFloat] of the standard library (round to nearest, ties to even);
    - [str] is the list of its code points;
    - an exception is a value of [exn]; a computation that may raise
      returns a [res];
    - a WAV file is the fields of its header and the number of bytes of
      audio data it holds, which is less than the header declares when the
      file was cut short. *)

From Stdlib Require Import ZArith List Bool Lia String Ascii.
From Stdlib Require Import Floats.SpecFloat.
Import ListNotations.
Local Open Scope Z_scope.

(** ** Python strings *)

Definition str := list N.

(** A literal: the code points of an ASCII string. *)
Definition lit (s : string) : str :=
  map N_of_ascii (list_ascii_of_string s).

Definition str_eqb (a b : str) : bool :=
  if list_eq_dec N.eq_dec a b then true else false.

(** [bool(s)] for a string: non-empty. *)
Definition truthy (s : str) : bool :=
  match s with [] => false | _ => true end.

(** [x or ""] for an optional string. *)
Definition or_empty (s : option str) : str :=
  match s with Some t => t | None => [] end.

(** Code points for which [str.isspace] holds (CPython's
    [_PyUnicode_IsWhitespace]). *)
Definition isspace (c : N) : bool :=
  ((9 <=? c) && (c <=? 13) || (28 <=? c) && (c <=? 32)
   || (c =? 133) || (c =? 160) || (c =? 5760)
   || (8192 <=? c) && (c <=? 8202)
   || (c =? 8232) || (c =? 8233) || (c =? 8239) || (c =? 8287)
   || (c =? 12288))%N.

Fixpoint lstrip (s : str) : str :=
  match s with
  | c :: t => if isspace c then lstrip t else s
  | [] => []
  end.

Definition rstrip (s : str) : str := rev (lstrip (rev s)).

(** [s.strip()] *)
Definition strip (s : str) : str := rstrip (lstrip s).

(** [s.lower()], exact on every code point whose lower-case form contains
    an ASCII character: the Latin capitals, U+212A KELVIN SIGN (lowered to
    [k]) and U+0130 (lowered to [i] followed by U+0307).  Every other code
    point lowers to non-ASCII code points and is kept as it is: the code
    only searches the lowered text for ASCII words. *)
Definition lower_cp (c : N) : list N :=
  (if (65 <=? c) && (c <=? 90) then [c + 32]
   else if c =? 8490 then [107]
   else if c =? 304 then [105; 775]
   else [c])%N.

Definition lower (s : str) : str := flat_map lower_cp s.

Fixpoint startswith (s prefix : str) : bool :=
  match prefix, s with
  | [], _ => true
  | p :: ps, c :: cs => (p =? c)%N && startswith cs ps
  | _ :: _, [] => false
  end.

(** [needle in hay] *)
Fixpoint contains (needle hay : str) : bool :=
  startswith hay needle ||
  match hay with
  | [] => false
  | _ :: t => contains needle t
  end.

Definition endswith (s suffix : str) : bool :=
  startswith (rev s) (rev suffix).

(** ** Exceptions *)

Inductive exn :=
| ValueError (msg : str)
| OverflowError
| ZeroDivisionError
| TooManyRestarts (max_restarts : Z) (last_reason : option str)
    (* RuntimeError("Too many restarts (<max_restarts>). Last reason: <last_reason>") *)
| Fault (cls : str).
    (* an exception of class [cls] raised by the wave module, the push
       stream or the audio converter *)

(** [type(e).__name__] *)
Definition type_name (e : exn) : str :=
  match e with
  | ValueError _ => lit "ValueError"
  | OverflowError => lit "OverflowError"
  | ZeroDivisionError => lit "ZeroDivisionError"
  | TooManyRestarts _ _ => lit "RuntimeError"
  | Fault cls => cls
  end.

Inductive res (A : Type) :=
| Ok (a : A)
| Raise (e : exn).
Arguments Ok {A} a.
Arguments Raise {A} e.

Definition bind {A B} (m : res A) (k : A -> res B) : res B :=
  match m with
  | Ok a => k a
  | Raise e => Raise e
  end.

Notation "x <- m ;; k" := (bind m (fun x => k))
  (at level 61, m at next level, right associativity).

(** ** Python floats *)

Definition float := spec_float.

Definition prec : Z := 53.
Definition emax : Z := 1024.

Definition fadd : float -> float -> float := SFadd prec emax.
Definition fsub : float -> float -> float := SFsub prec emax.
Definition fmul : float -> float -> float := SFmul prec emax.
Definition flt : float -> float -> bool := SFltb.
Definition fle : float -> float -> bool := SFleb.

Definition is_zero (x : float) : bool :=
  match x with S754_zero _ => true | _ => false end.

Definition is_finite (x : float) : bool :=
  match x with S754_zero _ | S754_finite _ _ _ => true | _ => false end.

Definition is_nan (x : float) : bool :=
  match x with S754_nan => true | _ => false end.

(** The double nearest to the integer [n] (infinite when there is none). *)
Definition round_int (n : Z) : float := binary_normalize prec emax n 0 false.

(** The double nearest to the fraction [a / b], [b > 0]. *)
Definition round_frac (a b : Z) : float :=
  match a, b with
  | Z0, _ => S754_zero false
  | Zpos p, Zpos q =>
      SFdiv prec emax (S754_finite false p 0) (S754_finite false q 0)
  | Zneg p, Zpos q =>
      SFdiv prec emax (S754_finite true p 0) (S754_finite false q 0)
  | _, _ => S754_nan
  end.

(** A float literal [<a>/<b>] written in decimal, as the parser reads it. *)
Definition dec (a b : Z) : float := round_frac a b.

(** [float(n)] for an int [n] *)
Definition float_of_int (n : Z) : res float :=
  let x := round_int n in
  if is_finite x then Ok x else Raise OverflowError.

(** [a / b] for ints *)
Definition int_truediv (a b : Z) : res float :=
  if b =? 0 then Raise ZeroDivisionError
  else
    let x := if 0 <? b then round_frac a b else round_frac (- a) (- b) in
    if is_finite x then Ok x else Raise OverflowError.

(** [x / y] for floats *)
Definition float_truediv (x y : float) : res float :=
  if is_zero y then Raise ZeroDivisionError else Ok (SFdiv prec emax x y).

(** [int(x)] for a float [x]: truncation towards zero. *)
Definition int_of_float (x : float) : res Z :=
  match x with
  | S754_zero _ => Ok 0
  | S754_finite s m e =>
      let a := match e with
               | Zneg k => Z.shiftr (Zpos m) (Zpos k)
               | _ => Z.shiftl (Zpos m) e
               end in
      Ok (if s then - a else a)
  | S754_infinity _ => Raise OverflowError
  | S754_nan => Raise (ValueError (lit "cannot convert float NaN to integer"))
  end.

(** [max(a, b)] and [min(a, b)] of two floats: the first argument unless
    the second is strictly better. *)
Definition fmax (a b : float) : float := if flt a b then b else a.
Definition fmin (a b : float) : float := if flt b a then b else a.

(** ** Tuning knobs (module constants, read from the environment) *)

Record Knobs := {
  DISPLAY_EVERY_S : float;
  HANG_TIMEOUT_S : float;
  MAX_RESTARTS : Z;
  CHUNK_MS : Z;
  FEED_SPEED : float;
  OVERLAP_S : float;
  DEDUP_EPS_S : float
}.

(** The values used when the environment overrides nothing. *)
Definition default_knobs : Knobs := {|
  DISPLAY_EVERY_S := round_int 10;
  HANG_TIMEOUT_S := round_int 45;
  MAX_RESTARTS := 8;
  CHUNK_MS := 100;
  FEED_SPEED := dec 105 100;
  OVERLAP_S := dec 15 10;
  DEDUP_EPS_S := dec 8 100
|}.

Definition scale_100ns : Z := 10000000.

(** ** Data model *)

Record TranscriptSegment := {
  speaker_id : option str;
  text : str;
  offset : Z;      (* 100ns units *)
  duration : Z     (* 100ns units *)
}.

Inductive ResultReason :=
| NoMatch
| Canceled
| RecognizingSpeech
| RecognizedSpeech.

Definition is_RecognizedSpeech (r : option ResultReason) : bool :=
  match r with Some RecognizedSpeech => true | _ => false end.

(** The result carried by a transcribing / transcribed event.  A field is
    [None] when the attribute is missing or is Python's [None]. *)
Record RecognitionResult := {
  r_reason : option ResultReason;
  r_text : option str;
  r_offset : option Z;
  r_duration : option Z;
  r_speaker_id : option str
}.

Record RecognitionEvent := { result : option RecognitionResult }.

Record CancellationDetails := { error_details : option str }.
Record CanceledResult := { cancellation_details : option CancellationDetails }.
Record CanceledEvent := { c_result : option CanceledResult }.

(** [int(x or 0)] for an optional int attribute. *)
Definition int_or_0 (x : option Z) : Z :=
  match x with Some n => n | None => 0 end.

(** The two job-wide variables written by [transcribed_cb]. *)
Record Dedup := {
  transcription_results : list TranscriptSegment;
  accepted_last_end_s : float
}.

(** The variables of one sub-session (one iteration of the outer loop). *)
Record Session := {
  done : bool;
  restart_needed : bool;
  restart_reason : option str;
  last_activity : float;
  last_print : float
}.

Definition set_last_activity (t : float) (s : Session) : Session :=
  {| done := done s; restart_needed := restart_needed s;
     restart_reason := restart_reason s;
     last_activity := t; last_print := last_print s |}.

Definition set_last_print (t : float) (s : Session) : Session :=
  {| done := done s; restart_needed := restart_needed s;
     restart_reason := restart_reason s;
     last_activity := last_activity s; last_print := t |}.

Definition set_done (s : Session) : Session :=
  {| done := true; restart_needed := restart_needed s;
     restart_reason := restart_reason s;
     last_activity := last_activity s; last_print := last_print s |}.

Definition set_restart (needed : bool) (reason : option str) (s : Session)
  : Session :=
  {| done := done s; restart_needed := needed;
     restart_reason := reason;
     last_activity := last_activity s; last_print := last_print s |}.

(** ** Recognition callbacks *)

Section Callbacks.

Variable k : Knobs.

(** Lines 253-282 of [transcribed_cb]: everything after the activity
    stamp.  [Ok d'] is a normal return with the variables [d'];
    [Raise e] is an exception leaving the variables as they were. *)
Definition transcribed_body (session_base_s : float)
    (evt : RecognitionEvent) (d : Dedup) : res Dedup :=
  match result evt with
  | None => Ok d
  | Some result =>
    if negb (is_RecognizedSpeech (r_reason result)) then Ok d
    else
      let text := strip (or_empty (r_text result)) in
      if negb (truthy text) then Ok d
      else
        let offset_100ns := int_or_0 (r_offset result) in
        let duration_100ns := int_or_0 (r_duration result) in
        local_start <- int_truediv offset_100ns scale_100ns ;;
        let seg_start_s := fadd local_start session_base_s in
        local_end <- int_truediv (offset_100ns + duration_100ns) scale_100ns ;;
        let seg_end_s := fadd local_end session_base_s in
        if fle seg_end_s (fadd (accepted_last_end_s d) (DEDUP_EPS_S k))
        then Ok d
        else
          scale <- float_of_int scale_100ns ;;
          seg_offset <- int_of_float (fmul seg_start_s scale) ;;
          seg_duration <- int_of_float (fmul (fsub seg_end_s seg_start_s) scale) ;;
          Ok {| transcription_results :=
                  transcription_results d ++
                  [ {| speaker_id := r_speaker_id result;
                       text := text;
                       offset := seg_offset;
                       duration := seg_duration |} ];
                accepted_last_end_s := fmax (accepted_last_end_s d) seg_end_s |}
  end.

(** [transcribed_cb(evt)], called when [time.time()] is [now].  The second
    component is the exception the callback ends with, if any. *)
Definition transcribed_cb (session_base_s : float) (now : float)
    (evt : RecognitionEvent) (c : Dedup * Session)
  : (Dedup * Session) * option exn :=
  let s := set_last_activity now (snd c) in
  match transcribed_body session_base_s evt (fst c) with
  | Ok d => ((d, s), None)
  | Raise e => ((fst c, s), Some e)
  end.

(** [transcribing_cb(evt)]; [now] and [now'] are its two clock readings.
    It only prints. *)
Definition transcribing_cb (now now' : float) (evt : RecognitionEvent)
    (s : Session) : Session :=
  let s := set_last_activity now s in
  if flt (fsub now' (last_print s)) (DISPLAY_EVERY_S k) then s
  else set_last_print now' s.

Definition _safe_lower (s : option str) : str := lower (or_empty s).

(** Lines 305-307: the reason text of a cancellation, if the event
    carries one. *)
Definition error_details_of (evt : CanceledEvent) : option str :=
  match c_result evt with
  | Some result =>
    match cancellation_details result with
    | Some cancellation_details => error_details cancellation_details
    | None => None
    end
  | None => None
  end.

Definition canceled_cb (evt : CanceledEvent) (s : Session) : Session :=
  let error_details := error_details_of evt in
  let msg := _safe_lower error_details in
  let s :=
    if contains (lit "client buffer exceeded") msg then
      set_restart true (Some (lit "client_buffer_exceeded")) s
    else if contains (lit "websocket") msg
            || contains (lit "connection") msg
            || contains (lit "timeout") msg then
      set_restart true (Some (lit "connection_or_timeout")) s
    else
      (* restart_reason = error_details or "canceled" *)
      set_restart (restart_needed s)
        (Some (if truthy (or_empty error_details)
               then or_empty error_details else lit "canceled")) s in
  set_done s.

Definition session_stopped_cb (s : Session) : Session := set_done s.

End Callbacks.

(** ** The WAV file and the feeder thread *)

(** What [wave.open] finds in the file: the format fields of the header,
    the size in bytes the header gives for the data chunk, and the number
    of bytes of that chunk the file holds (a file that was cut short holds
    fewer than its header says).  [wave.open] accepts a header only with a
    positive number of channels and a positive sample width. *)
Record Wav := {
  data_size : Z;
  data_held : Z;
  framerate : Z;
  nchannels : Z;
  sampwidth : Z
}.

(** [wf.getnframes()]: the size of the data chunk divided by the size of a
    frame, rounded down. *)
Definition nframes (w : Wav) : Z := data_size w / (nchannels w * sampwidth w).

(** The bytes of the data chunk that can be read: a read goes neither
    beyond the size the header gives nor beyond the end of the file. *)
Definition readable (w : Wav) : Z := Z.min (data_size w) (data_held w).

(** [len(wf.readframes(n))] when [pos] bytes of the data chunk are read:
    the bytes of [n] frames, or those that are left; nothing for [n = 0],
    and all that is left for a negative [n]. *)
Definition readframes_len (w : Wav) (pos n : Z) : Z :=
  if n =? 0 then 0
  else
    let left := Z.max 0 (readable w - pos) in
    if n <? 0 then left
    else Z.min (n * (nchannels w * sampwidth w)) left.

(** [wf.setpos(pos)] *)
Definition setpos (w : Wav) (pos : Z) : res Z :=
  if (pos <? 0) || (nframes w <? pos) then Raise (Fault (lit "Error"))
  else Ok pos.

Record Feeder := {
  start_frame : Z;
  chunk_frames : Z;
  frames_sent : Z;
  finished : bool;
  error : option exn
}.

(** [_WavFeeder.__init__] *)
Definition new_feeder (start_frame chunk_frames : Z) : Feeder :=
  {| start_frame := start_frame; chunk_frames := chunk_frames;
     frames_sent := 0; finished := false; error := None |}.

Definition set_finished (f : Feeder) : Feeder :=
  {| start_frame := start_frame f; chunk_frames := chunk_frames f;
     frames_sent := frames_sent f; finished := true; error := error f |}.

Definition add_frames_sent (n : Z) (f : Feeder) : Feeder :=
  {| start_frame := start_frame f; chunk_frames := chunk_frames f;
     frames_sent := frames_sent f + n; finished := finished f;
     error := error f |}.

Definition set_error (e : exn) (f : Feeder) : Feeder :=
  {| start_frame := start_frame f; chunk_frames := chunk_frames f;
     frames_sent := frames_sent f; finished := finished f;
     error := Some e |}.

(** What the surroundings do at one iteration of the feeding loop: the
    value of [stop_event.is_set()], and the exception raised by
    [wf.readframes] or by [push_stream.write], if any. *)
Record FeedTick := {
  stop_is_set : bool;
  read_fault : option exn;
  write_fault : option exn
}.

(** The surroundings of one feeder run.  [ticks] has one entry for every
    iteration the thread gets to begin before its fields are read. *)
Record FeederEnv := {
  open_fault : option exn;     (* raised by [wave.open] *)
  ticks : list FeedTick;
  close_fault : option exn     (* raised by [push_stream.close] *)
}.

(** How the [while] loop of [run] is left. *)
Inductive LoopExit :=
| StopRequested    (* the condition [not stop_event.is_set()] is false *)
| EndOfStream      (* [break], after a read that returned no data *)
| StillRunning.    (* not left yet *)

(** The loop of lines 93-104, with [pos] bytes of the data chunk read (the
    pause after each chunk is left out). *)
Fixpoint feed_loop (w : Wav) (bytes_per_frame : Z) (ticks : list FeedTick)
    (pos : Z) (f : Feeder) : Feeder * res LoopExit :=
  match ticks with
  | [] => (f, Ok StillRunning)
  | t :: ticks' =>
    if stop_is_set t then (f, Ok StopRequested)
    else
      match read_fault t with
      | Some e => (f, Raise e)
      | None =>
        let data_len := readframes_len w pos (chunk_frames f) in
        if data_len =? 0 then (set_finished f, Ok EndOfStream)
        else
          match write_fault t with
          | Some e => (f, Raise e)
          | None =>
            let read_frames := data_len / bytes_per_frame in
            feed_loop w bytes_per_frame ticks' (pos + data_len)
              (add_frames_sent read_frames f)
          end
      end
  end.

(** The [try] block of [run] (lines 87-104). *)
Definition run_try (w : Wav) (env : FeederEnv) (f : Feeder)
  : Feeder * res LoopExit :=
  match open_fault env with
  | Some e => (f, Raise e)
  | None =>
    match setpos w (start_frame f) with
    | Raise e => (f, Raise e)
    | Ok pos =>
      let bytes_per_frame := Z.max (sampwidth w * nchannels w) 1 in
      (* the first read starts at the byte [pos * framesize] *)
      feed_loop w bytes_per_frame (ticks env)
        (pos * (nchannels w * sampwidth w)) f
    end
  end.

(** [_WavFeeder.run]: the fields of the feeder when the thread is done (or
    when they are read, if it is not), and what [run] raises. *)
Definition run (w : Wav) (env : FeederEnv) (f : Feeder) : Feeder * res unit :=
  let '(f, r) := run_try w env f in
  let f := match r with
           | Raise exc => set_error exc f      (* except Exception as exc *)
           | Ok _ => f
           end in
  (* finally: push_stream.close(), any exception of which is dropped *)
  match close_fault env with
  | Some _ => (f, Ok tt)
  | None => (f, Ok tt)
  end.

(** ** One sub-session *)

Inductive Callback :=
| Transcribed (now : float) (evt : RecognitionEvent)
| Transcribing (now now' : float) (evt : RecognitionEvent)
| CanceledCb (evt : CanceledEvent)
| SessionStopped.

(** One iteration of the polling loop of lines 333-338: the callbacks the
    recogniser delivers during [time.sleep(0.5)], the clock reading of the
    hang test, and the callbacks delivered before [done] is tested again. *)
Record Round := {
  during_sleep : list Callback;
  now : float;
  before_test : list Callback
}.

(** What the surroundings do during one sub-session. *)
Record SessionEnv := {
  sdk_fault : option exn;        (* raised while the recogniser is set up and started *)
  start_time : float;            (* [time.time()] of line 233 *)
  before_loop : list Callback;   (* delivered before [done] is first tested *)
  rounds : list Round;
  during_stop : list Callback;   (* delivered until the feeder is joined *)
  feeder_env : FeederEnv
}.

(** What the job does to its surroundings. *)
Inductive Effect :=
| SubSession (session_idx : Z) (start_frame : Z)   (* a recogniser and a feeder are started *)
| Sleep (seconds : float).                         (* [time.sleep(backoff_s)] *)

(** The variables of the outer loop. *)
Record Job := {
  dedup : Dedup;
  cursor_frame : Z;
  restarts : Z;
  backoff_s : float;
  effects : list Effect          (* oldest first *)
}.

Section Supervisor.

Variable k : Knobs.

Definition hang_timeout (s : Session) : Session :=
  set_done (set_restart true (Some (lit "hang_timeout")) s).

(** The recogniser calls a callback; an exception it ends with is dropped
    by the caller. *)
Definition deliver (session_base_s : float) (c : Dedup * Session)
    (cb : Callback) : Dedup * Session :=
  match cb with
  | Transcribed now evt => fst (transcribed_cb k session_base_s now evt c)
  | Transcribing now now' evt => (fst c, transcribing_cb k now now' evt (snd c))
  | CanceledCb evt => (fst c, canceled_cb evt (snd c))
  | SessionStopped => (fst c, session_stopped_cb (snd c))
  end.

Definition deliver_all (session_base_s : float) (cbs : list Callback)
    (c : Dedup * Session) : Dedup * Session :=
  fold_left (deliver session_base_s) cbs c.

(** [while not done: time.sleep(0.5); if time.time() - last_activity >
    HANG_TIMEOUT_S: ...].  [None]: the loop is still polling when the
    script of the surroundings ends. *)
Fixpoint wait_loop (session_base_s : float) (rounds : list Round)
    (c : Dedup * Session) : option (Dedup * Session) :=
  if done (snd c) then Some c
  else
    match rounds with
    | [] => None
    | r :: rounds' =>
      let c := deliver_all session_base_s (during_sleep r) c in
      let c := if flt (HANG_TIMEOUT_S k) (fsub (now r) (last_activity (snd c)))
               then (fst c, hang_timeout (snd c)) else c in
      let c := deliver_all session_base_s (before_test r) c in
      wait_loop session_base_s rounds' c
    end.

(** [n / float(d)] for ints [n] and [d] *)
Definition int_div_float_of (n d : Z) : res float :=
  y <- float_of_int d ;;
  x <- float_of_int n ;;
  float_truediv x y.

(** [int(x * n)] for a float [x] and an int [n] *)
Definition int_float_mul (x : float) (n : Z) : res Z :=
  y <- float_of_int n ;;
  int_of_float (fmul x y).

(** Lines 351-358: the restart decision after the feeder is joined. *)
Definition decide_restart (total_frames cursor_frame : Z) (feeder : Feeder)
    (s : Session) : Session :=
  let s :=
    match error feeder with
    | Some exc =>
      if negb (restart_needed s)
      then set_restart true (Some (lit "feeder_error:" ++ type_name exc)) s
      else s
    | None => s
    end in
  if negb (restart_needed s) && (cursor_frame <? total_frames)
     && negb (finished feeder)
  then set_restart true (Some (lit "session_stopped_early")) s
  else s.

(** Lines 360-377: the restart.  *)
Definition restart (rate : Z) (s : Session) (j : Job) : res Job :=
  let restarts := restarts j + 1 in
  if MAX_RESTARTS k <? restarts
  then Raise (TooManyRestarts (MAX_RESTARTS k) (restart_reason s))
  else
    overlap_frames <- int_float_mul (OVERLAP_S k) rate ;;
    let cursor_frame := Z.max 0 (cursor_frame j - overlap_frames) in
    Ok {| dedup := dedup j;
          cursor_frame := cursor_frame;
          restarts := restarts;
          backoff_s := fmin (round_int 20) (fmul (backoff_s j) (round_int 2));
          effects := effects j ++ [Sleep (backoff_s j)] |}.

(** Lines 229-346 of one iteration of the outer loop: the callbacks, the
    polling loop, the stop and the join of the feeder.  The result is the
    variables the callbacks leave and the fields of the feeder; [None]:
    the script of the surroundings ends before the polling loop does. *)
Definition run_session (w : Wav) (chunk_frames : Z) (env : SessionEnv)
    (j : Job) (session_base_s : float)
  : option ((Dedup * Session) * Feeder) :=
  let s := {| done := false; restart_needed := false;
              restart_reason := None;
              last_activity := start_time env;
              last_print := S754_zero false |} in
  let feeder := new_feeder (cursor_frame j) chunk_frames in
  let c := deliver_all session_base_s (before_loop env) (dedup j, s) in
  match wait_loop session_base_s (rounds env) c with
  | None => None
  | Some c =>
    (* stop_event.set(); stop_transcribing_async().get(); feeder.join *)
    let c := deliver_all session_base_s (during_stop env) c in
    let feeder := fst (run w (feeder_env env) feeder) in
    Some (c, feeder)
  end.

(** Lines 348-383: the cursor, the restart decision and the restart. *)
Definition settle (total_frames rate : Z) (j : Job) (c : Dedup * Session)
    (feeder : Feeder) : res Job :=
  let session_idx := restarts j in
  (* advance cursor by what was actually fed *)
  let cursor_frame :=
    Z.min total_frames (cursor_frame j + frames_sent feeder) in
  let s := decide_restart total_frames cursor_frame feeder (snd c) in
  let j := {| dedup := fst c;
              cursor_frame := cursor_frame;
              restarts := restarts j;
              backoff_s := backoff_s j;
              effects := effects j ++
                         [SubSession session_idx (start_frame feeder)] |} in
  if restart_needed s then restart rate s j else Ok j.

(** One iteration of the outer loop (lines 213-383), from the variables
    [j]. *)
Definition sub_session (w : Wav) (total_frames rate chunk_frames : Z)
    (env : SessionEnv) (j : Job) : option (res Job) :=
  match int_div_float_of (cursor_frame j) rate with
  | Raise e => Some (Raise e)
  | Ok session_base_s =>
    match sdk_fault env with
    | Some e => Some (Raise e)
    | None =>
      match run_session w chunk_frames env j session_base_s with
      | None => None
      | Some (c, feeder) => Some (settle total_frames rate j c feeder)
      end
    end
  end.

(** [while cursor_frame < total_frames: ...] *)
Fixpoint supervise (w : Wav) (total_frames rate chunk_frames : Z)
    (envs : list SessionEnv) (j : Job) : option (res Job) :=
  if cursor_frame j <? total_frames then
    match envs with
    | [] => None
    | env :: envs' =>
      match sub_session w total_frames rate chunk_frames env j with
      | Some (Ok j') => supervise w total_frames rate chunk_frames envs' j'
      | other => other
      end
    end
  else Some (Ok j).

End Supervisor.

(** ** The job *)

(** [s.rsplit(".", 1)[0]]: what precedes the last dot, or all of [s]. *)
Fixpoint before_last_dot (s : str) : option str :=
  match s with
  | [] => None
  | c :: t =>
    match before_last_dot t with
    | Some u => Some (c :: u)
    | None => if (c =? 46)%N then Some [] else None
    end
  end.

Definition rsplit_dot_head (s : str) : str :=
  match before_last_dot s with Some u => u | None => s end.

(** [convert_audio_to_wav] (modules/audio_utils.py); [converter] is what
    the conversion by the audio library ends with. *)
Definition convert_audio_to_wav (converter : res unit) (file_path : str)
  : res str :=
  if negb (truthy file_path)
  then Raise (ValueError (lit "No file path provided to convert_audio_to_wav."))
  else if endswith (lower file_path) (lit ".wav") then Ok file_path
  else
    let wav_file_path := rsplit_dot_head file_path ++ lit ".wav" in
    _ <- converter ;;
    Ok wav_file_path.

Record SpeechConfig := {
  host : str;
  endpoint : str;
  speech_recognition_language : str
}.

(** [endpoint_map.get(language)] *)
Definition endpoint_map_get (getenv : str -> option str) (language : str)
  : option str :=
  if str_eqb language (lit "en-US") then getenv (lit "LOCAL_SPEECH_ENDPOINT_EN")
  else if str_eqb language (lit "ro-RO") then getenv (lit "LOCAL_SPEECH_ENDPOINT_RO")
  else if str_eqb language (lit "ru-RU") then getenv (lit "LOCAL_SPEECH_ENDPOINT_RU")
  else if str_eqb language (lit "zh-CN") then getenv (lit "LOCAL_SPEECH_ENDPOINT_ZH")
  else if str_eqb language (lit "ar-AE") then getenv (lit "LOCAL_SPEECH_ENDPOINT_AR")
  else None.

(** [create_local_speech_config], without the properties it sets. *)
Definition create_local_speech_config (getenv : str -> option str)
    (language : str) : res SpeechConfig :=
  let host_endpoint := or_empty (endpoint_map_get getenv language) in
  if negb (truthy host_endpoint)
  then Raise (ValueError
                (lit "Unsupported language or missing endpoint: " ++ language))
  else
    Ok {| host := host_endpoint;
          endpoint := host_endpoint ++
            lit "/speech/recognition/dictation/cognitiveservices/v1";
          speech_recognition_language := language |}.

Record WavInfo := {
  frames : Z;
  rate : Z;
  channels : Z;
  bits_per_sample : Z;
  wav_duration : float
}.

(** [_wav_info]; [opened] is what [wave.open] ends with. *)
Definition _wav_info (opened : res Wav) : res WavInfo :=
  wf <- opened ;;
  let frames := nframes wf in
  let rate := framerate wf in
  let channels := nchannels wf in
  let bits_per_sample := sampwidth wf * 8 in
  duration <- (if rate =? 0 then Ok (S754_zero false)
               else int_div_float_of frames rate) ;;
  Ok {| frames := frames; rate := rate; channels := channels;
        bits_per_sample := bits_per_sample; wav_duration := duration |}.

(** The surroundings of one job. *)
Record JobEnv := {
  getenv : str -> option str;     (* [os.getenv] *)
  converter : res unit;
  wav_file : res Wav;             (* the file at [wav_path] *)
  sessions : list SessionEnv      (* one script for each sub-session, in order *)
}.

(** The variables of line 205-210. *)
Definition initial_job : Job :=
  {| dedup := {| transcription_results := [];
                 accepted_last_end_s := round_int (-1) |};
     cursor_frame := 0;
     restarts := 0;
     backoff_s := round_int 1;
     effects := [] |}.

Section Transcribe.

Variable k : Knobs.

(** [max(1, int(rate * (CHUNK_MS / 1000.0)))] *)
Definition chunk_frames_of (rate : Z) : res Z :=
  chunk_s <- (x <- float_of_int (CHUNK_MS k) ;; float_truediv x (round_int 1000)) ;;
  r <- float_of_int rate ;;
  n <- int_of_float (fmul r chunk_s) ;;
  Ok (Z.max 1 n).

(** [transcribe_with_diarization_local] up to the end of its loop: the
    variables the loop ends with.  The pause between two chunks
    ([sleep_per_chunk_s]) only paces the feeder and is left out, and so
    are the diagnostic prints. *)
Definition run_job (env : JobEnv) (file_path language : str)
  : option (res Job) :=
  let setup :=
    wav_path <- convert_audio_to_wav (converter env) file_path ;;
    speech_config <- create_local_speech_config (getenv env) language ;;
    wf <- wav_file env ;;
    wav <- _wav_info (wav_file env) ;;
    let total_frames := frames wav in
    let rate := rate wav in
    if (rate <=? 0) || (channels wav <=? 0) || (bits_per_sample wav <=? 0)
    then Raise (ValueError (lit "Invalid WAV metadata for: " ++ wav_path))
    else
      chunk_frames <- chunk_frames_of rate ;;
      Ok (wf, total_frames, rate, chunk_frames) in
  match setup with
  | Raise e => Some (Raise e)
  | Ok (wf, total_frames, rate, chunk_frames) =>
    supervise k wf total_frames rate chunk_frames (sessions env) initial_job
  end.

(** [transcribe_with_diarization_local(file_path, language)] *)
Definition transcribe_with_diarization_local (env : JobEnv)
    (file_path language : str) : option (res (list TranscriptSegment)) :=
  match run_job env file_path language with
  | Some (Ok j) => Some (Ok (transcription_results (dedup j)))
  | Some (Raise e) => Some (Raise e)
  | None => None
  end.

End Transcribe.

(** [sleep_per_chunk_s] (line 201): the pause of the feeder after each
    chunk. *)
Definition sleep_per_chunk_s_of (k : Knobs) : res float :=
  chunk_s <- (x <- float_of_int (CHUNK_MS k) ;; float_truediv x (round_int 1000)) ;;
  float_truediv chunk_s (fmax (FEED_SPEED k) (dec 1 10)).

(** * Vocabulary of the properties *)

(** The deduplicator variables after a call of [transcribed_cb]: they do
    not depend on the session variables. *)
Definition accept (k : Knobs) (base : float) (evt : RecognitionEvent)
    (d : Dedup) : Dedup :=
  match transcribed_body k base evt d with
  | Ok d' => d'
  | Raise _ => d
  end.

(** The final events of a job in the order they arrive, each with the base
    offset of the sub-session that delivers it, and the deduplicator
    variables after them. *)
Definition process (k : Knobs) (finals : list (float * RecognitionEvent))
    (d : Dedup) : Dedup :=
  fold_left (fun d f => accept k (fst f) (snd f) d) finals d.

(** [seg_end_s] (line 265) of an event that carries a result. *)
Definition seg_end_s_of (base : float) (evt : RecognitionEvent)
  : option float :=
  match result evt with
  | Some r =>
    match int_truediv (int_or_0 (r_offset r) + int_or_0 (r_duration r))
            scale_100ns with
    | Ok local_end => Some (fadd local_end base)
    | Raise _ => None
    end
  | None => None
  end.

(** The final events among the callbacks of a sub-session. *)
Fixpoint finals_of (base : float) (cbs : list Callback)
  : list (float * RecognitionEvent) :=
  match cbs with
  | [] => []
  | Transcribed _ evt :: cbs => (base, evt) :: finals_of base cbs
  | _ :: cbs => finals_of base cbs
  end.

(** A segment as the handler appends it: its text is stripped and not
    empty. *)
Definition stripped_nonempty (seg : TranscriptSegment) : Prop :=
  truthy (text seg) = true /\ strip (text seg) = text seg.

(** The place of a float in the order of [SFcompare]: the sign class
    first, then exponent and mantissa. *)
Definition rank (x : float) : Z * Z * Z :=
  match x with
  | S754_nan => (0, 0, 0)
  | S754_zero _ => (0, 0, 0)
  | S754_infinity true => (-2, 0, 0)
  | S754_infinity false => (2, 0, 0)
  | S754_finite true m e => (-1, - e, Zneg m)
  | S754_finite false m e => (1, e, Zpos m)
  end.

(** The lexicographic comparison of two triples. *)
Definition lex3 (a b : Z * Z * Z) : comparison :=
  let '(a1, a2, a3) := a in
  let '(b1, b2, b3) := b in
  match a1 ?= b1 with
  | Eq => match a2 ?= b2 with
          | Eq => a3 ?= b3
          | c => c
          end
  | c => c
  end.

(** The watermark is a number, and at least [w0]. *)
Definition watermark_from (w0 : float) (d : Dedup) : Prop :=
  fle w0 (accepted_last_end_s d) = true.

(** A float that is zero, or finite and below [2 ^ B]. *)
Definition below (B : Z) (x : float) : Prop :=
  match x with
  | S754_zero _ => True
  | S754_finite _ m e => Zpos (digits2_pos m) + e <= B /\ -1074 <= e
  | _ => False
  end.

(** One iteration of the outer loop that ends without raising. *)
Definition job_step (k : Knobs) (w : Wav) (total_frames rate chunk_frames : Z)
    (j j' : Job) : Prop :=
  cursor_frame j < total_frames /\
  exists env, sub_session k w total_frames rate chunk_frames env j = Some (Ok j').

(** [reaches k w total_frames rate chunk_frames j j']: the loop, in the
    state [j], can later be in the state [j']. *)
Inductive reaches (k : Knobs) (w : Wav) (total_frames rate chunk_frames : Z)
    (j : Job) : Job -> Prop :=
| reaches_refl : reaches k w total_frames rate chunk_frames j j
| reaches_step j1 j2 :
    reaches k w total_frames rate chunk_frames j j1 ->
    job_step k w total_frames rate chunk_frames j1 j2 ->
    reaches k w total_frames rate chunk_frames j j2.

(** The pauses slept, and the sub-sessions started (index and first
    frame), in order. *)
Definition sleeps (l : list Effect) : list float :=
  flat_map (fun e => match e with Sleep t => [t] | SubSession _ _ => [] end) l.

Definition attempts (l : list Effect) : list (Z * Z) :=
  flat_map (fun e => match e with
                     | SubSession i c => [(i, c)]
                     | Sleep _ => []
                     end) l.

(** The pause before the restart number [n] (counted from 0): 1, 2, 4, 8,
    16, then 20 seconds. *)
Definition backoff_at (n : nat) : float :=
  round_int (Z.min 20 (2 ^ Z.of_nat n)).

(** The pauses slept so far and the current backoff follow that
    sequence. *)
Definition backoff_invariant (j : Job) : Prop :=
  0 <= restarts j /\
  sleeps (effects j) = map backoff_at (seq 0 (Z.to_nat (restarts j))) /\
  backoff_s j = backoff_at (Z.to_nat (restarts j)).

(** Header fields as a RIFF file holds them, of a file that passes the
    check of line 197. *)
Definition wav_fits (w : Wav) : Prop :=
  0 <= nframes w < 2 ^ 32 /\ 0 < framerate w < 2 ^ 32 /\
  0 < nchannels w /\ 0 < sampwidth w.

(** The file holds every frame its header declares. *)
Definition holds_declared_frames (w : Wav) : Prop :=
  nframes w * (nchannels w * sampwidth w) <= data_held w.

(** The bytes that can be read from the frame [start] on. *)
Definition bytes_left (w : Wav) (start : Z) : Z :=
  Z.max 0 (readable w - start * (nchannels w * sampwidth w)).

(** An iteration of the feeding loop at which the stop signal is not set
    and neither the read nor the write fails. *)
Definition quiet (t : FeedTick) : Prop :=
  stop_is_set t = false /\ read_fault t = None /\ write_fault t = None.

(** A poll at time [t] with no callback before or after it. *)
Definition silent_round (t : float) : Round :=
  {| during_sleep := []; now := t; before_test := [] |}.

Definition is_cancel (cb : Callback) : bool :=
  match cb with CanceledCb _ => true | _ => false end.

(** A sub-session in which the recogniser stays silent: no callback until
    a poll finds the last activity older than the hang timeout, and no
    cancellation while the session is stopped. *)
Definition is_hang (k : Knobs) (env : SessionEnv) : Prop :=
  sdk_fault env = None /\
  before_loop env = [] /\
  (exists polls : list float,
      rounds env = map silent_round polls /\
      existsb (fun t => flt (HANG_TIMEOUT_S k) (fsub t (start_time env))) polls
      = true) /\
  existsb is_cancel (during_stop env) = false.

(** A sub-session has failed when a callback or the polling loop has asked
    for a restart (lines 309-313, 336), when its feeder has met an error
    (line 352), or when it has stopped before the end of the file with a
    feeder that has not finished (line 356).  [c] is the variables the
    callbacks leave and [feeder] the fields of the feeder, after a
    sub-session started in the state [j]. *)
Definition failed (total_frames : Z) (j : Job) (c : Dedup * Session)
    (feeder : Feeder) : Prop :=
  restart_needed (snd c) = true \/
  error feeder <> None \/
  (cursor_frame j + frames_sent feeder < total_frames /\
   finished feeder = false).

(** The reason of the restart that is decided after a sub-session. *)
Definition reason_of (total_frames : Z) (j : Job) (c : Dedup * Session)
    (feeder : Feeder) : option str :=
  restart_reason
    (decide_restart total_frames
       (Z.min total_frames (cursor_frame j + frames_sent feeder))
       feeder (snd c)).

(** The variables of the loop after a sub-session and a restart with an
    overlap of [overlap_frames]. *)
Definition restarted (total_frames overlap_frames : Z) (j : Job)
    (c : Dedup * Session) (feeder : Feeder) : Job :=
  {| dedup := fst c;
     cursor_frame :=
       Z.max 0 (Z.min total_frames (cursor_frame j + frames_sent feeder)
                - overlap_frames);
     restarts := restarts j + 1;
     backoff_s := fmin (round_int 20) (fmul (backoff_s j) (round_int 2));
     effects := (effects j ++ [SubSession (restarts j) (start_frame feeder)])
                ++ [Sleep (backoff_s j)] |}.

(** Failures in a row: the sub-sessions of [envs], each started in the
    state the restart before it leaves, all fail. *)
Fixpoint all_fail (k : Knobs) (w : Wav)
    (total_frames rate chunk_frames overlap_frames : Z)
    (envs : list SessionEnv) (j : Job) : Prop :=
  match envs with
  | [] => True
  | env :: envs' =>
    cursor_frame j < total_frames /\
    exists base c feeder,
      int_div_float_of (cursor_frame j) rate = Ok base /\
      sdk_fault env = None /\
      run_session k w chunk_frames env j base = Some (c, feeder) /\
      failed total_frames j c feeder /\
      all_fail k w total_frames rate chunk_frames overlap_frames envs'
        (restarted total_frames overlap_frames j c feeder)
  end.

(** The script of a sub-session is complete when its polling loop ends
    whatever the job has done before. *)
Definition script_complete (k : Knobs) (w : Wav) (chunk : Z)
    (env : SessionEnv) : Prop :=
  forall j base, run_session k w chunk env j base <> None.

(** [0.0 <= x] *)
Definition not_negative (x : float) : bool := fle (S754_zero false) x.

(** The audio fed during a run of the loop: for each sub-session after
    which the loop goes on or ends, in order, the frame its feeder starts
    at (line 240) and the number of frames the feeder has sent when it is
    joined (line 349). *)
Fixpoint fed_spans (k : Knobs) (w : Wav) (total_frames rate chunk_frames : Z)
    (envs : list SessionEnv) (j : Job) : list (Z * Z) :=
  if cursor_frame j <? total_frames then
    match envs with
    | [] => []
    | env :: envs' =>
      match sub_session k w total_frames rate chunk_frames env j with
      | Some (Ok j') =>
        let feeder := fst (run w (feeder_env env)
                             (new_feeder (cursor_frame j) chunk_frames)) in
        (cursor_frame j, frames_sent feeder) ::
        fed_spans k w total_frames rate chunk_frames envs' j'
      | _ => []
      end
    end
  else [].

(** A float in its standard form: the mantissa of a finite float has 53
    bits, or fewer at the smallest exponent.  The floats the operations
    return are of this form. *)
Definition valid (x : float) : bool := valid_binary prec emax x.

(** The value of a zero or a finite float, in units of [2 ^ -1074]. *)
Definition scaled (x : float) : Z :=
  match x with
  | S754_finite s m e => cond_Zopp s (Zpos m * 2 ^ (e + 1074))
  | _ => 0
  end.

(** A float that is not greater than zero (zero, negative, or not a
    number). *)
Definition not_positive (x : float) : Prop :=
  match x with
  | S754_finite s _ _ | S754_infinity s => s = true
  | _ => True
  end.

(** The exceptions a job receives from its surroundings: from the audio
    converter, from [wave.open], or from the speech SDK while a recogniser
    is set up and started. *)
Definition raised_by_surroundings (env : JobEnv) (e : exn) : Prop :=
  converter env = Raise e \/ wav_file env = Raise e \/
  exists s, In s (sessions env) /\ sdk_fault s = Some e.

(** The exceptions a job raises itself. *)
Definition raised_by_job (k : Knobs) (language : str) (e : exn) : Prop :=
  e = ValueError (lit "No file path provided to convert_audio_to_wav.") \/
  e = ValueError (lit "Unsupported language or missing endpoint: " ++ language) \/
  (exists wav_path, e = ValueError (lit "Invalid WAV metadata for: " ++ wav_path)) \/
  e = OverflowError \/
  e = ValueError (lit "cannot convert float NaN to integer") \/
  exists reason, e = TooManyRestarts (MAX_RESTARTS k) reason.

(** A base offset as a sub-session computes it (line 214): the quotient
    of two integers. *)
Definition session_base (base : float) : Prop :=
  exists cursor_frame rate : Z, int_div_float_of cursor_frame rate = Ok base.

(** * Worked runs *)

(** A feeder that is left alone for [n] iterations and then finds the stop
    signal set. *)
Definition silent_feeder (n : nat) : FeederEnv :=
  {| open_fault := None;
     ticks := repeat {| stop_is_set := false; read_fault := None;
                        write_fault := None |} n ++
              [{| stop_is_set := true; read_fault := None; write_fault := None |}];
     close_fault := None |}.

(** A file that was cut short: its header declares 16000 frames, and it
    holds 8000. *)
Definition short_wav : Wav :=
  {| data_size := 32000; data_held := 16000;
     framerate := 16000; nchannels := 1; sampwidth := 2 |}.

(** An iteration that is left alone, and a feeder whose third read
    fails. *)
Definition quiet_tick : FeedTick :=
  {| stop_is_set := false; read_fault := None; write_fault := None |}.

Definition faulty_feeder : FeederEnv :=
  {| open_fault := None;
     ticks := repeat quiet_tick 2 ++
              [{| stop_is_set := false;
                  read_fault := Some (Fault (lit "OSError"));
                  write_fault := None |}; quiet_tick];
     close_fault := None |}.

(** A final event with recognised speech, and a cancellation with a
    reason. *)
Definition speech (off dur : Z) (t : string) : RecognitionEvent :=
  {| result := Some {| r_reason := Some RecognizedSpeech; r_text := Some (lit t);
                       r_offset := Some off; r_duration := Some dur;
                       r_speaker_id := Some (lit "Guest-1") |} |}.

Definition canceled_with (t : string) : CanceledEvent :=
  {| c_result := Some {| cancellation_details :=
       Some {| error_details := Some (lit t) |} |} |}.

(** [n] frames of 16 kHz, 16 bit mono audio. *)
Definition wav16k (n : Z) : Wav :=
  {| data_size := 2 * n; data_held := 2 * n;
     framerate := 16000; nchannels := 1; sampwidth := 2 |}.

(** A job on 20 seconds of audio.  Its first sub-session accepts two
    segments and is cancelled when 10.5 seconds are fed; the second one,
    started 1.5 seconds earlier, recognises one utterance and ends with the
    file. *)
Definition demo_env : JobEnv :=
  {| getenv := fun _ => Some (lit "ws://localhost:5000");
     converter := Ok tt;
     wav_file := Ok (wav16k 320000);
     sessions :=
       [ {| sdk_fault := None; start_time := round_int 1000;
            before_loop := [];
            rounds := [ {| during_sleep :=
                             [Transcribed (round_int 1001) (speech 80000000 10000000 "one");
                              Transcribed (round_int 1002) (speech 95000000 5000000 "two");
                              CanceledCb (canceled_with "Connection timeout")];
                           now := round_int 1002; before_test := [] |} ];
            during_stop := [];
            feeder_env := silent_feeder 105 |};
         {| sdk_fault := None; start_time := round_int 1010;
            before_loop := [];
            rounds := [ {| during_sleep :=
                             [Transcribed (round_int 1011) (speech 0 30000000 "two and three");
                              SessionStopped];
                           now := round_int 1012; before_test := [] |} ];
            during_stop := [];
            feeder_env := silent_feeder 200 |} ] |}.

(** A result, and variables to handle it with. *)
Definition demo_result (off dur : Z) : RecognitionResult :=
  {| r_reason := Some RecognizedSpeech; r_text := Some (lit " one ");
     r_offset := Some off; r_duration := Some dur;
     r_speaker_id := Some (lit "Guest-1") |}.

Definition demo_dedup : Dedup :=
  {| transcription_results := []; accepted_last_end_s := round_int 6 |}.

Definition demo_session : Session :=
  {| done := false; restart_needed := false; restart_reason := None;
     last_activity := round_int 1000; last_print := S754_zero false |}.

(** A hang, and a sub-session that recognises its audio to the end. *)
Definition hang_session (start : Z) : SessionEnv :=
  {| sdk_fault := None; start_time := round_int start;
     before_loop := [];
     rounds := [silent_round (round_int (start + 46))];
     during_stop := [SessionStopped];
     feeder_env := silent_feeder 1 |}.

Definition clean_session (start : Z) : SessionEnv :=
  {| sdk_fault := None; start_time := round_int start;
     before_loop := [];
     rounds := [ {| during_sleep :=
                      [Transcribed (round_int (start + 1)) (speech 0 9000000 "hello");
                       SessionStopped];
                    now := round_int (start + 1); before_test := [] |} ];
     during_stop := [];
     feeder_env := silent_feeder 11 |}.

(** A sub-session that the recogniser cancels when the connection is
    lost, the variables of a job that has made eight restarts, and what the
    sub-session leaves when it is started with them. *)
Definition lost_connection_session : SessionEnv :=
  {| sdk_fault := None; start_time := round_int 3000;
     before_loop := [];
     rounds := [ {| during_sleep := [CanceledCb (canceled_with "WebSocket closed")];
                    now := round_int 3001; before_test := [] |} ];
     during_stop := [];
     feeder_env := silent_feeder 3 |}.

Definition spent_job : Job :=
  {| dedup := dedup initial_job; cursor_frame := 0; restarts := 8;
     backoff_s := round_int 20; effects := [] |}.

Definition lost_connection_end : (Dedup * Session) * Feeder :=
  Eval vm_compute in
    match run_session default_knobs (wav16k 16000) 1600
            lost_connection_session spent_job (round_int 0) with
    | Some r => r
    | None => ((dedup initial_job, demo_session), new_feeder 0 0)
    end.

(** A job on one second of audio: [n] hangs, then a sub-session that
    succeeds. *)
Definition hangs_env (n : nat) : JobEnv :=
  {| getenv := fun _ => Some (lit "ws://localhost:5000");
     converter := Ok tt;
     wav_file := Ok (wav16k 16000);
     sessions := repeat (hang_session 1000) n ++ [clean_session 2000] |}.

(** A job on a file without frames. *)
Definition empty_env : JobEnv :=
  {| getenv := fun _ => Some (lit "ws://localhost:5000");
     converter := Ok tt;
     wav_file := Ok (wav16k 0);
     sessions := sessions demo_env |}.

Definition demo_session_1 : SessionEnv := nth 0 (sessions demo_env) (hang_session 0).

(** The variables of the worked run after its first sub-session, which is
    cancelled and restarted, and at its end. *)
Definition demo_restarted : Job :=
  Eval vm_compute in
    match sub_session default_knobs (wav16k 320000) 320000 16000 1600
            demo_session_1 initial_job with
    | Some (Ok j) => j
    | _ => initial_job
    end.

Definition demo_final : Job :=
  Eval vm_compute in
    match run_job default_knobs demo_env (lit "a.wav") (lit "ro-RO") with
    | Some (Ok j) => j
    | _ => initial_job
    end.

(** The second sub-session of that job, and the variables and the feeder
    it ends with. *)
Definition demo_session_2 : SessionEnv := nth 1 (sessions demo_env) (hang_session 0).

Definition demo_session_2_end : (Dedup * Session) * Feeder :=
  Eval vm_compute in
    match run_session default_knobs (wav16k 320000) 1600 demo_session_2
            demo_restarted (round_int 9) with
    | Some r => r
    | None => ((dedup initial_job, demo_session), new_feeder 0 0)
    end.

(** A job on the file that was cut short: each sub-session recognises what
    it is fed and stops. *)
Definition short_env : JobEnv :=
  {| getenv := fun _ => Some (lit "ws://localhost:5000");
     converter := Ok tt;
     wav_file := Ok short_wav;
     sessions := [clean_session 1000; clean_session 2000; clean_session 3000] |}.

(** The default settings with a chunk duration of zero. *)
Definition zero_chunk_knobs : Knobs := {|
  DISPLAY_EVERY_S := round_int 10;
  HANG_TIMEOUT_S := round_int 45;
  MAX_RESTARTS := 8;
  CHUNK_MS := 0;
  FEED_SPEED := dec 105 100;
  OVERLAP_S := dec 15 10;
  DEDUP_EPS_S := dec 8 100
|}.

(** A job on a file whose header gives a frame rate of zero. *)
Definition zero_rate_wav : Wav :=
  {| data_size := 32000; data_held := 32000;
     framerate := 0; nchannels := 1; sampwidth := 2 |}.

Definition zero_rate_env : JobEnv :=
  {| getenv := fun _ => Some (lit "ws://localhost:5000");
     converter := Ok tt;
     wav_file := Ok zero_rate_wav;
     sessions := [] |}.

(** The configuration of the worked runs. *)
Definition demo_config : SpeechConfig :=
  {| host := lit "ws://localhost:5000";
     endpoint := lit "ws://localhost:5000" ++
       lit "/speech/recognition/dictation/cognitiveservices/v1";
     speech_recognition_language := lit "en-US" |}.

(** * Properties *)

(** ** The order of floats

    [SFcompare] orders the floats that are not NaN like the triples
    [rank]: the sign class first, then exponent and mantissa. *)

Lemma SFcompare_rank x y :
  is_nan x = false -> is_nan y = false ->
  SFcompare x y = Some (lex3 (rank x) (rank y)).
Proof.
  destruct x as [sx|sx| |sx mx ex], y as [sy|sy| |sy my ey];
    try discriminate; intros _ _;
    try destruct sx; try destruct sy; try reflexivity.
  cbn. rewrite (Z.compare_opp ex ey), (Z.compare_antisym ex ey).
  destruct (ex ?= ey); reflexivity.
Qed.

Lemma lex3_refl a : lex3 a a = Eq.
Proof.
  destruct a as [[a1 a2] a3]. cbn. now rewrite !Z.compare_refl.
Qed.

Lemma lex3_antisym a b : lex3 b a = CompOpp (lex3 a b).
Proof.
  destruct a as [[a1 a2] a3], b as [[b1 b2] b3]. cbn.
  rewrite (Z.compare_antisym a1 b1), (Z.compare_antisym a2 b2),
    (Z.compare_antisym a3 b3).
  destruct (a1 ?= b1); cbn; try reflexivity.
  destruct (a2 ?= b2); cbn; reflexivity.
Qed.

Lemma lex3_le_trans a b c :
  lex3 a b <> Gt -> lex3 b c <> Gt -> lex3 a c <> Gt.
Proof.
  destruct a as [[a1 a2] a3], b as [[b1 b2] b3], c as [[c1 c2] c3]. cbn.
  destruct (Z.compare_spec a1 b1), (Z.compare_spec b1 c1),
    (Z.compare_spec a1 c1); try lia; try congruence;
  destruct (Z.compare_spec a2 b2), (Z.compare_spec b2 c2),
    (Z.compare_spec a2 c2); try lia; try congruence;
  destruct (Z.compare_spec a3 b3), (Z.compare_spec b3 c3),
    (Z.compare_spec a3 c3); try lia; congruence.
Qed.

Lemma fle_rank x y :
  is_nan x = false -> is_nan y = false ->
  fle x y = true <-> lex3 (rank x) (rank y) <> Gt.
Proof.
  intros Hx Hy. unfold fle, SFleb. rewrite (SFcompare_rank x y Hx Hy).
  destruct (lex3 _ _); split; congruence.
Qed.

Lemma fle_not_nan x y : fle x y = true -> is_nan x = false /\ is_nan y = false.
Proof. destruct x, y; try discriminate; split; reflexivity. Qed.

Lemma flt_not_nan x y : flt x y = true -> is_nan x = false /\ is_nan y = false.
Proof. destruct x, y; try discriminate; split; reflexivity. Qed.

Lemma fle_refl x : is_nan x = false -> fle x x = true.
Proof.
  intros H. apply (fle_rank x x H H). rewrite lex3_refl. discriminate.
Qed.

Lemma fle_trans x y z : fle x y = true -> fle y z = true -> fle x z = true.
Proof.
  intros Hxy Hyz.
  destruct (fle_not_nan _ _ Hxy) as [Hx Hy].
  destruct (fle_not_nan _ _ Hyz) as [_ Hz].
  apply (fle_rank x z Hx Hz).
  apply (lex3_le_trans _ (rank y)).
  - now apply (fle_rank x y Hx Hy).
  - now apply (fle_rank y z Hy Hz).
Qed.

Lemma flt_fle x y : flt x y = true -> fle x y = true.
Proof.
  unfold flt, fle, SFltb, SFleb.
  destruct (SFcompare x y) as [[]|]; congruence.
Qed.

(** Of two floats that are not NaN, one is at most the other. *)
Lemma fle_total x y :
  is_nan x = false -> is_nan y = false -> flt x y = false -> fle y x = true.
Proof.
  intros Hx Hy. unfold flt, fle, SFltb, SFleb.
  rewrite (SFcompare_rank x y Hx Hy), (SFcompare_rank y x Hy Hx).
  rewrite (lex3_antisym (rank x) (rank y)).
  destruct (lex3 (rank x) (rank y)); cbn; congruence.
Qed.

Lemma fmax_not_nan a b : is_nan a = false -> is_nan (fmax a b) = false.
Proof.
  intros Ha. unfold fmax. destruct (flt a b) eqn:Hlt; [|assumption].
  now destruct (flt_not_nan _ _ Hlt).
Qed.

Lemma fmax_ge_l a b : is_nan a = false -> fle a (fmax a b) = true.
Proof.
  intros Ha. unfold fmax. destruct (flt a b) eqn:Hlt.
  - now apply flt_fle.
  - now apply fle_refl.
Qed.

Lemma fmax_ge_r a b :
  is_nan a = false -> is_nan b = false -> fle b (fmax a b) = true.
Proof.
  intros Ha Hb. unfold fmax. destruct (flt a b) eqn:Hlt.
  - now apply fle_refl.
  - now apply fle_total.
Qed.

(** ** Sizes of floats *)

Lemma digits2_pos_size p : digits2_pos p = Pos.size p.
Proof. induction p as [p IH|p IH|]; cbn; congruence. Qed.

Lemma digits2_pos_upper p : Zpos p < 2 ^ Zpos (digits2_pos p).
Proof.
  rewrite digits2_pos_size. pose proof (Pos.size_gt p) as H.
  rewrite <- Pos2Z.inj_pow. now apply Pos2Z.pos_lt_pos.
Qed.

Lemma digits2_pos_lower p : 2 ^ Zpos (digits2_pos p) <= 2 * Zpos p.
Proof.
  rewrite digits2_pos_size. pose proof (Pos.size_le p) as H.
  rewrite <- Pos2Z.inj_pow. now apply Pos2Z.pos_le_pos in H.
Qed.

Lemma Zdigits2_nonneg m : 0 <= Zdigits2 m.
Proof. destruct m; cbn; lia. Qed.

Lemma Zdigits2_upper m : 0 <= m -> m < 2 ^ Zdigits2 m.
Proof.
  destruct m as [|p|p]; intros H; cbn [Zdigits2]; [reflexivity| |lia].
  apply digits2_pos_upper.
Qed.

Lemma Zdigits2_le m n : 0 <= n -> 0 <= m < 2 ^ n -> Zdigits2 m <= n.
Proof.
  intros Hn [H0 Hm]. destruct m as [|p|p]; cbn [Zdigits2]; [assumption| |lia].
  pose proof (digits2_pos_lower p) as Hl.
  assert (Hlt : 2 ^ Zpos (digits2_pos p) < 2 ^ (n + 1)).
  { rewrite Z.pow_add_r by lia. lia. }
  apply Z.pow_lt_mono_r_iff in Hlt; lia.
Qed.

Lemma Zdigits2_mul a b : 0 <= a -> 0 <= b ->
  Zdigits2 (a * b) <= Zdigits2 a + Zdigits2 b.
Proof.
  intros Ha Hb.
  pose proof (Zdigits2_nonneg a). pose proof (Zdigits2_nonneg b).
  apply Zdigits2_le; [lia|]. split; [lia|].
  rewrite Z.pow_add_r by assumption.
  pose proof (Zdigits2_upper a Ha). pose proof (Zdigits2_upper b Hb). nia.
Qed.

Lemma Zdigits2_succ m : 0 <= m -> Zdigits2 (m + 1) <= Zdigits2 m + 1.
Proof.
  intros Hm. pose proof (Zdigits2_nonneg m).
  apply Zdigits2_le; [lia|]. split; [lia|].
  rewrite Z.pow_add_r by lia. pose proof (Zdigits2_upper m Hm). lia.
Qed.

Lemma Zpos_iter_xO m d : Zpos (Pos.iter xO m d) = Zpos m * 2 ^ Zpos d.
Proof.
  induction d as [|d IH] using Pos.peano_ind.
  - cbn. lia.
  - rewrite Pos.iter_succ, Pos2Z.inj_xO, IH, Pos2Z.inj_succ, Z.pow_succ_r by lia.
    lia.
Qed.

Lemma Zdigits2_shift a n :
  0 < a -> 0 <= n -> Zdigits2 (a * 2 ^ n) = Zdigits2 a + n.
Proof.
  intros Ha Hn.
  assert (Hp : 0 < 2 ^ n) by (apply Z.pow_pos_nonneg; lia).
  pose proof (Zdigits2_nonneg a) as Hd.
  apply Z.le_antisymm.
  - apply Zdigits2_le; [lia|]. split; [nia|].
    rewrite Z.pow_add_r by lia.
    pose proof (Zdigits2_upper a ltac:(lia)). nia.
  - pose proof (Zdigits2_upper (a * 2 ^ n) ltac:(nia)) as Hu.
    pose proof (Zdigits2_nonneg (a * 2 ^ n)) as Hd'.
    destruct a as [|p|p]; try lia. cbn [Zdigits2] in *.
    pose proof (digits2_pos_lower p) as Hl.
    assert (Hlt : 2 ^ (Zpos (digits2_pos p) + n) < 2 ^ (Zdigits2 (Zpos p * 2 ^ n) + 1)).
    { rewrite !Z.pow_add_r by lia. change (2 ^ 1) with 2. nia. }
    apply Z.pow_lt_mono_r_iff in Hlt; lia.
Qed.

Lemma shr_1_even a :
  0 <= a ->
  shr_1 {| shr_m := 2 * a; shr_r := false; shr_s := false |}
  = {| shr_m := a; shr_r := false; shr_s := false |}.
Proof. destruct a as [|p|p]; intros H; try reflexivity; lia. Qed.

Lemma iter_shr_1_exact p :
  forall a, 0 <= a ->
    SpecFloat.iter_pos shr_1 p
      {| shr_m := a * 2 ^ Zpos p; shr_r := false; shr_s := false |}
    = {| shr_m := a; shr_r := false; shr_s := false |}.
Proof.
  assert (Hpow : forall q, 0 < 2 ^ Zpos q) by (intros; apply Z.pow_pos_nonneg; lia).
  induction p as [p IH|p IH|]; intros a Ha; cbn [SpecFloat.iter_pos].
  - pose proof (Hpow p).
    replace (a * 2 ^ Zpos p~1) with (2 * ((a * 2 ^ Zpos p) * 2 ^ Zpos p)).
    + rewrite shr_1_even by nia. rewrite IH by nia. now apply IH.
    + replace (Zpos p~1) with (1 + Zpos p + Zpos p) by lia.
      rewrite !Z.pow_add_r by lia. lia.
  - pose proof (Hpow p).
    replace (a * 2 ^ Zpos p~0) with ((a * 2 ^ Zpos p) * 2 ^ Zpos p).
    + rewrite IH by nia. now apply IH.
    + replace (Zpos p~0) with (Zpos p + Zpos p) by lia.
      rewrite !Z.pow_add_r by lia. lia.
  - change (2 ^ 1) with 2. rewrite Z.mul_comm. now apply shr_1_even.
Qed.

Lemma shr_1_m mrs : 0 <= shr_m mrs -> shr_m (shr_1 mrs) = shr_m mrs / 2.
Proof.
  destruct mrs as [m r s]. cbn [shr_m]. intros Hm.
  rewrite <- Z.div2_div.
  destruct m as [|[p|p|]|p]; try reflexivity; lia.
Qed.

Lemma iter_shr_1_m p :
  forall mrs, 0 <= shr_m mrs ->
    shr_m (SpecFloat.iter_pos shr_1 p mrs) = shr_m mrs / 2 ^ Zpos p.
Proof.
  assert (Hdiv : forall a b, 0 <= a -> 0 < b -> 0 <= a / b)
    by (intros; apply Z.div_pos; lia).
  assert (Hpow : forall q, 0 < 2 ^ Zpos q) by (intros; apply Z.pow_pos_nonneg; lia).
  induction p as [p IH|p IH|]; intros mrs Hm; cbn [SpecFloat.iter_pos].
  - pose proof (Hpow p).
    rewrite IH, IH, shr_1_m; try assumption.
    + rewrite !Z.div_div by lia. f_equal.
      replace (Zpos p~1) with (1 + Zpos p + Zpos p) by lia.
      rewrite !Z.pow_add_r by lia. lia.
    + rewrite shr_1_m by assumption. apply Hdiv; lia.
    + rewrite IH, shr_1_m; rewrite ?shr_1_m; try assumption;
        repeat apply Hdiv; lia.
  - pose proof (Hpow p).
    rewrite IH, IH; try assumption.
    + rewrite !Z.div_div by lia. f_equal.
      replace (Zpos p~0) with (Zpos p + Zpos p) by lia.
      rewrite !Z.pow_add_r by lia. lia.
    + rewrite IH by assumption. apply Hdiv; lia.
  - now apply shr_1_m.
Qed.

Lemma fexp_eq x : fexp prec emax x = Z.max (x - 53) (-1074).
Proof. reflexivity. Qed.

Lemma shr_record_of_loc_m m l : shr_m (shr_record_of_loc m l) = m.
Proof. destruct l as [|[]]; reflexivity. Qed.

(** Shifting a mantissa to the exponent its size asks for makes neither
    the mantissa nor the size larger. *)
Lemma shr_fexp_spec m e l :
  0 <= m ->
  0 <= shr_m (fst (shr_fexp prec emax m e l)) <= m /\
  snd (shr_fexp prec emax m e l) = Z.max e (fexp prec emax (Zdigits2 m + e)) /\
  Zdigits2 (shr_m (fst (shr_fexp prec emax m e l)))
    + snd (shr_fexp prec emax m e l)
  <= Z.max (Zdigits2 m + e) (snd (shr_fexp prec emax m e l)).
Proof.
  intros Hm. unfold shr_fexp, shr.
  pose proof (Zdigits2_nonneg m) as Hd.
  destruct (fexp prec emax (Zdigits2 m + e) - e) as [|p|p] eqn:Hn;
    cbn [fst snd].
  - rewrite shr_record_of_loc_m. lia.
  - rewrite iter_shr_1_m by (rewrite shr_record_of_loc_m; lia).
    rewrite shr_record_of_loc_m.
    assert (Hpow : 0 < 2 ^ Zpos p) by (apply Z.pow_pos_nonneg; lia).
    assert (Hq : 0 <= m / 2 ^ Zpos p <= m).
    { split; [apply Z.div_pos; lia|].
      apply Z.div_le_upper_bound; [lia|]. nia. }
    split; [exact Hq|]. split; [lia|].
    destruct (Z.le_gt_cases (Zpos p) (Zdigits2 m)) as [Hle|Hgt].
    + assert (Zdigits2 (m / 2 ^ Zpos p) <= Zdigits2 m - Zpos p); [|lia].
      apply Zdigits2_le; [lia|]. split; [lia|].
      apply Z.div_lt_upper_bound; [lia|].
      rewrite <- Z.pow_add_r by lia.
      replace (Zpos p + (Zdigits2 m - Zpos p)) with (Zdigits2 m) by lia.
      now apply Zdigits2_upper.
    + assert (Hz : m / 2 ^ Zpos p = 0); [|rewrite Hz; cbn [Zdigits2]; lia].
      apply Z.div_small. split; [assumption|].
      apply (Z.lt_le_trans _ (2 ^ Zdigits2 m)); [now apply Zdigits2_upper|].
      apply Z.pow_le_mono_r; lia.
  - rewrite shr_record_of_loc_m. lia.
Qed.

Lemma round_nearest_even_bounds m l :
  m <= round_nearest_even m l <= m + 1.
Proof.
  destruct l as [|[]]; cbn [round_nearest_even]; try lia.
  destruct (Z.even m); lia.
Qed.

Lemma below_finite B x : below B x -> is_finite x = true.
Proof. destruct x; cbn; tauto. Qed.

Lemma below_le B B' x : B <= B' -> below B x -> below B' x.
Proof. destruct x; cbn; try tauto. lia. Qed.

(** Rounding a mantissa of size [B], below the overflow threshold, gives a
    float of size [B + 1] at most. *)
Lemma binary_round_aux_below sx mx ex lx B :
  0 <= mx -> Zdigits2 mx + ex <= B -> -1074 <= B <= 971 ->
  below (B + 1) (binary_round_aux prec emax sx mx ex lx).
Proof.
  intros Hm HB Hrange. unfold binary_round_aux.
  pose proof (shr_fexp_spec mx ex lx Hm) as (H1 & H2 & H3).
  destruct (shr_fexp prec emax mx ex lx) as [mrs' e']. cbn [fst snd] in *.
  pose proof (round_nearest_even_bounds (shr_m mrs') (loc_of_shr_record mrs'))
    as Hr.
  set (m1 := round_nearest_even (shr_m mrs') (loc_of_shr_record mrs')) in *.
  assert (Hm1 : 0 <= m1) by lia.
  pose proof (shr_fexp_spec m1 e' loc_Exact Hm1) as (H4 & H5 & H6).
  destruct (shr_fexp prec emax m1 e' loc_Exact) as [mrs'' e'']. cbn [fst snd] in *.
  pose proof (Zdigits2_nonneg mx) as Hd.
  pose proof (Zdigits2_nonneg m1) as Hd1.
  assert (Hsize1 : Zdigits2 m1 <= Zdigits2 (shr_m mrs') + 1).
  { destruct (Z.eq_dec m1 (shr_m mrs')) as [->|Hne]; [lia|].
    replace m1 with (shr_m mrs' + 1) by lia. apply Zdigits2_succ. lia. }
  rewrite fexp_eq in H2, H5.
  destruct (shr_m mrs'') as [|m|m] eqn:Hm2; [exact I| |lia].
  cbn [Zdigits2] in H6.
  replace (e'' <=? emax - prec) with true
    by (symmetry; apply Z.leb_le; unfold emax, prec; lia).
  cbn [below]. lia.
Qed.

Lemma fmul_below Bx By x y :
  below Bx x -> below By y -> -1074 <= Bx + By <= 971 ->
  below (Bx + By + 1) (fmul x y).
Proof.
  destruct x as [sx|sx| |sx mx ex], y as [sy|sy| |sy my ey];
    cbn [below]; try tauto; try (intros; exact I).
  intros [Hx Hex] [Hy Hey] HB. unfold fmul. cbn [SFmul].
  apply binary_round_aux_below; [lia| |assumption].
  change (Zpos (mx * my)) with (Zpos mx * Zpos my).
  pose proof (Zdigits2_mul (Zpos mx) (Zpos my) ltac:(lia) ltac:(lia)) as H.
  cbn [Zdigits2] in *. lia.
Qed.

(** ** Conversions of small integers *)

Lemma digits2_pos_iter_xO m d :
  digits2_pos (Pos.iter xO m d) = (digits2_pos m + d)%positive.
Proof.
  induction d as [|d IH] using Pos.peano_ind.
  - cbn. lia.
  - rewrite Pos.iter_succ. cbn [digits2_pos]. rewrite IH. lia.
Qed.

(** A mantissa of full size at a fitting exponent is its own rounding. *)
Lemma binary_round_aux_exact s m e :
  digits2_pos m = 53%positive -> -1074 <= e <= 971 ->
  binary_round_aux prec emax s (Zpos m) e loc_Exact = S754_finite s m e.
Proof.
  intros Hd He. unfold binary_round_aux, shr_fexp.
  cbn [Zdigits2 shr_record_of_loc]. rewrite Hd, fexp_eq.
  replace (Z.max (53 + e - 53) (-1074) - e) with 0 by lia.
  cbn [shr shr_m loc_of_shr_record round_nearest_even Zdigits2 shr_record_of_loc].
  rewrite Hd, fexp_eq.
  replace (Z.max (53 + e - 53) (-1074) - e) with 0 by lia.
  cbn [shr shr_m].
  replace (e <=? emax - prec) with true
    by (symmetry; apply Z.leb_le; unfold emax, prec; lia).
  reflexivity.
Qed.

(** A mantissa of full size followed by [n] zero bits rounds to itself. *)
Lemma binary_round_aux_exact_shift s m e n :
  digits2_pos m = 53%positive -> 0 <= n -> -1074 <= e <= 971 ->
  binary_round_aux prec emax s (Zpos m * 2 ^ n) (e - n) loc_Exact
  = S754_finite s m e.
Proof.
  intros Hd Hn He.
  rewrite <- (binary_round_aux_exact s m e Hd He).
  unfold binary_round_aux.
  assert (Hshift : shr_fexp prec emax (Zpos m * 2 ^ n) (e - n) loc_Exact
                   = shr_fexp prec emax (Zpos m) e loc_Exact).
  { unfold shr_fexp. rewrite Zdigits2_shift by lia.
    cbn [Zdigits2 shr_record_of_loc]. rewrite Hd, !fexp_eq.
    replace (Z.max (53 + n + (e - n) - 53) (-1074) - (e - n)) with n by lia.
    replace (Z.max (53 + e - 53) (-1074) - e) with 0 by lia.
    unfold shr. destruct n as [|p|p]; try lia.
    - now rewrite Z.mul_1_r, Z.sub_0_r.
    - rewrite iter_shr_1_exact by lia. f_equal. lia. }
  now rewrite Hshift.
Qed.

Lemma fmul_exact sx mx ex sy my ey M n :
  Zpos mx * Zpos my = Zpos M * 2 ^ n ->
  digits2_pos M = 53%positive -> 0 <= n -> -1074 <= ex + ey + n <= 971 ->
  fmul (S754_finite sx mx ex) (S754_finite sy my ey)
  = S754_finite (xorb sx sy) M (ex + ey + n).
Proof.
  intros HM Hd Hn He. unfold fmul. cbn [SFmul].
  change (Zpos (mx * my)) with (Zpos mx * Zpos my). rewrite HM.
  rewrite <- (binary_round_aux_exact_shift (xorb sx sy) M (ex + ey + n) n Hd Hn He).
  f_equal. lia.
Qed.

(** The double of an integer below [2 ^ 53] in absolute value is exact. *)
Lemma binary_round_small s p :
  Zpos p < 2 ^ 53 ->
  exists m, binary_round prec emax s p 0
            = S754_finite s m (Zpos (digits2_pos p) - 53) /\
            digits2_pos m = 53%positive /\
            Zpos m = Zpos p * 2 ^ (53 - Zpos (digits2_pos p)).
Proof.
  intros Hn.
  assert (Hd : Zpos (digits2_pos p) <= 53).
  { apply (Zdigits2_le (Zpos p) 53); lia. }
  unfold binary_round, shl_align.
  rewrite fexp_eq.
  replace (Z.max (Zpos (digits2_pos p) + 0 - 53) (-1074) - 0)
    with (Zpos (digits2_pos p) - 53) by lia.
  replace (Z.max (Zpos (digits2_pos p) + 0 - 53) (-1074))
    with (Zpos (digits2_pos p) - 53) by lia.
  destruct (Zpos (digits2_pos p) - 53) as [|q|q] eqn:Hq; try lia.
  - exists p. replace (53 - Zpos (digits2_pos p)) with 0 by lia.
    split; [|split; lia].
    apply binary_round_aux_exact; lia.
  - exists (Pos.iter xO p q).
    assert (Hsize : digits2_pos (Pos.iter xO p q) = 53%positive)
      by (rewrite digits2_pos_iter_xO; lia).
    split; [|split; [assumption|]].
    + apply binary_round_aux_exact; [assumption|lia].
    + rewrite Zpos_iter_xO. f_equal. f_equal. lia.
Qed.

Lemma round_int_small (n : Z) :
  0 < n < 2 ^ 53 ->
  exists m, round_int n = S754_finite false m (Zdigits2 n - 53) /\
            digits2_pos m = 53%positive /\
            Zpos m = n * 2 ^ (53 - Zdigits2 n).
Proof.
  intros [H0 Hn]. destruct n as [|p|p]; try lia.
  exact (binary_round_small false p Hn).
Qed.

Lemma round_int_below (n : Z) :
  - 2 ^ 53 < n < 2 ^ 53 -> below 53 (round_int n).
Proof.
  intros Hn. destruct n as [|p|p].
  - exact I.
  - destruct (binary_round_small false p ltac:(lia)) as (m & Hy & Hd & _).
    unfold round_int. cbn [binary_normalize]. rewrite Hy. cbn [below].
    rewrite Hd.
    pose proof (Zdigits2_le (Zpos p) 53 ltac:(lia) ltac:(lia)) as H.
    cbn [Zdigits2] in H. lia.
  - destruct (binary_round_small true p ltac:(lia)) as (m & Hy & Hd & _).
    unfold round_int. cbn [binary_normalize]. rewrite Hy. cbn [below].
    rewrite Hd.
    pose proof (Zdigits2_le (Zpos p) 53 ltac:(lia) ltac:(lia)) as H.
    cbn [Zdigits2] in H. lia.
Qed.

(** ** Sums, differences and quotients *)

Lemma Zdigits2_mono a b : 0 <= a <= b -> Zdigits2 a <= Zdigits2 b.
Proof.
  intros H. apply Zdigits2_le; [apply Zdigits2_nonneg|].
  pose proof (Zdigits2_upper b ltac:(lia)). lia.
Qed.

Lemma shl_align_fst mx ex ez :
  ez <= ex -> Zpos (fst (shl_align mx ex ez)) = Zpos mx * 2 ^ (ex - ez).
Proof.
  intros H. unfold shl_align.
  destruct (ez - ex) as [|d|d] eqn:Hd; try lia; cbn [fst].
  - replace (ex - ez) with 0 by lia. lia.
  - rewrite Zpos_iter_xO. f_equal. f_equal. lia.
Qed.

Lemma shl_align_size mx ex ez :
  Zpos (digits2_pos (fst (shl_align mx ex ez))) + snd (shl_align mx ex ez)
  = Zpos (digits2_pos mx) + ex /\
  snd (shl_align mx ex ez) = Z.min ex ez.
Proof.
  unfold shl_align.
  destruct (ez - ex) as [|d|d] eqn:Hd; cbn [fst snd]; try lia.
  rewrite digits2_pos_iter_xO. lia.
Qed.

Lemma binary_round_below s m e B :
  Zpos (digits2_pos m) + e <= B -> -1074 <= B <= 971 ->
  below (B + 1) (binary_round prec emax s m e).
Proof.
  intros HB Hrange. unfold binary_round.
  pose proof (shl_align_size m e (fexp prec emax (Zpos (digits2_pos m) + e)))
    as [Hsize _].
  destruct (shl_align m e _) as [mz ez]. cbn [fst snd] in Hsize.
  apply binary_round_aux_below; [lia| |assumption].
  cbn [Zdigits2]. lia.
Qed.

Lemma binary_normalize_below m e B :
  Zdigits2 m + e <= B -> -1074 <= B <= 971 ->
  below (B + 1) (binary_normalize prec emax m e false).
Proof.
  intros HB Hrange. destruct m as [|p|p]; cbn [binary_normalize Zdigits2] in *.
  - exact I.
  - now apply binary_round_below.
  - now apply binary_round_below.
Qed.

Lemma Zdigits2_abs m : Zdigits2 m = Zdigits2 (Z.abs m).
Proof. destruct m; reflexivity. Qed.

(** The sum or difference of two aligned mantissas. *)
Lemma aligned_sum_size mx ex my ey (a b : Z) Bx By :
  Zpos (digits2_pos mx) + ex <= Bx -> Zpos (digits2_pos my) + ey <= By ->
  Z.abs a = Zpos (fst (shl_align mx ex (Z.min ex ey))) ->
  Z.abs b = Zpos (fst (shl_align my ey (Z.min ex ey))) ->
  Zdigits2 (a + b) + Z.min ex ey <= Z.max Bx By + 1.
Proof.
  intros Hx Hy Ha Hb.
  rewrite shl_align_fst in Ha, Hb by lia.
  pose proof (digits2_pos_upper mx) as Hux.
  pose proof (digits2_pos_upper my) as Huy.
  set (ez := Z.min ex ey) in *.
  assert (Hpx : 0 < 2 ^ (ex - ez)) by (apply Z.pow_pos_nonneg; lia).
  assert (Hpy : 0 < 2 ^ (ey - ez)) by (apply Z.pow_pos_nonneg; lia).
  assert (Hbound : forall m e, 0 < Zpos m -> Zpos m < 2 ^ Zpos (digits2_pos m) ->
            ez <= e -> Zpos (digits2_pos m) + e <= Z.max Bx By ->
            Zpos m * 2 ^ (e - ez) < 2 ^ (Z.max Bx By - ez)).
  { intros m e _ Hu He Hm.
    apply (Z.lt_le_trans _ (2 ^ Zpos (digits2_pos m) * 2 ^ (e - ez))).
    - apply Z.mul_lt_mono_pos_r; [apply Z.pow_pos_nonneg; lia|assumption].
    - rewrite <- Z.pow_add_r by lia. apply Z.pow_le_mono_r; lia. }
  pose proof (Hbound mx ex ltac:(lia) Hux ltac:(lia) ltac:(lia)) as H1.
  pose proof (Hbound my ey ltac:(lia) Huy ltac:(lia) ltac:(lia)) as H2.
  rewrite Zdigits2_abs.
  assert (Hd : Zdigits2 (Z.abs (a + b)) <= Z.max Bx By - ez + 1); [|lia].
  assert (Hmax : 0 <= Z.max Bx By - ez) by lia.
  apply Zdigits2_le; [lia|]. split; [lia|].
  rewrite Z.pow_add_r by lia. change (2 ^ 1) with 2. lia.
Qed.

Lemma cond_Zopp_abs s m : Z.abs (cond_Zopp s (Zpos m)) = Zpos m.
Proof. destruct s; reflexivity. Qed.

Lemma fadd_below Bx By x y :
  below Bx x -> below By y -> -1074 <= Z.max Bx By + 1 <= 971 ->
  below (Z.max Bx By + 2) (fadd x y).
Proof.
  destruct x as [sx|sx| |sx mx ex], y as [sy|sy| |sy my ey];
    cbn [below]; try tauto.
  - intros _ _ _. unfold fadd. cbn. destruct sx, sy; exact I.
  - intros _ [Hy Hey] HB. unfold fadd. cbn [SFadd below]. lia.
  - intros [Hx Hex] _ HB. unfold fadd. cbn [SFadd below]. lia.
  - intros [Hx Hex] [Hy Hey] HB. unfold fadd. cbn [SFadd].
    replace (Z.max Bx By + 2) with (Z.max Bx By + 1 + 1) by lia.
    apply binary_normalize_below; [|assumption].
    apply (aligned_sum_size mx ex my ey); try assumption;
      apply cond_Zopp_abs.
Qed.

Lemma Z_abs_opp_eq a m : Z.abs a = Zpos m -> Z.abs (- a) = Zpos m.
Proof. intros <-. apply Z.abs_opp. Qed.

Lemma fsub_below Bx By x y :
  below Bx x -> below By y -> -1074 <= Z.max Bx By + 1 <= 971 ->
  below (Z.max Bx By + 2) (fsub x y).
Proof.
  destruct x as [sx|sx| |sx mx ex], y as [sy|sy| |sy my ey];
    cbn [below]; try tauto.
  - intros _ _ _. unfold fsub. cbn. destruct sx, sy; exact I.
  - intros _ [Hy Hey] HB. unfold fsub. cbn [SFsub below]. lia.
  - intros [Hx Hex] _ HB. unfold fsub. cbn [SFsub below]. lia.
  - intros [Hx Hex] [Hy Hey] HB. unfold fsub. cbn [SFsub].
    replace (Z.max Bx By + 2) with (Z.max Bx By + 1 + 1) by lia.
    apply binary_normalize_below; [|assumption].
    rewrite <- Z.add_opp_r.
    apply (aligned_sum_size mx ex my ey); try assumption.
    + apply cond_Zopp_abs.
    + apply Z_abs_opp_eq, cond_Zopp_abs.
Qed.

(** The quotient by a float of exponent [ey]. *)
Lemma SFdiv_below Bx x sy my ey :
  below Bx x -> -1074 <= Bx - ey <= 971 ->
  below (Bx - ey + 1) (SFdiv prec emax x (S754_finite sy my ey)).
Proof.
  destruct x as [sx|sx| |sx mx ex]; cbn [below]; try tauto.
  intros [Hx Hex] HB. cbn [SFdiv]. unfold SFdiv_core_binary.
    set (e' := Z.min _ _).
    assert (He' : e' <= ex - ey) by (unfold e'; lia).
    set (m' := match ex - ey - e' with
               | 0 => Zpos mx
               | Zpos _ => Z.shiftl (Zpos mx) (ex - ey - e')
               | Zneg _ => 0
               end).
    assert (Hm' : m' = Zpos mx * 2 ^ (ex - ey - e')).
    { unfold m'. destruct (ex - ey - e') as [|p|p] eqn:Hs; try lia.
      now rewrite Z.shiftl_mul_pow2 by lia. }
    assert (Hpow : 0 < 2 ^ (ex - ey - e')) by (apply Z.pow_pos_nonneg; lia).
    pose proof (Z_div_mod m' (Zpos my) ltac:(lia)) as Hdiv.
    destruct (Z.div_eucl m' (Zpos my)) as [q r].
    destruct Hdiv as [Hq Hr].
    assert (Hq0 : 0 <= q <= m') by nia.
    apply binary_round_aux_below; [lia| |assumption].
    assert (Hsize : Zdigits2 q <= Zdigits2 m') by (apply Zdigits2_mono; lia).
    rewrite Hm', Zdigits2_shift in Hsize by lia.
    cbn [Zdigits2] in Hsize. lia.
Qed.

(** ** The arithmetic of the supervisor does not overflow *)

Lemma float_of_int_small (n : Z) :
  0 < n < 2 ^ 53 ->
  exists y, float_of_int n = Ok y /\ is_zero y = false /\ below (Zdigits2 n) y.
Proof.
  intros Hn. destruct (round_int_small n Hn) as (m & Hy & Hd & _).
  exists (S754_finite false m (Zdigits2 n - 53)). unfold float_of_int. rewrite Hy.
  repeat split; cbn [below]; try lia.
  pose proof (Zdigits2_nonneg n). lia.
Qed.

Lemma int_div_float_of_small (n d : Z) :
  0 <= n < 2 ^ 53 -> 0 < d < 2 ^ 53 ->
  exists x, int_div_float_of n d = Ok x.
Proof.
  intros Hn Hd. unfold int_div_float_of.
  destruct (float_of_int_small d Hd) as (y & -> & Hy & _). cbn [bind].
  assert (Hx : exists x, float_of_int n = Ok x).
  { destruct (Z.eq_dec n 0) as [->|Hne]; [now exists (S754_zero false)|].
    destruct (float_of_int_small n ltac:(lia)) as (x & -> & _). now exists x. }
  destruct Hx as (x & ->). cbn [bind].
  unfold float_truediv. rewrite Hy. now eexists.
Qed.

Lemma int_of_float_finite x :
  is_finite x = true -> exists n, int_of_float x = Ok n.
Proof. destruct x; try discriminate; intros _; cbn; now eexists. Qed.

(** ** The overlap window *)

Lemma int_of_float_negative_exponent s m e :
  e < 0 ->
  int_of_float (S754_finite s m e)
  = Ok (if s then - (Zpos m / 2 ^ (- e)) else Zpos m / 2 ^ (- e)).
Proof.
  intros He. destruct e as [|p|p]; try lia.
  cbn [int_of_float]. now rewrite Z.shiftr_div_pow2 by lia.
Qed.

(** With the default overlap of 1.5 seconds, the overlap window of a file
    of [rate] frames per second is [3 * rate / 2] frames, rounded down. *)
Lemma overlap_frames_default (rate : Z) :
  0 < rate < 2 ^ 32 ->
  int_float_mul (OVERLAP_S default_knobs) rate = Ok (3 * rate / 2).
Proof.
  intros Hr. unfold int_float_mul, float_of_int.
  assert (Hr53 : 0 < rate < 2 ^ 53).
  { split; [lia|]. apply (Z.lt_trans _ (2 ^ 32)); [lia|reflexivity]. }
  destruct (round_int_small rate Hr53) as (m & Hy & Hd & Hm).
  rewrite Hy. cbn [is_finite bind].
  change (OVERLAP_S default_knobs)
    with (S754_finite false 6755399441055744 (-52)).
  set (d := Zdigits2 rate) in *. set (d3 := Zdigits2 (3 * rate)).
  assert (Hd1 : d <= 32) by (apply Zdigits2_le; lia).
  assert (Hd0 : 0 <= d) by apply Zdigits2_nonneg.
  assert (Hd3 : d <= d3 <= d + 2).
  { split; [apply Zdigits2_mono; lia|].
    apply Zdigits2_le; [lia|]. split; [lia|].
    pose proof (Zdigits2_upper rate ltac:(lia)) as Hu. fold d in Hu.
    rewrite Z.pow_add_r by lia. change (2 ^ 2) with 4. lia. }
  assert (Hpow : 0 < 2 ^ (53 - d3)) by (apply Z.pow_pos_nonneg; lia).
  set (M := Z.to_pos (3 * rate * 2 ^ (53 - d3))).
  assert (HM : Zpos M = 3 * rate * 2 ^ (53 - d3))
    by (unfold M; rewrite Z2Pos.id; nia).
  assert (HdM : digits2_pos M = 53%positive).
  { assert (H : Zdigits2 (Zpos M) = 53).
    { rewrite HM, Zdigits2_shift by lia. fold d3. lia. }
    cbn [Zdigits2] in H. now injection H. }
  rewrite (fmul_exact false _ (-52) false m (d - 53) M (51 + d3 - d));
    try assumption; try lia.
  - rewrite int_of_float_negative_exponent by lia. f_equal.
    rewrite HM.
    replace (- (-52 + (d - 53) + (51 + d3 - d))) with (1 + (53 - d3)) by lia.
    rewrite Z.pow_add_r by lia. change (2 ^ 1) with 2.
    apply Z.div_mul_cancel_r; lia.
  - rewrite HM, Hm.
    change (Zpos 6755399441055744) with (3 * 2 ^ 51).
    replace (3 * rate * 2 ^ (53 - d3) * 2 ^ (51 + d3 - d))
      with (3 * rate * (2 ^ (53 - d3) * 2 ^ (51 + d3 - d))) by ring.
    rewrite <- Z.pow_add_r by lia.
    replace (3 * 2 ^ 51 * (rate * 2 ^ (53 - d)))
      with (3 * rate * (2 ^ 51 * 2 ^ (53 - d))) by ring.
    rewrite <- Z.pow_add_r by lia.
    do 2 f_equal. lia.
Qed.

(** ** The base offset *)

(** The base offset of a sub-session is a finite float. *)
Lemma session_base_below (cursor rate : Z) (base : float) :
  0 <= cursor < 2 ^ 53 -> 0 < rate < 2 ^ 53 ->
  int_div_float_of cursor rate = Ok base -> below 128 base.
Proof.
  intros Hc Hr. unfold int_div_float_of, float_of_int.
  destruct (round_int_small rate Hr) as (m & -> & _ & _).
  cbn [is_finite bind].
  pose proof (round_int_below cursor ltac:(lia)) as Hx.
  rewrite (below_finite _ _ Hx). cbn [bind float_truediv is_zero].
  intros [= <-].
  assert (Hd : 0 <= Zdigits2 rate <= 53).
  { split; [apply Zdigits2_nonneg|apply Zdigits2_le; lia]. }
  apply (below_le (53 - (Zdigits2 rate - 53) + 1)); [lia|].
  apply SFdiv_below; [assumption|lia].
Qed.

(** ** The handler of final results *)

Lemma transcribed_cb_stamp k base now evt c :
  snd (fst (transcribed_cb k base now evt c)) = set_last_activity now (snd c).
Proof.
  unfold transcribed_cb.
  destruct (transcribed_body k base evt (fst c)); reflexivity.
Qed.

Lemma transcribed_cb_accept k base now evt c :
  fst (fst (transcribed_cb k base now evt c)) = accept k base evt (fst c).
Proof.
  unfold transcribed_cb, accept.
  destruct (transcribed_body k base evt (fst c)); reflexivity.
Qed.

(** What a call of [transcribed_cb] can do to the segment list: nothing,
    or append one segment whose text is the stripped, non-empty text of
    the event; in that case the global end of the event is not within
    epsilon of the watermark, which becomes its maximum with that end. *)
Lemma transcribed_body_cases k base evt d d' :
  transcribed_body k base evt d = Ok d' ->
  d' = d \/
  exists r local_end seg,
    result evt = Some r /\
    is_RecognizedSpeech (r_reason r) = true /\
    int_truediv (int_or_0 (r_offset r) + int_or_0 (r_duration r)) scale_100ns
      = Ok local_end /\
    fle (fadd local_end base)
        (fadd (accepted_last_end_s d) (DEDUP_EPS_S k)) = false /\
    text seg = strip (or_empty (r_text r)) /\
    truthy (text seg) = true /\
    speaker_id seg = r_speaker_id r /\
    transcription_results d' = transcription_results d ++ [seg] /\
    accepted_last_end_s d' = fmax (accepted_last_end_s d) (fadd local_end base).
Proof.
  unfold transcribed_body.
  destruct (result evt) as [r|]; [|intros [= <-]; now left].
  destruct (is_RecognizedSpeech (r_reason r)) eqn:Hreason; cbn [negb];
    [|intros [= <-]; now left].
  destruct (truthy (strip (or_empty (r_text r)))) eqn:Htext; cbn [negb];
    [|intros [= <-]; now left].
  destruct (int_truediv (int_or_0 (r_offset r)) scale_100ns) as [ls|];
    cbn [bind]; [|discriminate].
  destruct (int_truediv (int_or_0 (r_offset r) + int_or_0 (r_duration r))
              scale_100ns) as [le|] eqn:Hle; cbn [bind]; [|discriminate].
  destruct (fle (fadd le base) (fadd (accepted_last_end_s d) (DEDUP_EPS_S k)))
    eqn:Hdup; [intros [= <-]; now left|].
  destruct (float_of_int scale_100ns) as [sc|]; cbn [bind]; [|discriminate].
  destruct (int_of_float (fmul (fadd ls base) sc)) as [o|]; cbn [bind];
    [|discriminate].
  destruct (int_of_float (fmul (fsub (fadd le base) (fadd ls base)) sc))
    as [du|]; cbn [bind]; [|discriminate].
  intros [= <-]. right.
  eexists r, le, _. cbn.
  repeat split; try reflexivity; assumption.
Qed.

Lemma accept_cases k base evt d :
  accept k base evt d = d \/
  exists r local_end seg,
    result evt = Some r /\
    is_RecognizedSpeech (r_reason r) = true /\
    int_truediv (int_or_0 (r_offset r) + int_or_0 (r_duration r)) scale_100ns
      = Ok local_end /\
    fle (fadd local_end base)
        (fadd (accepted_last_end_s d) (DEDUP_EPS_S k)) = false /\
    text seg = strip (or_empty (r_text r)) /\
    truthy (text seg) = true /\
    speaker_id seg = r_speaker_id r /\
    transcription_results (accept k base evt d)
      = transcription_results d ++ [seg] /\
    accepted_last_end_s (accept k base evt d)
      = fmax (accepted_last_end_s d) (fadd local_end base).
Proof.
  unfold accept.
  destruct (transcribed_body k base evt d) as [d'|] eqn:Hbody; [|now left].
  exact (transcribed_body_cases _ _ _ _ _ Hbody).
Qed.

(** ** The arithmetic of the handler does not overflow *)

(** Ticks of 100ns as the recogniser reports them fit 64 bits. *)
Lemma int_truediv_ticks (a : Z) :
  0 <= a < 2 ^ 65 ->
  exists x, int_truediv a scale_100ns = Ok x /\ below 66 x.
Proof.
  intros Ha. unfold int_truediv.
  change (scale_100ns =? 0) with false. change (0 <? scale_100ns) with true.
  cbn match. destruct a as [|p|p]; try lia.
  - now exists (S754_zero false).
  - cbn [round_frac scale_100ns].
    assert (Hx : below 65 (S754_finite false p 0)).
    { cbn [below]. split; [|lia].
      pose proof (Zdigits2_le (Zpos p) 65 ltac:(lia) Ha). cbn in *. lia. }
    pose proof (SFdiv_below 65 _ false 10000000 0 Hx ltac:(lia)) as Hq.
    rewrite (below_finite _ _ Hq). eexists. split; [reflexivity|exact Hq].
Qed.

Lemma scale_100ns_below : below 24 (round_int scale_100ns).
Proof. cbn. lia. Qed.

(** C1: a final event with recognised, non-blank text, whose offset and
    duration fit the 64 bits the recogniser reports them in, is placed on
    the global time line by adding the base offset of its sub-session (a
    finite float) to its local start and end.  The handler ends without an
    exception; it leaves the variables as they are when the global end is
    at most the watermark plus epsilon, and otherwise it appends a segment
    with the global start and the duration (in 100ns units) and the
    watermark becomes the maximum of itself and the global end. *)
Theorem transcribed_cb_final_event :
  forall (k : Knobs) (base now : float) (evt : RecognitionEvent)
         (r : RecognitionResult) (d : Dedup) (s : Session),
    result evt = Some r ->
    is_RecognizedSpeech (r_reason r) = true ->
    truthy (strip (or_empty (r_text r))) = true ->
    0 <= int_or_0 (r_offset r) < 2 ^ 64 ->
    0 <= int_or_0 (r_duration r) < 2 ^ 64 ->
    below 128 base ->
    exists local_start local_end : float,
      int_truediv (int_or_0 (r_offset r)) scale_100ns = Ok local_start /\
      int_truediv (int_or_0 (r_offset r) + int_or_0 (r_duration r)) scale_100ns
        = Ok local_end /\
      snd (transcribed_cb k base now evt (d, s)) = None /\
      snd (fst (transcribed_cb k base now evt (d, s))) = set_last_activity now s /\
      if fle (fadd local_end base)
             (fadd (accepted_last_end_s d) (DEDUP_EPS_S k))
      then fst (fst (transcribed_cb k base now evt (d, s))) = d
      else
        exists start_100ns duration_100ns : Z,
          int_of_float (fmul (fadd local_start base) (round_int scale_100ns))
            = Ok start_100ns /\
          int_of_float (fmul (fsub (fadd local_end base) (fadd local_start base))
                          (round_int scale_100ns))
            = Ok duration_100ns /\
          fst (fst (transcribed_cb k base now evt (d, s))) =
            {| transcription_results :=
                 transcription_results d ++
                 [ {| speaker_id := r_speaker_id r;
                      text := strip (or_empty (r_text r));
                      offset := start_100ns;
                      duration := duration_100ns |} ];
               accepted_last_end_s :=
                 fmax (accepted_last_end_s d) (fadd local_end base) |}.
Proof.
  intros k base now evt r d s Hres Hreason Htext Hoff Hdur Hbase.
  destruct (int_truediv_ticks (int_or_0 (r_offset r)) ltac:(lia))
    as (ls & Hls & Hlsb).
  destruct (int_truediv_ticks (int_or_0 (r_offset r) + int_or_0 (r_duration r))
              ltac:(lia)) as (le & Hle & Hleb).
  exists ls, le. split; [assumption|]. split; [assumption|].
  pose proof (fadd_below _ _ _ _ Hlsb Hbase ltac:(lia)) as Hgs.
  pose proof (fadd_below _ _ _ _ Hleb Hbase ltac:(lia)) as Hge.
  pose proof (fsub_below _ _ _ _ Hge Hgs ltac:(lia)) as Hspan.
  destruct (int_of_float_finite _
              (below_finite _ _
                 (fmul_below _ _ _ _ Hgs scale_100ns_below ltac:(lia))))
    as (o & Ho).
  destruct (int_of_float_finite _
              (below_finite _ _
                 (fmul_below _ _ _ _ Hspan scale_100ns_below ltac:(lia))))
    as (du & Hdu).
  unfold transcribed_cb, transcribed_body. cbn [fst snd].
  rewrite Hres, Hreason, Htext. cbn [negb].
  rewrite Hls. cbn [bind]. rewrite Hle. cbn [bind].
  destruct (fle (fadd le base) (fadd (accepted_last_end_s d) (DEDUP_EPS_S k))).
  - repeat split.
  - change (float_of_int scale_100ns) with (Ok (round_int scale_100ns)).
    cbn [bind]. rewrite Ho. cbn [bind]. rewrite Hdu. cbn [bind fst snd].
    repeat split. now exists o, du.
Qed.

Lemma transcribed_cb_final_event_witness :
  fst (fst (transcribed_cb default_knobs (round_int 9) (round_int 1001)
              {| result := Some (demo_result 5000000 25000000) |}
              (demo_dedup, demo_session)))
  = {| transcription_results :=
         [ {| speaker_id := Some (lit "Guest-1"); text := lit "one";
              offset := 95000000; duration := 25000000 |} ];
       accepted_last_end_s := round_int 12 |}.
Proof.
  destruct (transcribed_cb_final_event default_knobs (round_int 9)
              (round_int 1001)
              {| result := Some (demo_result 5000000 25000000) |}
              (demo_result 5000000 25000000) demo_dedup demo_session
              eq_refl eq_refl eq_refl ltac:(cbn; lia) ltac:(cbn; lia)
              ltac:(cbn; lia))
    as (ls & le & Hls & Hle & _ & _ & Hcase).
  injection Hls as <-. injection Hle as <-.
  destruct Hcase as (o & du & Ho & Hdu & Hafter).
  injection Ho as <-. injection Hdu as <-. exact Hafter.
Defined.

(** ** Invariants of the deduplicator variables

    A property of the variables that every call of [transcribed_cb] keeps
    holds throughout a job: no other code writes them. *)

Section DedupInvariant.

Variable k : Knobs.
Variable P : Dedup -> Prop.
Hypothesis P_accept : forall base evt d, P d -> P (accept k base evt d).

Lemma deliver_keeps base c cb : P (fst c) -> P (fst (deliver k base c cb)).
Proof.
  intros H. destruct cb; cbn [deliver fst]; try assumption.
  rewrite transcribed_cb_accept. now apply P_accept.
Qed.

Lemma deliver_all_keeps base cbs :
  forall c, P (fst c) -> P (fst (deliver_all k base cbs c)).
Proof.
  unfold deliver_all.
  induction cbs as [|cb cbs IH]; intros c H; cbn [fold_left]; [assumption|].
  apply IH. now apply deliver_keeps.
Qed.

Lemma wait_loop_keeps base rounds :
  forall c c', wait_loop k base rounds c = Some c' -> P (fst c) -> P (fst c').
Proof.
  induction rounds as [|r rounds IH]; intros c c'; cbn [wait_loop];
    destruct (done (snd c)); try discriminate;
    try (intros [= <-]; trivial; fail).
  intros Hloop H. apply (IH _ _ Hloop).
  apply deliver_all_keeps.
  destruct (flt _ _); cbn [fst]; now apply deliver_all_keeps.
Qed.

Lemma run_session_keeps w chunk env j base c feeder :
  run_session k w chunk env j base = Some (c, feeder) ->
  P (dedup j) -> P (fst c).
Proof.
  unfold run_session.
  destruct (wait_loop _ _ _ _) as [c0|] eqn:Hloop; [|discriminate].
  intros [= <- _] H. apply deliver_all_keeps.
  apply (wait_loop_keeps _ _ _ _ Hloop).
  now apply deliver_all_keeps.
Qed.

Lemma restart_dedup rate s j j' :
  restart k rate s j = Ok j' -> dedup j' = dedup j.
Proof.
  unfold restart. destruct (_ <? _); [discriminate|].
  destruct (int_float_mul _ _); cbn [bind]; [|discriminate].
  now intros [= <-].
Qed.

Lemma settle_dedup tf rate j c feeder j' :
  settle k tf rate j c feeder = Ok j' -> dedup j' = fst c.
Proof.
  unfold settle. destruct (restart_needed _).
  - intros H. now rewrite (restart_dedup _ _ _ _ H).
  - now intros [= <-].
Qed.

Lemma sub_session_keeps w tf rate chunk env j j' :
  sub_session k w tf rate chunk env j = Some (Ok j') ->
  P (dedup j) -> P (dedup j').
Proof.
  unfold sub_session.
  destruct (int_div_float_of _ _) as [base|]; [|discriminate].
  destruct (sdk_fault env); [discriminate|].
  destruct (run_session _ _ _ _ _ _) as [[c feeder]|] eqn:Hrun; [|discriminate].
  intros [= Hsettle] H. rewrite (settle_dedup _ _ _ _ _ _ Hsettle).
  exact (run_session_keeps _ _ _ _ _ _ _ Hrun H).
Qed.

Lemma supervise_keeps w tf rate chunk envs :
  forall j j', supervise k w tf rate chunk envs j = Some (Ok j') ->
               P (dedup j) -> P (dedup j').
Proof.
  induction envs as [|env envs IH]; intros j j'; cbn [supervise];
    destruct (cursor_frame j <? tf); try discriminate;
    try (intros [= <-]; trivial; fail).
  destruct (sub_session _ _ _ _ _ _ _) as [[j1|e]|] eqn:Hsub; try discriminate.
  intros Hrest H. apply (IH _ _ Hrest).
  exact (sub_session_keeps _ _ _ _ _ _ _ Hsub H).
Qed.

End DedupInvariant.

(** ** Stripping *)

Lemma lstrip_idem s : lstrip (lstrip s) = lstrip s.
Proof.
  induction s as [|c t IH]; cbn [lstrip]; [reflexivity|].
  destruct (isspace c) eqn:Hc; [assumption|].
  cbn [lstrip]. now rewrite Hc.
Qed.

(** Removing white space at the end of [s ++ [c]], [c] not white space. *)
Lemma lstrip_app_keep s t c :
  isspace c = false -> lstrip (s ++ c :: t) = lstrip s ++ c :: t.
Proof.
  intros Hc. induction s as [|a s IH]; cbn [lstrip app].
  - now rewrite Hc.
  - destruct (isspace a); [assumption|reflexivity].
Qed.

Lemma lstrip_rstrip_fixed s : lstrip s = s -> lstrip (rstrip s) = rstrip s.
Proof.
  unfold rstrip. destruct s as [|c t]; [reflexivity|].
  cbn [lstrip]. destruct (isspace c) eqn:Hc.
  - intros H. exfalso.
    assert (Hlen : (List.length (lstrip t) <= List.length t)%nat).
    { clear. induction t as [|a t IH]; cbn [lstrip]; [lia|].
      destruct (isspace a); cbn [List.length]; lia. }
    rewrite H in Hlen. cbn [List.length] in Hlen. lia.
  - intros _. cbn [rev]. rewrite lstrip_app_keep by assumption.
    rewrite rev_app_distr. cbn [rev app lstrip]. now rewrite Hc.
Qed.

Lemma rstrip_idem s : rstrip (rstrip s) = rstrip s.
Proof. unfold rstrip. now rewrite rev_involutive, lstrip_idem. Qed.

Lemma strip_idem s : strip (strip s) = strip s.
Proof.
  unfold strip.
  rewrite (lstrip_rstrip_fixed (lstrip s)) by apply lstrip_idem.
  apply rstrip_idem.
Qed.

Lemma accept_stripped_nonempty k base evt d :
  Forall stripped_nonempty (transcription_results d) ->
  Forall stripped_nonempty (transcription_results (accept k base evt d)).
Proof.
  intros H.
  destruct (accept_cases k base evt d) as [-> | (r & le & seg & _ & _ & _ & _ &
    Htext & Hne & _ & -> & _)]; [assumption|].
  apply Forall_app. split; [assumption|].
  constructor; [|constructor]. split; [assumption|].
  rewrite Htext. apply strip_idem.
Qed.

(** C9: an event that carries no result, whose reason is not
    RecognizedSpeech or whose text is empty once stripped leaves the segment
    list and the watermark as they are (only the activity stamp moves), and
    ends without an exception; hence every segment the handler appends, and
    every segment of a returned transcript, has a stripped, non-empty text. *)
Theorem transcribed_cb_ignores_non_speech :
  (forall (k : Knobs) (base now : float) (evt : RecognitionEvent)
          (d : Dedup) (s : Session),
      match result evt with
      | None => true
      | Some r => negb (is_RecognizedSpeech (r_reason r))
                  || negb (truthy (strip (or_empty (r_text r))))
      end = true ->
      transcribed_cb k base now evt (d, s)
      = ((d, set_last_activity now s), None)) /\
  (forall (k : Knobs) (base now : float) (evt : RecognitionEvent)
          (d : Dedup) (s : Session),
      Forall stripped_nonempty (transcription_results d) ->
      Forall stripped_nonempty
        (transcription_results (fst (fst (transcribed_cb k base now evt (d, s)))))) /\
  (forall (k : Knobs) (env : JobEnv) (file_path language : str)
          (segments : list TranscriptSegment),
      transcribe_with_diarization_local k env file_path language
        = Some (Ok segments) ->
      Forall stripped_nonempty segments).
Proof.
  split; [|split].
  - intros k base now evt d s H.
    unfold transcribed_cb, transcribed_body. cbn [fst snd].
    destruct (result evt) as [r|]; [|reflexivity].
    destruct (is_RecognizedSpeech (r_reason r)); cbn [negb orb] in *;
      [|reflexivity].
    rewrite H. reflexivity.
  - intros k base now evt d s H. rewrite transcribed_cb_accept.
    now apply accept_stripped_nonempty.
  - intros k env file_path language segments.
    unfold transcribe_with_diarization_local, run_job.
    destruct (bind _ _) as [[[[wf tf] rate] chunk]|]; [|discriminate].
    destruct (supervise _ _ _ _ _ _ _) as [[j|]|] eqn:Hrun; try discriminate.
    intros [= <-].
    apply (supervise_keeps k
             (fun d => Forall stripped_nonempty (transcription_results d))
             (accept_stripped_nonempty k) _ _ _ _ _ _ _ Hrun).
    constructor.
Qed.

(** ** The states of a job *)

Lemma reaches_trans k w tf rate chunk j1 j2 j3 :
  reaches k w tf rate chunk j1 j2 -> reaches k w tf rate chunk j2 j3 ->
  reaches k w tf rate chunk j1 j3.
Proof.
  intros H12 H23. induction H23 as [|j3 j4 _ IH Hstep]; [assumption|].
  exact (reaches_step _ _ _ _ _ _ _ _ IH Hstep).
Qed.

(** The loop only passes through states that can be reached. *)
Lemma supervise_reaches k w tf rate chunk envs :
  forall j j', supervise k w tf rate chunk envs j = Some (Ok j') ->
               reaches k w tf rate chunk j j'.
Proof.
  induction envs as [|env envs IH]; intros j j'; cbn [supervise];
    destruct (cursor_frame j <? tf) eqn:Hlt; try discriminate;
    try (intros [= <-]; constructor; fail).
  destruct (sub_session _ _ _ _ _ _ _) as [[j1|e]|] eqn:Hsub; try discriminate.
  intros Hrest. apply (reaches_trans _ _ _ _ _ _ j1); [|now apply IH].
  apply (reaches_step _ _ _ _ _ _ j _ (reaches_refl _ _ _ _ _ _)).
  split; [now apply Z.ltb_lt|]. now exists env.
Qed.

(** ** The watermark *)

Lemma accept_watermark k w0 base evt d :
  watermark_from w0 d -> watermark_from w0 (accept k base evt d).
Proof.
  unfold watermark_from. intros H.
  destruct (accept_cases k base evt d) as [-> | (r & le & seg & _ & _ & _ & _ &
    _ & _ & _ & _ & ->)]; [assumption|].
  apply (fle_trans _ _ _ H). apply fmax_ge_l.
  now destruct (fle_not_nan _ _ H).
Qed.

Lemma initial_watermark_not_nan :
  is_nan (accepted_last_end_s (dedup initial_job)) = false.
Proof. reflexivity. Qed.

Lemma reaches_watermark k w tf rate chunk j j' :
  reaches k w tf rate chunk j j' ->
  is_nan (accepted_last_end_s (dedup j)) = false ->
  fle (accepted_last_end_s (dedup j)) (accepted_last_end_s (dedup j')) = true.
Proof.
  intros Hreach Hnan.
  induction Hreach as [|j1 j2 _ IH [_ [env Hsub]]]; [now apply fle_refl|].
  exact (sub_session_keeps k (watermark_from (accepted_last_end_s (dedup j)))
           (fun base evt d => accept_watermark k _ base evt d)
           _ _ _ _ _ _ _ Hsub IH).
Qed.

(** C3: the watermark never decreases during a job: not when a callback
    (a final event or any other) is handled, not over a sub-session,
    whether it ends in a restart or not, and so not between any two states
    the job passes through, from its first, where the watermark is -1. *)
Theorem watermark_never_decreases :
  (forall (k : Knobs) (base : float) (c : Dedup * Session) (cb : Callback),
      is_nan (accepted_last_end_s (fst c)) = false ->
      fle (accepted_last_end_s (fst c))
          (accepted_last_end_s (fst (deliver k base c cb))) = true) /\
  (forall (k : Knobs) (w : Wav) (total_frames rate chunk_frames : Z)
          (env : SessionEnv) (j j' : Job),
      is_nan (accepted_last_end_s (dedup j)) = false ->
      sub_session k w total_frames rate chunk_frames env j = Some (Ok j') ->
      fle (accepted_last_end_s (dedup j))
          (accepted_last_end_s (dedup j')) = true) /\
  (forall (k : Knobs) (w : Wav) (total_frames rate chunk_frames : Z)
          (j j' : Job),
      reaches k w total_frames rate chunk_frames initial_job j ->
      reaches k w total_frames rate chunk_frames j j' ->
      fle (accepted_last_end_s (dedup j))
          (accepted_last_end_s (dedup j')) = true).
Proof.
  split; [|split].
  - intros k base c cb Hnan.
    apply (deliver_keeps k (watermark_from (accepted_last_end_s (fst c)))
             (fun base evt d => accept_watermark k _ base evt d)).
    now apply fle_refl.
  - intros k w tf rate chunk env j j' Hnan Hsub.
    apply (sub_session_keeps k (watermark_from (accepted_last_end_s (dedup j)))
             (fun base evt d => accept_watermark k _ base evt d)
             _ _ _ _ _ _ _ Hsub).
    now apply fle_refl.
  - intros k w tf rate chunk j j' H0 Hreach.
    apply (reaches_watermark _ _ _ _ _ _ _ Hreach).
    pose proof (reaches_watermark _ _ _ _ _ _ _ H0 initial_watermark_not_nan) as H.
    now destruct (fle_not_nan _ _ H).
Qed.

(** ** Order of the accepted segments *)

Lemma deliver_all_process k base cbs :
  forall c, fst (deliver_all k base cbs c) = process k (finals_of base cbs) (fst c).
Proof.
  unfold deliver_all, process.
  induction cbs as [|cb cbs IH]; intros c; cbn [fold_left finals_of];
    [reflexivity|].
  rewrite IH. destruct cb; cbn [deliver fst snd fold_left]; try reflexivity.
  now rewrite transcribed_cb_accept.
Qed.

Lemma process_app k pre post d :
  process k (pre ++ post) d = process k post (process k pre d).
Proof. unfold process. apply fold_left_app. Qed.

Lemma process_watermark k w0 finals :
  forall d, watermark_from w0 d -> watermark_from w0 (process k finals d).
Proof.
  unfold process.
  induction finals as [|f finals IH]; intros d H; cbn [fold_left]; [assumption|].
  apply IH. now apply accept_watermark.
Qed.

(** An event whose global end is NaN is not accepted: its duration cannot
    be converted. *)
Lemma accept_end_not_nan k base evt d seg :
  transcription_results (accept k base evt d)
    = transcription_results d ++ [seg] ->
  exists ge, seg_end_s_of base evt = Some ge /\ is_nan ge = false /\
             fle ge (fadd (accepted_last_end_s d) (DEDUP_EPS_S k)) = false /\
             accepted_last_end_s (accept k base evt d)
             = fmax (accepted_last_end_s d) ge.
Proof.
  unfold accept, transcribed_body, seg_end_s_of.
  assert (Hsame : transcription_results d = transcription_results d ++ [seg]
                  -> False).
  { intros H. apply (f_equal (@List.length _)) in H.
    rewrite length_app in H. cbn in H. lia. }
  destruct (result evt) as [r|]; [|intros H; now apply Hsame in H].
  destruct (is_RecognizedSpeech (r_reason r)); cbn [negb];
    [|intros H; now apply Hsame in H].
  destruct (truthy (strip (or_empty (r_text r)))); cbn [negb];
    [|intros H; now apply Hsame in H].
  destruct (int_truediv (int_or_0 (r_offset r)) scale_100ns) as [ls|];
    cbn [bind]; [|intros H; now apply Hsame in H].
  destruct (int_truediv (int_or_0 (r_offset r) + int_or_0 (r_duration r))
              scale_100ns) as [le|]; cbn [bind];
    [|intros H; now apply Hsame in H].
  destruct (fle (fadd le base) (fadd (accepted_last_end_s d) (DEDUP_EPS_S k)))
    eqn:Hdup; [intros H; now apply Hsame in H|].
  destruct (float_of_int scale_100ns) as [sc|]; cbn [bind];
    [|intros H; now apply Hsame in H].
  destruct (int_of_float (fmul (fadd ls base) sc)) as [o|]; cbn [bind];
    [|intros H; now apply Hsame in H].
  destruct (int_of_float (fmul (fsub (fadd le base) (fadd ls base)) sc))
    as [du|] eqn:Hdu; cbn [bind]; [|intros H; now apply Hsame in H].
  intros _. exists (fadd le base). repeat split; try assumption.
  destruct (fadd le base); try reflexivity. discriminate Hdu.
Qed.

(** C2, as the specification states it, fails.  A sub-session accepts the
    segments 8.0-9.0s and 9.5-10.0s, is cancelled after 10.5s of audio and
    restarted 1.5s earlier, at 9.0s; the next one reports one utterance
    from its start, 9.0-12.0s.  It ends after the watermark and is
    accepted: it starts before the segment accepted just before it and
    overlaps it by 0.5s, far more than epsilon (0.08s, 800000 units of
    100ns). *)
Lemma restart_overlap_breaks_start_order :
  exists s1 s2 s3 : TranscriptSegment,
    transcribe_with_diarization_local default_knobs demo_env
      (lit "a.wav") (lit "ro-RO") = Some (Ok [s1; s2; s3]) /\
    offset s2 = 95000000 /\ duration s2 = 5000000 /\
    offset s3 = 90000000 /\ duration s3 = 30000000 /\
    offset s3 < offset s2 /\
    Z.min (offset s2 + duration s2) (offset s3 + duration s3)
      - Z.max (offset s2) (offset s3) > 800000.
Proof.
  do 3 eexists. split; [vm_compute; reflexivity|].
  cbn. repeat split; lia.
Qed.

(** C2, amended: the acceptance rule orders the global ends, not the
    starts.  Whenever a final event is accepted (a segment is appended for
    it), its global end is a number, it is not at most the watermark plus
    epsilon, the watermark becomes the maximum of the two, and the global
    end of every event accepted earlier in the job is at most the
    watermark the event is compared with. *)
Theorem accepted_ends_exceed_watermark :
  forall (k : Knobs) (pre : list (float * RecognitionEvent)) (base : float)
         (evt : RecognitionEvent) (seg : TranscriptSegment),
    transcription_results
      (accept k base evt (process k pre (dedup initial_job)))
    = transcription_results (process k pre (dedup initial_job)) ++ [seg] ->
    exists global_end : float,
      seg_end_s_of base evt = Some global_end /\
      is_nan global_end = false /\
      fle global_end
          (fadd (accepted_last_end_s (process k pre (dedup initial_job)))
                (DEDUP_EPS_S k)) = false /\
      accepted_last_end_s (accept k base evt (process k pre (dedup initial_job)))
      = fmax (accepted_last_end_s (process k pre (dedup initial_job))) global_end /\
      forall (pre1 pre2 : list (float * RecognitionEvent)) (base1 : float)
             (evt1 : RecognitionEvent) (seg1 : TranscriptSegment),
        pre = pre1 ++ (base1, evt1) :: pre2 ->
        transcription_results
          (accept k base1 evt1 (process k pre1 (dedup initial_job)))
        = transcription_results (process k pre1 (dedup initial_job)) ++ [seg1] ->
        exists earlier_end : float,
          seg_end_s_of base1 evt1 = Some earlier_end /\
          fle earlier_end
              (accepted_last_end_s (process k pre (dedup initial_job))) = true.
Proof.
  intros k pre base evt seg Hacc.
  destruct (accept_end_not_nan _ _ _ _ _ Hacc) as (ge & Hge & Hnan & Hgt & Hw).
  exists ge. repeat split; try assumption.
  intros pre1 pre2 base1 evt1 seg1 -> Hacc1.
  destruct (accept_end_not_nan _ _ _ _ _ Hacc1) as (ge1 & Hge1 & Hnan1 & _ & Hw1).
  exists ge1. split; [assumption|].
  rewrite process_app. cbn [process fold_left fst snd].
  change (fold_left _ pre2 ?d) with (process k pre2 d).
  apply process_watermark. unfold watermark_from. rewrite Hw1.
  apply fmax_ge_r; [|assumption].
  assert (H0 : watermark_from (accepted_last_end_s (dedup initial_job))
                 (process k pre1 (dedup initial_job)))
    by (apply process_watermark; reflexivity).
  now destruct (fle_not_nan _ _ H0).
Qed.

Lemma accepted_ends_exceed_watermark_witness :
  exists global_end : float,
    seg_end_s_of (round_int 9) (speech 0 30000000 "two and three")
      = Some global_end /\
    fle global_end (fadd (round_int 10) (dec 8 100)) = false.
Proof.
  destruct (accepted_ends_exceed_watermark default_knobs
              [(round_int 0, speech 80000000 10000000 "one");
               (round_int 0, speech 95000000 5000000 "two")]
              (round_int 9) (speech 0 30000000 "two and three")
              {| speaker_id := Some (lit "Guest-1");
                 text := lit "two and three";
                 offset := 90000000; duration := 30000000 |}
              eq_refl)
    as (ge & Hge & _ & Hgt & _).
  exists ge. split; [exact Hge | exact Hgt].
Defined.

(** ** Cancellations *)

(** C5, as the specification states it, fails: a reason that contains
    "buffer exceeded" (in any case) without the word "client" before it is
    not classified as a buffer overflow; the reason is kept as it is and no
    restart is asked for. *)
Lemma canceled_cb_buffer_exceeded_unclassified :
  contains (lit "buffer exceeded") (lower (lit "Server buffer exceeded")) = true /\
  restart_needed (canceled_cb (canceled_with "Server buffer exceeded") demo_session)
    = false /\
  restart_reason (canceled_cb (canceled_with "Server buffer exceeded") demo_session)
    = Some (lit "Server buffer exceeded").
Proof. repeat split. Qed.

(** C5, amended: the reason text of a cancellation is lowered and searched,
    in this order, for "client buffer exceeded" (restart asked for, reason
    client_buffer_exceeded), then for "websocket", "connection" or
    "timeout" (restart asked for, reason connection_or_timeout); otherwise
    the restart flag is left as it was and the reason is the text as
    received, or "canceled" when the event has no text or an empty one.
    The sub-session is marked done in every case. *)
Theorem canceled_cb_classifies :
  forall (evt : CanceledEvent) (s : Session),
    done (canceled_cb evt s) = true /\
    last_activity (canceled_cb evt s) = last_activity s /\
    if contains (lit "client buffer exceeded")
         (lower (or_empty (error_details_of evt)))
    then restart_needed (canceled_cb evt s) = true /\
         restart_reason (canceled_cb evt s) = Some (lit "client_buffer_exceeded")
    else if contains (lit "websocket") (lower (or_empty (error_details_of evt)))
            || contains (lit "connection") (lower (or_empty (error_details_of evt)))
            || contains (lit "timeout") (lower (or_empty (error_details_of evt)))
    then restart_needed (canceled_cb evt s) = true /\
         restart_reason (canceled_cb evt s) = Some (lit "connection_or_timeout")
    else restart_needed (canceled_cb evt s) = restart_needed s /\
         restart_reason (canceled_cb evt s)
         = Some (match error_details_of evt with
                 | Some (c :: text) => c :: text
                 | _ => lit "canceled"
                 end).
Proof.
  intros evt s. unfold canceled_cb, _safe_lower.
  destruct (contains (lit "client buffer exceeded") _);
    [repeat split|].
  destruct (contains (lit "websocket") _ || contains (lit "connection") _
            || contains (lit "timeout") _);
    [repeat split|].
  destruct (error_details_of evt) as [[|c text]|]; repeat split.
Qed.

(** The search is blind to the case of Latin letters. *)
Lemma canceled_cb_upper_case :
  restart_reason (canceled_cb (canceled_with "CLIENT BUFFER EXCEEDED maximum")
                    demo_session)
    = Some (lit "client_buffer_exceeded") /\
  restart_reason (canceled_cb (canceled_with "WebSocket closed") demo_session)
    = Some (lit "connection_or_timeout").
Proof. split; reflexivity. Qed.

(** ** The feeder *)

Lemma feed_loop_error w bpf ticks :
  forall pos f, error (fst (feed_loop w bpf ticks pos f)) = error f.
Proof.
  induction ticks as [|t ticks IH]; intros pos f; cbn [feed_loop]; [reflexivity|].
  destruct (stop_is_set t); [reflexivity|].
  destruct (read_fault t); [reflexivity|].
  destruct (_ =? 0); [reflexivity|].
  destruct (write_fault t); [reflexivity|].
  now rewrite IH.
Qed.

(** The flag is raised where the loop is left by [break], and nowhere
    else. *)
Lemma feed_loop_finished w bpf ticks :
  forall pos f,
    finished f = false ->
    (finished (fst (feed_loop w bpf ticks pos f)) = true <->
     snd (feed_loop w bpf ticks pos f) = Ok EndOfStream).
Proof.
  induction ticks as [|t ticks IH]; intros pos f Hf; cbn [feed_loop].
  - cbn. rewrite Hf. split; discriminate.
  - destruct (stop_is_set t); [cbn; rewrite Hf; split; discriminate|].
    destruct (read_fault t); [cbn; rewrite Hf; split; discriminate|].
    destruct (_ =? 0); [cbn; split; reflexivity|].
    destruct (write_fault t); [cbn; rewrite Hf; split; discriminate|].
    now apply IH.
Qed.

Lemma readframes_len_chunk w pos n :
  1 <= nchannels w * sampwidth w -> 1 <= n ->
  readframes_len w pos n
  = Z.min (n * (nchannels w * sampwidth w)) (Z.max 0 (readable w - pos)).
Proof.
  intros Hsize Hn. unfold readframes_len.
  destruct (Z.eqb_spec n 0); [lia|]. destruct (Z.ltb_spec n 0); [lia|].
  reflexivity.
Qed.

Lemma readable_frames w :
  1 <= nchannels w * sampwidth w ->
  readable w / (nchannels w * sampwidth w) <= nframes w.
Proof.
  intros Hsize. unfold nframes, readable.
  apply Z.div_le_mono; lia.
Qed.

(** With whole frames of at least one byte and chunks of at least one
    frame, the loop sends each whole frame it reads, never more than the
    file holds, and reads no data only when the file holds no more. *)
Lemma feed_loop_frames w ticks (start : Z) :
  1 <= nchannels w * sampwidth w ->
  forall pos f,
    1 <= chunk_frames f ->
    pos = (start + frames_sent f) * (nchannels w * sampwidth w) \/
    (readable w <= pos /\
     start + frames_sent f = readable w / (nchannels w * sampwidth w)) ->
    let f' := fst (feed_loop w (Z.max (sampwidth w * nchannels w) 1) ticks pos f) in
    frames_sent f <= frames_sent f' /\
    start + frames_sent f'
    <= Z.max (start + frames_sent f)
             (readable w / (nchannels w * sampwidth w)) /\
    (snd (feed_loop w (Z.max (sampwidth w * nchannels w) 1) ticks pos f)
       = Ok EndOfStream ->
     start + frames_sent f'
     = Z.max (start + frames_sent f)
             (readable w / (nchannels w * sampwidth w))).
Proof.
  intros Hsize.
  replace (Z.max (sampwidth w * nchannels w) 1)
    with (nchannels w * sampwidth w) by lia.
  remember (nchannels w * sampwidth w) as fs eqn:Hfs.
  remember (readable w) as R eqn:HR.
  induction ticks as [|t ticks IH]; intros pos f Hchunk Hpos;
    cbn [feed_loop].
  - cbn. repeat split; try lia. discriminate.
  - destruct (stop_is_set t); [cbn; repeat split; try lia; discriminate|].
    destruct (read_fault t); [cbn; repeat split; try lia; discriminate|].
    rewrite readframes_len_chunk by lia. rewrite <- Hfs, <- HR.
    remember (Z.min (chunk_frames f * fs) (Z.max 0 (R - pos))) as L eqn:HL.
    assert (Hcf : fs <= chunk_frames f * fs) by nia.
    destruct (Z.eqb_spec L 0) as [H0|H0].
    + cbn [fst snd frames_sent set_finished].
      assert (Hle : R / fs <= start + frames_sent f).
      { destruct Hpos as [Hpos|[_ Hpos]]; [|lia].
        apply Z.div_le_upper_bound; [lia|]. nia. }
      repeat split; intros; lia.
    + assert (Hlt : pos < R) by lia.
      destruct Hpos as [Hpos|[Hpos _]]; [|lia].
      destruct (write_fault t); [cbn; repeat split; try lia; discriminate|].
      assert (Hnext : start + frames_sent f + L / fs <= R / fs /\
                      0 <= L / fs /\
                      (pos + L = (start + (frames_sent f + L / fs)) * fs \/
                       (R <= pos + L /\
                        start + (frames_sent f + L / fs) = R / fs))).
      { destruct (Z.le_gt_cases (chunk_frames f * fs) (R - pos)) as [Hfull|Hpart].
        - assert (HLf : L = chunk_frames f * fs) by lia.
          rewrite HLf, Z.div_mul by lia.
          split; [apply Z.div_le_lower_bound; nia|].
          split; [lia|]. left. nia.
        - assert (HLp : L = R - pos) by lia.
          assert (Hdiv : (R - pos) / fs = R / fs - (start + frames_sent f)).
          { rewrite Hpos.
            replace (R - (start + frames_sent f) * fs)
              with (R + (- (start + frames_sent f)) * fs) by lia.
            rewrite Z.div_add by lia. lia. }
          rewrite HLp, Hdiv.
          assert (0 <= (R - pos) / fs) by (apply Z.div_pos; lia).
          split; [lia|]. split; [lia|]. right. split; lia. }
      destruct Hnext as (Hn1 & Hn2 & Hn3).
      specialize (IH (pos + L) (add_frames_sent (L / fs) f)).
      cbn [chunk_frames frames_sent add_frames_sent] in IH.
      destruct (IH Hchunk Hn3) as (H1 & H2 & H3).
      repeat split; try lia. intros HE. specialize (H3 HE). lia.
Qed.

Lemma run_frames w env (start chunk : Z) :
  1 <= nchannels w * sampwidth w ->
  1 <= chunk ->
  0 <= start <= nframes w ->
  let f := fst (run w env (new_feeder start chunk)) in
  0 <= frames_sent f /\
  start + frames_sent f <= nframes w /\
  (finished f = true ->
   start + frames_sent f
   = Z.max start (readable w / (nchannels w * sampwidth w))).
Proof.
  intros Hsize Hchunk Hstart. unfold run, run_try.
  pose proof (readable_frames w Hsize) as Hheld.
  destruct (open_fault env) as [e|].
  { destruct (close_fault env); cbn; repeat split; try lia; discriminate. }
  unfold setpos. cbn [start_frame new_feeder].
  replace ((start <? 0) || (nframes w <? start)) with false
    by (symmetry; apply orb_false_intro; [apply Z.ltb_ge|apply Z.ltb_ge]; lia).
  pose proof (feed_loop_frames w (ticks env) start Hsize
                (start * (nchannels w * sampwidth w))
                (new_feeder start chunk) Hchunk) as H.
  pose proof (feed_loop_finished w (Z.max (sampwidth w * nchannels w) 1)
                (ticks env) (start * (nchannels w * sampwidth w))
                (new_feeder start chunk) eq_refl) as Hfin.
  cbn [frames_sent new_feeder] in H.
  destruct (feed_loop _ _ _ _ _) as [f r]. cbn [fst snd] in *.
  destruct H as (H1 & H2 & H3); [left; f_equal; lia|].
  replace (start + 0) with start in * by lia.
  assert (Hres : forall f0 : Feeder,
             f0 = match r with Raise exc => set_error exc f | Ok _ => f end ->
             0 <= frames_sent f0 /\ start + frames_sent f0 <= nframes w /\
             (finished f0 = true ->
              start + frames_sent f0
              = Z.max start (readable w / (nchannels w * sampwidth w)))).
  { intros f0 ->. destruct r as [exit|exc]; cbn [frames_sent finished set_error];
      repeat split; try lia; intros Hf; apply H3; now apply Hfin. }
  destruct (close_fault env); cbn [fst]; now apply Hres.
Qed.

(** On a file that holds every frame its header declares, a feeder that
    has finished has sent every frame from its start position on. *)
Lemma run_frames_complete w env (start chunk : Z) :
  1 <= nchannels w * sampwidth w ->
  1 <= chunk ->
  0 <= start <= nframes w ->
  holds_declared_frames w ->
  finished (fst (run w env (new_feeder start chunk))) = true ->
  start + frames_sent (fst (run w env (new_feeder start chunk))) = nframes w.
Proof.
  intros Hsize Hchunk Hstart Hall Hf.
  destruct (run_frames w env start chunk Hsize Hchunk Hstart) as (_ & _ & H).
  rewrite (H Hf).
  pose proof (readable_frames w Hsize) as Hle.
  assert (Hge : nframes w <= readable w / (nchannels w * sampwidth w)).
  { apply Z.div_le_lower_bound; [lia|].
    unfold holds_declared_frames in Hall. unfold readable.
    assert (nchannels w * sampwidth w * nframes w <= data_size w)
      by (unfold nframes; apply Z.mul_div_le; lia).
    lia. }
  lia.
Qed.

Lemma run_try_finished w env f :
  finished f = false ->
  (finished (fst (run_try w env f)) = true <->
   snd (run_try w env f) = Ok EndOfStream).
Proof.
  intros Hf. unfold run_try.
  destruct (open_fault env); [cbn; rewrite Hf; split; discriminate|].
  destruct (setpos w (start_frame f)); [|cbn; rewrite Hf; split; discriminate].
  now apply feed_loop_finished.
Qed.

Lemma run_try_error w env f : error (fst (run_try w env f)) = error f.
Proof.
  unfold run_try.
  destruct (open_fault env); [reflexivity|].
  destruct (setpos w (start_frame f)); [|reflexivity].
  apply feed_loop_error.
Qed.

(** What [run] adds to its [try] block. *)
Lemma run_after_try w env f :
  run w env f =
  (match snd (run_try w env f) with
   | Raise exc => set_error exc (fst (run_try w env f))
   | Ok _ => fst (run_try w env f)
   end, Ok tt).
Proof.
  unfold run. destruct (run_try w env f) as [f1 r]. cbn [fst snd].
  destruct (close_fault env); reflexivity.
Qed.

(** The loop during iterations that are left alone: it sends a chunk at
    each, or what is left of the file, and is left at the first read that
    finds nothing. *)
Lemma feed_loop_quiet w pre rest :
  1 <= nchannels w * sampwidth w ->
  Forall quiet pre ->
  forall pos f,
    1 <= chunk_frames f ->
    exists f',
      start_frame f' = start_frame f /\ chunk_frames f' = chunk_frames f /\
      error f' = error f /\
      frames_sent f'
      = frames_sent f +
        Z.min (Z.of_nat (List.length pre) * chunk_frames f)
              (Z.max 0 (readable w - pos) / (nchannels w * sampwidth w)) /\
      if Z.max 0 (readable w - pos)
         <=? (Z.of_nat (List.length pre) - 1) *
             (chunk_frames f * (nchannels w * sampwidth w))
      then feed_loop w (nchannels w * sampwidth w) (pre ++ rest) pos f
           = (f', Ok EndOfStream) /\ finished f' = true
      else feed_loop w (nchannels w * sampwidth w) (pre ++ rest) pos f
           = feed_loop w (nchannels w * sampwidth w) rest
               (pos + Z.min (Z.of_nat (List.length pre) *
                             (chunk_frames f * (nchannels w * sampwidth w)))
                            (Z.max 0 (readable w - pos))) f' /\
           finished f' = finished f.
Proof.
  intros Hsize Hq.
  remember (nchannels w * sampwidth w) as fs eqn:Hfs.
  remember (readable w) as R eqn:HR.
  induction Hq as [|t pre (Hstop & Hread & Hwrite) _ IH]; intros pos f Hchunk.
  - exists f. cbn [List.length app Z.of_nat].
    remember (Z.max 0 (R - pos)) as left eqn:Hleft.
    assert (0 <= left / fs) by (apply Z.div_pos; lia).
    assert (1 <= chunk_frames f * fs) by nia.
    repeat split; try lia.
    destruct (Z.leb_spec left ((0 - 1) * (chunk_frames f * fs))); [lia|].
    replace (pos + Z.min (0 * (chunk_frames f * fs)) left) with pos by lia.
    split; reflexivity.
  - cbn [List.length app feed_loop]. rewrite Nat2Z.inj_succ.
    rewrite Hstop, Hread, Hwrite.
    rewrite readframes_len_chunk by lia. rewrite <- Hfs, <- HR.
    remember (Z.max 0 (R - pos)) as left eqn:Hleft.
    remember (Z.of_nat (List.length pre)) as n eqn:Hn.
    remember (chunk_frames f) as chunk eqn:Hc.
    assert (Hn0 : 0 <= n) by lia.
    assert (HC : fs <= chunk * fs) by nia.
    assert (Hdiv0 : 0 <= left / fs) by (apply Z.div_pos; lia).
    destruct (Z.eqb_spec (Z.min (chunk * fs) left) 0) as [H0|H0].
    + assert (Hz : left = 0) by lia.
      exists (set_finished f).
      cbn [start_frame chunk_frames error frames_sent finished set_finished].
      rewrite Hz in *. cbn [Z.div] in *. rewrite Z.div_0_l in * by lia.
      replace (0 <=? (Z.succ n - 1) * (chunk * fs)) with true
        by (symmetry; apply Z.leb_le; nia).
      repeat split; try lia.
    + assert (Hpos : 0 < left) by lia.
      specialize (IH (pos + Z.min (chunk * fs) left)
                    (add_frames_sent (Z.min (chunk * fs) left / fs) f)).
      cbn [chunk_frames frames_sent add_frames_sent start_frame error finished]
        in IH.
      rewrite <- Hc in IH.
      destruct (IH Hchunk) as (f' & Hs & Hcf & He & Hfr & Hrun). clear IH.
      exists f'. split; [exact Hs|]. split; [exact Hcf|]. split; [exact He|].
      destruct (Z.le_gt_cases (chunk * fs) left) as [Hfull|Hpart].
      * replace (Z.min (chunk * fs) left) with (chunk * fs) in * by lia.
        rewrite Z.div_mul in * by lia.
        replace (Z.max 0 (R - (pos + chunk * fs))) with (left - chunk * fs)
          in * by lia.
        assert (Hd : (left - chunk * fs) / fs = left / fs - chunk).
        { replace (left - chunk * fs) with (left + (- chunk) * fs) by lia.
          rewrite Z.div_add by lia. lia. }
        rewrite Hd in Hfr.
        split; [lia|].
        destruct (Z.leb_spec (left - chunk * fs) ((n - 1) * (chunk * fs)))
          as [Ha|Ha];
          [replace (left <=? (Z.succ n - 1) * (chunk * fs)) with true
             by (symmetry; apply Z.leb_le; nia)
          |replace (left <=? (Z.succ n - 1) * (chunk * fs)) with false
             by (symmetry; apply Z.leb_gt; nia)].
        -- exact Hrun.
        -- destruct Hrun as [Hrun Hfin]. split; [|exact Hfin].
           rewrite Hrun. f_equal. nia.
      * replace (Z.min (chunk * fs) left) with left in * by lia.
        replace (Z.max 0 (R - (pos + left))) with 0 in * by lia.
        rewrite Z.div_0_l in Hfr by lia.
        assert (Hlt : left / fs < chunk)
          by (apply Z.div_lt_upper_bound; nia).
        split; [nia|].
        destruct (Z.leb_spec 0 ((n - 1) * (chunk * fs))) as [Ha|Ha].
        -- assert (Hn1 : 1 <= n) by nia.
           assert (HnC : chunk * fs <= n * (chunk * fs)) by nia.
           replace (left <=? (Z.succ n - 1) * (chunk * fs)) with true
             by (symmetry; apply Z.leb_le; lia).
           exact Hrun.
        -- assert (Hn1 : n = 0) by nia. subst n. rewrite Hn1 in *.
           replace (left <=? (Z.succ 0 - 1) * (chunk * fs)) with false
             by (symmetry; apply Z.leb_gt; lia).
           destruct Hrun as [Hrun Hfin]. split; [|exact Hfin].
           rewrite Hrun. f_equal. lia.
Qed.

(** The same for the [try] block of a feeder that is started inside the
    file. *)
Lemma run_try_quiet w env (start chunk : Z) pre rest :
  1 <= nchannels w * sampwidth w -> 1 <= chunk ->
  0 <= start <= nframes w ->
  open_fault env = None ->
  ticks env = pre ++ rest ->
  Forall quiet pre ->
  exists f',
    start_frame f' = start /\ chunk_frames f' = chunk /\ error f' = None /\
    frames_sent f'
    = Z.min (Z.of_nat (List.length pre) * chunk)
            (bytes_left w start / (nchannels w * sampwidth w)) /\
    if bytes_left w start
       <=? (Z.of_nat (List.length pre) - 1) *
           (chunk * (nchannels w * sampwidth w))
    then run_try w env (new_feeder start chunk) = (f', Ok EndOfStream) /\
         finished f' = true
    else run_try w env (new_feeder start chunk)
         = feed_loop w (nchannels w * sampwidth w) rest
             (start * (nchannels w * sampwidth w) +
              Z.min (Z.of_nat (List.length pre) *
                     (chunk * (nchannels w * sampwidth w)))
                    (bytes_left w start)) f' /\
         finished f' = false.
Proof.
  intros Hsize Hchunk Hstart Hopen Hticks Hq.
  unfold run_try. rewrite Hopen. unfold setpos. cbn [start_frame new_feeder].
  replace ((start <? 0) || (nframes w <? start)) with false
    by (symmetry; apply orb_false_intro; [apply Z.ltb_ge|apply Z.ltb_ge]; lia).
  replace (Z.max (sampwidth w * nchannels w) 1)
    with (nchannels w * sampwidth w) by lia.
  rewrite Hticks.
  destruct (feed_loop_quiet w pre rest Hsize Hq
              (start * (nchannels w * sampwidth w)) (new_feeder start chunk)
              Hchunk) as (f' & Hs & Hc & He & Hfr & Hrun).
  cbn [start_frame chunk_frames error frames_sent finished new_feeder]
    in Hs, Hc, He, Hfr, Hrun.
  exists f'. unfold bytes_left.
  repeat (split; [assumption || lia|]). exact Hrun.
Qed.

(** C8: when a feeder thread ends, its [finished] flag is set exactly if
    the loop was left at the end of the stream, after a read that returned
    no data, and so not if it was left because the stop signal was set; a
    finished feeder has sent every whole frame the file holds from its
    start position on.  [run] itself always ends normally.  An exception
    raised by [wave.open], by [setpos], or by the read or the write of an
    iteration the loop gets to is stored in [error]: the feeder stops
    there, without [finished], having sent the chunks of the iterations
    before.  A feeder that finds the stop signal set has no error and is
    not finished. *)
Theorem feeder_run_flags :
  forall (w : Wav) (env : FeederEnv) (start chunk : Z),
    snd (run w env (new_feeder start chunk)) = Ok tt /\
    (finished (fst (run w env (new_feeder start chunk))) = true <->
     snd (run_try w env (new_feeder start chunk)) = Ok EndOfStream) /\
    (snd (run_try w env (new_feeder start chunk)) = Ok StopRequested ->
     finished (fst (run w env (new_feeder start chunk))) = false) /\
    (forall exc : exn,
        snd (run_try w env (new_feeder start chunk)) = Raise exc ->
        error (fst (run w env (new_feeder start chunk))) = Some exc /\
        finished (fst (run w env (new_feeder start chunk))) = false /\
        frames_sent (fst (run w env (new_feeder start chunk)))
        = frames_sent (fst (run_try w env (new_feeder start chunk)))) /\
    (forall exit : LoopExit,
        snd (run_try w env (new_feeder start chunk)) = Ok exit ->
        error (fst (run w env (new_feeder start chunk))) = None) /\
    (1 <= nchannels w * sampwidth w -> 1 <= chunk -> 0 <= start <= nframes w ->
     finished (fst (run w env (new_feeder start chunk))) = true ->
     frames_sent (fst (run w env (new_feeder start chunk)))
     = bytes_left w start / (nchannels w * sampwidth w)) /\
    (forall exc : exn,
        open_fault env = Some exc ->
        error (fst (run w env (new_feeder start chunk))) = Some exc /\
        finished (fst (run w env (new_feeder start chunk))) = false /\
        frames_sent (fst (run w env (new_feeder start chunk))) = 0) /\
    (open_fault env = None -> start < 0 \/ nframes w < start ->
     error (fst (run w env (new_feeder start chunk)))
     = Some (Fault (lit "Error")) /\
     finished (fst (run w env (new_feeder start chunk))) = false /\
     frames_sent (fst (run w env (new_feeder start chunk))) = 0) /\
    (forall (pre : list FeedTick) (t : FeedTick) (post : list FeedTick),
        1 <= nchannels w * sampwidth w -> 1 <= chunk ->
        0 <= start <= nframes w ->
        open_fault env = None ->
        ticks env = pre ++ t :: post ->
        Forall quiet pre ->
        (Z.of_nat (List.length pre) - 1) * (chunk * (nchannels w * sampwidth w))
        < bytes_left w start ->
        (stop_is_set t = true ->
         error (fst (run w env (new_feeder start chunk))) = None /\
         finished (fst (run w env (new_feeder start chunk))) = false /\
         frames_sent (fst (run w env (new_feeder start chunk)))
         = Z.min (Z.of_nat (List.length pre) * chunk)
                 (bytes_left w start / (nchannels w * sampwidth w))) /\
        (forall exc : exn,
            stop_is_set t = false ->
            read_fault t = Some exc \/
            (read_fault t = None /\ write_fault t = Some exc /\
             Z.of_nat (List.length pre) * (chunk * (nchannels w * sampwidth w))
             < bytes_left w start) ->
            error (fst (run w env (new_feeder start chunk))) = Some exc /\
            finished (fst (run w env (new_feeder start chunk))) = false /\
            frames_sent (fst (run w env (new_feeder start chunk)))
            = Z.min (Z.of_nat (List.length pre) * chunk)
                    (bytes_left w start / (nchannels w * sampwidth w)))).
Proof.
  intros w env start chunk.
  pose proof (run_try_finished w env (new_feeder start chunk) eq_refl) as Hfin.
  pose proof (run_try_error w env (new_feeder start chunk)) as Herr.
  pose proof (run_frames w env start chunk) as Hframes.
  pose proof (run_try_quiet w env start chunk) as Hquiet.
  rewrite run_after_try in *. cbn [fst snd] in *.
  split; [reflexivity|].
  split; [destruct (run_try w env (new_feeder start chunk)) as [f r];
          cbn [fst snd] in *;
          destruct r; cbn [finished set_error]; [assumption|];
          split; [intros H; now apply Hfin in H|discriminate]|].
  split; [destruct (run_try w env (new_feeder start chunk)) as [f r];
          cbn [fst snd] in *;
          intros ->; destruct (finished f); [|reflexivity];
          discriminate (proj1 Hfin eq_refl)|].
  split; [destruct (run_try w env (new_feeder start chunk)) as [f r];
          cbn [fst snd] in *;
          intros exc ->; cbn [error finished frames_sent set_error];
          repeat split; destruct (finished f); try reflexivity;
          discriminate (proj1 Hfin eq_refl)|].
  split; [destruct (run_try w env (new_feeder start chunk)) as [f r];
          cbn [fst snd error new_feeder] in *;
          intros exit ->; assumption|].
  split.
  { intros Hsize Hchunk Hstart Hf.
    destruct (Hframes Hsize Hchunk Hstart) as (_ & _ & Hall).
    specialize (Hall Hf). unfold bytes_left.
    replace (readable w - start * (nchannels w * sampwidth w))
      with (readable w + (- start) * (nchannels w * sampwidth w)) by lia.
    destruct (Z.le_gt_cases (start * (nchannels w * sampwidth w)) (readable w))
      as [Hle|Hgt].
    - rewrite Z.max_r by lia. rewrite Z.div_add by lia.
      assert (start <= readable w / (nchannels w * sampwidth w))
        by (apply Z.div_le_lower_bound; lia).
      lia.
    - rewrite Z.max_l by lia. rewrite Z.div_0_l by lia.
      assert (readable w / (nchannels w * sampwidth w) < start)
        by (apply Z.div_lt_upper_bound; lia).
      lia. }
  split.
  { intros exc Hopen. unfold run_try. rewrite Hopen. cbn. repeat split. }
  split.
  { intros Hopen Hout. unfold run_try, setpos. rewrite Hopen.
    cbn [start_frame new_feeder].
    replace ((start <? 0) || (nframes w <? start)) with true
      by (symmetry; apply orb_true_iff; destruct Hout;
          [left; apply Z.ltb_lt|right; apply Z.ltb_lt]; lia).
    cbn. repeat split. }
  intros pre t post Hsize Hchunk Hstart Hopen Hticks Hq Hdata.
  destruct (Hquiet pre (t :: post) Hsize Hchunk Hstart Hopen Hticks Hq)
    as (f' & Hs & Hc & He & Hfr & Hrun).
  replace (bytes_left w start
           <=? (Z.of_nat (List.length pre) - 1) *
               (chunk * (nchannels w * sampwidth w)))
    with false in Hrun by (symmetry; apply Z.leb_gt; lia).
  destruct Hrun as [Hrun Hf']. rewrite Hrun. cbn [feed_loop].
  split.
  - intros ->. cbn [fst snd]. repeat split; assumption.
  - intros exc -> [Hread|(Hread & Hwrite & Hmore)]; rewrite Hread.
    + cbn [fst snd error finished frames_sent set_error].
      repeat split; assumption.
    + assert (HC : 1 <= chunk * (nchannels w * sampwidth w)) by nia.
      assert (Hdata' :
                (readframes_len w
                   (start * (nchannels w * sampwidth w) +
                    Z.min (Z.of_nat (List.length pre) *
                           (chunk * (nchannels w * sampwidth w)))
                          (bytes_left w start)) (chunk_frames f') =? 0)
                = false).
      { rewrite Hc, readframes_len_chunk by lia. apply Z.eqb_neq.
        unfold bytes_left in *. lia. }
      rewrite Hdata', Hwrite.
      cbn [fst snd error finished frames_sent set_error].
      repeat split; assumption.
Qed.

Lemma feeder_run_flags_witness :
  finished (fst (run (wav16k 3200) (silent_feeder 5) (new_feeder 0 1600))) = true /\
  finished (fst (run (wav16k 3200) (silent_feeder 1) (new_feeder 0 1600))) = false /\
  error (fst (run (wav16k 320000) faulty_feeder (new_feeder 0 1600)))
  = Some (Fault (lit "OSError")) /\
  finished (fst (run (wav16k 320000) faulty_feeder (new_feeder 0 1600))) = false /\
  frames_sent (fst (run (wav16k 320000) faulty_feeder (new_feeder 0 1600))) = 3200.
Proof.
  split.
  { apply (proj1 (proj2 (feeder_run_flags (wav16k 3200) (silent_feeder 5) 0 1600))).
    reflexivity. }
  split.
  { apply (proj1 (proj2 (proj2 (feeder_run_flags (wav16k 3200) (silent_feeder 1)
                                  0 1600)))).
    reflexivity. }
  destruct (feeder_run_flags (wav16k 320000) faulty_feeder 0 1600)
    as (_ & _ & _ & _ & _ & _ & _ & _ & H).
  apply (proj2 (H (repeat quiet_tick 2)
                  {| stop_is_set := false;
                     read_fault := Some (Fault (lit "OSError"));
                     write_fault := None |}
                  [quiet_tick]
                  ltac:(cbn; lia) ltac:(lia) ltac:(cbn; lia) eq_refl eq_refl
                  ltac:(repeat constructor) ltac:(cbn; lia)));
    [reflexivity|now left].
Defined.

(** ** The restart loop *)

Lemma sleeps_app l1 l2 : sleeps (l1 ++ l2) = sleeps l1 ++ sleeps l2.
Proof. apply flat_map_app. Qed.

Lemma attempts_app l1 l2 : attempts (l1 ++ l2) = attempts l1 ++ attempts l2.
Proof. apply flat_map_app. Qed.

(** What [restart] returns. *)
Lemma restart_ok k rate s j j' :
  restart k rate s j = Ok j' ->
  restarts j + 1 <= MAX_RESTARTS k /\
  exists overlap_frames,
    int_float_mul (OVERLAP_S k) rate = Ok overlap_frames /\
    j' = {| dedup := dedup j;
            cursor_frame := Z.max 0 (cursor_frame j - overlap_frames);
            restarts := restarts j + 1;
            backoff_s := fmin (round_int 20) (fmul (backoff_s j) (round_int 2));
            effects := effects j ++ [Sleep (backoff_s j)] |}.
Proof.
  unfold restart. destruct (Z.ltb_spec (MAX_RESTARTS k) (restarts j + 1));
    [discriminate|].
  destruct (int_float_mul (OVERLAP_S k) rate) as [ov|]; cbn [bind];
    [|discriminate].
  intros [= <-]. split; [lia|]. now exists ov.
Qed.

(** The exceptions of the arithmetic are not those of the restart
    budget. *)
Lemma int_float_mul_raises x n e :
  int_float_mul x n = Raise e ->
  e = OverflowError \/
  e = ValueError (lit "cannot convert float NaN to integer").
Proof.
  unfold int_float_mul, float_of_int.
  destruct (is_finite (round_int n)); cbn [bind]; [|intros [= <-]; now left].
  destruct (fmul x (round_int n)); cbn; try discriminate.
  - intros [= <-]. now left.
  - intros [= <-]. now right.
Qed.

(** What one sub-session leaves, when the loop goes on after it. *)
Lemma sub_session_ok k w tf rate chunk env j j' :
  sub_session k w tf rate chunk env j = Some (Ok j') ->
  exists base c feeder,
    int_div_float_of (cursor_frame j) rate = Ok base /\
    sdk_fault env = None /\
    run_session k w chunk env j base = Some (c, feeder) /\
    feeder = fst (run w (feeder_env env) (new_feeder (cursor_frame j) chunk)) /\
    settle k tf rate j c feeder = Ok j'.
Proof.
  unfold sub_session.
  destruct (int_div_float_of _ _) as [base|]; [|discriminate].
  destruct (sdk_fault env); [discriminate|].
  destruct (run_session _ _ _ _ _ _) as [[c feeder]|] eqn:Hrun; [|discriminate].
  intros [= Hsettle]. exists base, c, feeder. repeat split; try assumption.
  unfold run_session in Hrun.
  destruct (wait_loop _ _ _ _); [|discriminate]. now injection Hrun as _ <-.
Qed.

Lemma settle_ok k tf rate j c feeder j' :
  settle k tf rate j c feeder = Ok j' ->
  (restart_needed
     (decide_restart tf (Z.min tf (cursor_frame j + frames_sent feeder))
        feeder (snd c)) = false /\
   j' = {| dedup := fst c;
           cursor_frame := Z.min tf (cursor_frame j + frames_sent feeder);
           restarts := restarts j;
           backoff_s := backoff_s j;
           effects := effects j ++
                      [SubSession (restarts j) (start_frame feeder)] |}) \/
  (restart_needed
     (decide_restart tf (Z.min tf (cursor_frame j + frames_sent feeder))
        feeder (snd c)) = true /\
   restarts j + 1 <= MAX_RESTARTS k /\
   exists overlap_frames,
     int_float_mul (OVERLAP_S k) rate = Ok overlap_frames /\
     j' = {| dedup := fst c;
             cursor_frame :=
               Z.max 0 (Z.min tf (cursor_frame j + frames_sent feeder)
                        - overlap_frames);
             restarts := restarts j + 1;
             backoff_s := fmin (round_int 20) (fmul (backoff_s j) (round_int 2));
             effects := (effects j ++
                         [SubSession (restarts j) (start_frame feeder)])
                        ++ [Sleep (backoff_s j)] |}).
Proof.
  unfold settle. destruct (restart_needed _) eqn:Hneed.
  - intros H. right. destruct (restart_ok _ _ _ _ _ H) as (Hmax & ov & Hov & ->).
    cbn in *. repeat split; try assumption. now exists ov.
  - intros [= <-]. now left.
Qed.

(** ** Backoff *)

Lemma backoff_at_late n : (5 <= n)%nat -> backoff_at n = round_int 20.
Proof.
  intros H. unfold backoff_at. f_equal.
  assert (2 ^ 5 <= 2 ^ Z.of_nat n) by (apply Z.pow_le_mono_r; lia).
  change (2 ^ 5) with 32 in *. lia.
Qed.

Lemma backoff_next n :
  fmin (round_int 20) (fmul (backoff_at n) (round_int 2)) = backoff_at (S n).
Proof.
  destruct (Nat.lt_ge_cases n 5) as [Hlt|Hge].
  - do 5 (destruct n as [|n]; [reflexivity|]). lia.
  - rewrite !backoff_at_late by lia. reflexivity.
Qed.

Lemma backoff_monotone n :
  fle (backoff_at n) (backoff_at (S n)) = true /\
  fle (backoff_at n) (round_int 20) = true.
Proof.
  destruct (Nat.lt_ge_cases n 5) as [Hlt|Hge].
  - do 5 (destruct n as [|n]; [split; reflexivity|]). lia.
  - rewrite !backoff_at_late by lia. split; reflexivity.
Qed.

Lemma settle_backoff k tf rate j c feeder j' :
  settle k tf rate j c feeder = Ok j' ->
  backoff_invariant j -> backoff_invariant j'.
Proof.
  intros Hsettle (H0 & Hsl & Hb).
  destruct (settle_ok _ _ _ _ _ _ _ Hsettle)
    as [[_ ->] | (_ & _ & ov & _ & ->)]; unfold backoff_invariant; cbn.
  - rewrite sleeps_app, app_nil_r. repeat split; assumption.
  - rewrite !sleeps_app, app_nil_r. cbn [sleeps flat_map app].
    replace (Z.to_nat (restarts j + 1)) with (S (Z.to_nat (restarts j))) by lia.
    rewrite seq_S, map_app, Hsl, Hb, backoff_next. cbn [map Nat.add].
    repeat split; try reflexivity. lia.
Qed.

Lemma reaches_backoff k w tf rate chunk j :
  reaches k w tf rate chunk initial_job j -> backoff_invariant j.
Proof.
  induction 1 as [|j1 j2 _ IH [_ [env Hsub]]].
  - repeat split. cbn. lia.
  - destruct (sub_session_ok _ _ _ _ _ _ _ _ Hsub)
      as (base & c & feeder & _ & _ & _ & _ & Hsettle).
    exact (settle_backoff _ _ _ _ _ _ _ Hsettle IH).
Qed.

(** C7: in every state of a job the pauses slept so far are, in order, the
    first [restarts] terms of the sequence 1, 2, 4, 8, 16, 20, 20, ..., and
    the current backoff is its next term; the sequence never decreases and
    never exceeds 20 seconds. *)
Theorem backoff_sequence :
  forall (k : Knobs) (w : Wav) (total_frames rate chunk_frames : Z) (j : Job),
    reaches k w total_frames rate chunk_frames initial_job j ->
    sleeps (effects j) = map backoff_at (seq 0 (Z.to_nat (restarts j))) /\
    backoff_s j = backoff_at (Z.to_nat (restarts j)) /\
    map backoff_at (seq 0 8)
      = map round_int [1; 2; 4; 8; 16; 20; 20; 20] /\
    (forall n : nat, (5 <= n)%nat -> backoff_at n = round_int 20) /\
    (forall n : nat, fle (backoff_at n) (backoff_at (S n)) = true) /\
    (forall n : nat, fle (backoff_at n) (round_int 20) = true).
Proof.
  intros k w tf rate chunk j Hreach.
  destruct (reaches_backoff _ _ _ _ _ _ Hreach) as (_ & Hsl & Hb).
  repeat split; try assumption.
  - exact backoff_at_late.
  - intros n. apply backoff_monotone.
  - intros n. apply backoff_monotone.
Qed.

(** ** The cursor *)

Lemma settle_cursor_nonneg k tf rate j c feeder j' :
  settle k tf rate j c feeder = Ok j' ->
  0 <= cursor_frame j < tf -> 0 <= frames_sent feeder ->
  0 <= cursor_frame j'.
Proof.
  intros Hsettle H0 Hsent.
  destruct (settle_ok _ _ _ _ _ _ _ Hsettle)
    as [[_ ->] | (_ & _ & ov & _ & ->)]; cbn [cursor_frame]; lia.
Qed.

(** The cursor of a job on sound audio parameters is never negative. *)
Lemma reaches_cursor k w rate chunk j :
  1 <= nchannels w * sampwidth w -> 1 <= chunk ->
  reaches k w (nframes w) rate chunk initial_job j ->
  0 <= cursor_frame j.
Proof.
  intros Hsize Hchunk.
  induction 1 as [|j1 j2 _ IH [Hlt [env Hsub]]]; [cbn; lia|].
  destruct (sub_session_ok _ _ _ _ _ _ _ _ Hsub)
    as (base & c & feeder & _ & _ & _ & -> & Hsettle).
  destruct (run_frames w (feeder_env env) (cursor_frame j1) chunk
              Hsize Hchunk ltac:(lia)) as (Hsent & _).
  exact (settle_cursor_nonneg _ _ _ _ _ _ _ Hsettle ltac:(lia) Hsent).
Qed.

(** C6: in a job on sound audio parameters, a sub-session moves the cursor
    forward by the frames its feeder sent; when a restart is then decided
    (the restart counter goes up), the cursor is moved back by the overlap
    window, [int(OVERLAP_S * rate)] frames, and not below frame 0.  With
    the default overlap of 1.5 seconds the window is [3 * rate / 2] frames,
    rounded down. *)
Theorem cursor_advance_and_rollback :
  forall (k : Knobs) (w : Wav) (rate chunk : Z) (env : SessionEnv) (j j' : Job),
    1 <= nchannels w * sampwidth w -> 1 <= chunk ->
    reaches k w (nframes w) rate chunk initial_job j ->
    cursor_frame j < nframes w ->
    sub_session k w (nframes w) rate chunk env j = Some (Ok j') ->
    ((restarts j' = restarts j /\
      cursor_frame j' =
        cursor_frame j
        + frames_sent (fst (run w (feeder_env env)
                              (new_feeder (cursor_frame j) chunk)))) \/
     (restarts j' = restarts j + 1 /\
      exists overlap_frames : Z,
        int_float_mul (OVERLAP_S k) rate = Ok overlap_frames /\
        cursor_frame j' =
          Z.max 0 (cursor_frame j
                   + frames_sent (fst (run w (feeder_env env)
                                         (new_feeder (cursor_frame j) chunk)))
                   - overlap_frames))) /\
    (forall r : Z, 0 < r < 2 ^ 32 ->
                   int_float_mul (OVERLAP_S default_knobs) r = Ok (3 * r / 2)).
Proof.
  intros k w rate chunk env j j' Hsize Hchunk Hreach Hlt Hsub.
  split; [|exact overlap_frames_default].
  pose proof (reaches_cursor _ _ _ _ _ Hsize Hchunk Hreach) as Hcur.
  destruct (sub_session_ok _ _ _ _ _ _ _ _ Hsub)
    as (base & c & feeder & _ & _ & _ & -> & Hsettle).
  destruct (run_frames w (feeder_env env) (cursor_frame j) chunk
              Hsize Hchunk ltac:(lia)) as (_ & Hsent & _).
  destruct (settle_ok _ _ _ _ _ _ _ Hsettle)
    as [[_ ->] | (_ & _ & ov & Hmul & ->)]; cbn [cursor_frame restarts].
  - left. split; [reflexivity|]. lia.
  - right. split; [reflexivity|]. exists ov. split; [assumption|].
    f_equal. lia.
Qed.

(** ** Setting a job up *)

Lemma pow32_lt_pow53 n : n < 2 ^ 32 -> n < 2 ^ 53.
Proof. intros H. apply (Z.lt_trans _ (2 ^ 32)); [assumption|reflexivity]. Qed.

(** The chunk size can be computed for every chunk duration of at most 53
    bits. *)
Lemma chunk_frames_of_ok (k : Knobs) (rate : Z) :
  - 2 ^ 53 < CHUNK_MS k < 2 ^ 53 -> 0 < rate < 2 ^ 53 ->
  exists chunk, chunk_frames_of k rate = Ok chunk /\ 1 <= chunk.
Proof.
  intros Hms Hrate. unfold chunk_frames_of, float_of_int at 1.
  pose proof (round_int_below (CHUNK_MS k) Hms) as Hx.
  rewrite (below_finite _ _ Hx). cbn [bind]. unfold float_truediv.
  change (round_int 1000) with (S754_finite false 8796093022208000 (-43)).
  cbn [is_zero bind].
  pose proof (SFdiv_below 53 _ false 8796093022208000 (-43) Hx ltac:(lia))
    as Hc.
  destruct (float_of_int_small rate Hrate) as (y & -> & _ & Hy). cbn [bind].
  assert (Hd : 0 <= Zdigits2 rate <= 53).
  { split; [apply Zdigits2_nonneg|apply Zdigits2_le; lia]. }
  pose proof (fmul_below _ _ _ _ Hy Hc ltac:(lia)) as Hprod.
  destruct (int_of_float_finite _ (below_finite _ _ Hprod)) as (n & ->).
  cbn [bind]. exists (Z.max 1 n). split; [reflexivity|lia].
Qed.

Lemma chunk_frames_of_default (rate : Z) :
  0 < rate < 2 ^ 53 ->
  exists chunk, chunk_frames_of default_knobs rate = Ok chunk /\ 1 <= chunk.
Proof. apply chunk_frames_of_ok. cbn. lia. Qed.

Lemma _wav_info_fits (w : Wav) :
  wav_fits w ->
  exists duration,
    _wav_info (Ok w)
    = Ok {| frames := nframes w; rate := framerate w;
            channels := nchannels w; bits_per_sample := sampwidth w * 8;
            wav_duration := duration |}.
Proof.
  intros (Hn & Hr & _ & _). unfold _wav_info. cbn [bind].
  destruct (Z.eqb_spec (framerate w) 0) as [H0|_]; [lia|].
  destruct (int_div_float_of_small (nframes w) (framerate w)) as (x & ->).
  - split; [lia|]. apply pow32_lt_pow53. lia.
  - split; [lia|]. apply pow32_lt_pow53. lia.
  - cbn [bind]. now exists x.
Qed.

(** After a successful setup the job is the loop on the file. *)
Lemma run_job_setup k env file_path language wav_path config w chunk :
  convert_audio_to_wav (converter env) file_path = Ok wav_path ->
  create_local_speech_config (getenv env) language = Ok config ->
  wav_file env = Ok w -> wav_fits w ->
  chunk_frames_of k (framerate w) = Ok chunk ->
  run_job k env file_path language
  = supervise k w (nframes w) (framerate w) chunk (sessions env) initial_job.
Proof.
  intros Hconv Hconf Hwav Hfits Hchunk. unfold run_job.
  rewrite Hconv, Hconf, Hwav. cbn [bind].
  destruct (_wav_info_fits w Hfits) as (duration & ->). cbn [bind frames rate
    channels bits_per_sample].
  destruct Hfits as (_ & Hr & Hc & Hs).
  replace (framerate w <=? 0) with false by (symmetry; apply Z.leb_gt; lia).
  replace (nchannels w <=? 0) with false by (symmetry; apply Z.leb_gt; lia).
  replace (sampwidth w * 8 <=? 0) with false by (symmetry; apply Z.leb_gt; lia).
  cbn [orb]. rewrite Hchunk. reflexivity.
Qed.

(** C10: with a supported language, a file that is or can be converted to
    WAV and a chunk duration of at most 53 bits, a job on a stream of zero
    frames with sound metadata returns the empty transcript; it starts no
    sub-session and sleeps for no restart (it has no effect at all),
    whatever the recogniser would have done. *)
Theorem zero_frames_returns_empty :
  forall (k : Knobs) (env : JobEnv) (file_path language wav_path : str)
         (config : SpeechConfig) (w : Wav),
    - 2 ^ 53 < CHUNK_MS k < 2 ^ 53 ->
    convert_audio_to_wav (converter env) file_path = Ok wav_path ->
    create_local_speech_config (getenv env) language = Ok config ->
    wav_file env = Ok w ->
    nframes w = 0 ->
    0 < framerate w < 2 ^ 32 -> 0 < nchannels w -> 0 < sampwidth w ->
    transcribe_with_diarization_local k env file_path language
      = Some (Ok []) /\
    run_job k env file_path language = Some (Ok initial_job) /\
    effects initial_job = [] /\ restarts initial_job = 0.
Proof.
  intros k env file_path language wav_path config w Hms Hconv Hconf Hwav Hn
    Hr Hc Hs.
  assert (Hfits : wav_fits w) by (unfold wav_fits; rewrite Hn; repeat split; lia).
  destruct (chunk_frames_of_ok k (framerate w) Hms) as (chunk & Hchunk & _).
  { split; [lia|]. apply pow32_lt_pow53. lia. }
  assert (Hrun : run_job k env file_path language = Some (Ok initial_job)).
  { rewrite (run_job_setup _ _ _ _ _ _ _ _ Hconv Hconf Hwav Hfits Hchunk).
    rewrite Hn. destruct (sessions env); reflexivity. }
  unfold transcribe_with_diarization_local. rewrite Hrun.
  repeat split.
Qed.

Lemma zero_frames_returns_empty_witness :
  transcribe_with_diarization_local default_knobs empty_env
    (lit "silence.wav") (lit "en-US") = Some (Ok []).
Proof.
  apply (zero_frames_returns_empty default_knobs empty_env
           (lit "silence.wav") (lit "en-US") (lit "silence.wav")
           {| host := lit "ws://localhost:5000";
              endpoint := lit "ws://localhost:5000" ++
                lit "/speech/recognition/dictation/cognitiveservices/v1";
              speech_recognition_language := lit "en-US" |}
           (wav16k 0));
    try reflexivity; cbn; lia.
Defined.

(** ** The restart budget *)

Lemma wait_loop_done k base rounds c :
  done (snd c) = true -> wait_loop k base rounds c = Some c.
Proof. intros H. destruct rounds; cbn [wait_loop]; now rewrite H. Qed.

Lemma wait_loop_silent k base polls :
  forall d s,
    done s = false ->
    existsb (fun t => flt (HANG_TIMEOUT_S k) (fsub t (last_activity s))) polls
    = true ->
    wait_loop k base (map silent_round polls) (d, s)
    = Some (d, hang_timeout s).
Proof.
  induction polls as [|t polls IH]; intros d s Hdone Hex; [discriminate|].
  cbn [map wait_loop snd fst]. rewrite Hdone.
  cbn [silent_round during_sleep now before_test deliver_all fold_left snd fst].
  cbn [existsb] in Hex.
  destruct (flt (HANG_TIMEOUT_S k) (fsub t (last_activity s))).
  - now apply wait_loop_done.
  - now apply IH.
Qed.

Lemma deliver_no_cancel k base c cb :
  is_cancel cb = false ->
  restart_needed (snd (deliver k base c cb)) = restart_needed (snd c) /\
  restart_reason (snd (deliver k base c cb)) = restart_reason (snd c).
Proof.
  destruct cb as [t evt|t t' evt|evt|]; try discriminate; intros _;
    cbn [deliver snd].
  - rewrite transcribed_cb_stamp. split; reflexivity.
  - unfold transcribing_cb. destruct (flt _ _); split; reflexivity.
  - split; reflexivity.
Qed.

Lemma deliver_all_no_cancel k base cbs :
  forall c,
    existsb is_cancel cbs = false ->
    restart_needed (snd (deliver_all k base cbs c)) = restart_needed (snd c) /\
    restart_reason (snd (deliver_all k base cbs c)) = restart_reason (snd c).
Proof.
  unfold deliver_all.
  induction cbs as [|cb cbs IH]; intros c H; cbn [fold_left]; [now split|].
  cbn [existsb] in H. apply orb_false_elim in H. destruct H as [Hcb Hcbs].
  destruct (IH (deliver k base c cb) Hcbs) as [-> ->].
  now apply deliver_no_cancel.
Qed.

Lemma decide_restart_needed tf cursor feeder s :
  restart_needed s = true -> decide_restart tf cursor feeder s = s.
Proof.
  intros H. unfold decide_restart.
  destruct (error feeder); rewrite ?H; cbn [negb]; rewrite ?H; reflexivity.
Qed.

(** A hang ends in the restart code, with the reason [hang_timeout]. *)
Lemma sub_session_hang k w tf rate chunk env j base :
  is_hang k env ->
  int_div_float_of (cursor_frame j) rate = Ok base ->
  exists s j1,
    restart_reason s = Some (lit "hang_timeout") /\
    restarts j1 = restarts j /\ cursor_frame j1 <= tf /\
    sub_session k w tf rate chunk env j = Some (restart k rate s j1).
Proof.
  intros (Hsdk & Hbefore & (polls & Hrounds & Hex) & Hstop) Hbase.
  unfold sub_session, run_session. rewrite Hbase, Hsdk, Hbefore, Hrounds.
  cbn [deliver_all fold_left].
  rewrite wait_loop_silent by (try reflexivity; exact Hex).
  unfold settle.
  destruct (deliver_all_no_cancel k base (during_stop env)
              (dedup j, hang_timeout
                 {| done := false; restart_needed := false;
                    restart_reason := None; last_activity := start_time env;
                    last_print := S754_zero false |}) Hstop) as [Hneed Hreason].
  cbn [snd hang_timeout set_done set_restart restart_needed restart_reason]
    in Hneed, Hreason.
  rewrite decide_restart_needed by assumption. rewrite Hneed.
  eexists _, _. split; [exact Hreason|]. split; [|split; [|reflexivity]];
    cbn [restarts cursor_frame]; lia.
Qed.

Lemma supervise_step k w tf rate chunk env envs j r :
  cursor_frame j < tf ->
  sub_session k w tf rate chunk env j = Some r ->
  supervise k w tf rate chunk (env :: envs) j
  = match r with
    | Ok j' => supervise k w tf rate chunk envs j'
    | Raise e => Some (Raise e)
    end.
Proof.
  intros Hlt Hsub. cbn [supervise].
  replace (cursor_frame j <? tf) with true by (symmetry; now apply Z.ltb_lt).
  rewrite Hsub. now destruct r.
Qed.

(** With the default settings, hangs are survived until the restart
    counter is 8; the next one is fatal. *)
Lemma hangs_run w chunk hangs :
  wav_fits w -> 1 <= nframes w ->
  Forall (is_hang default_knobs) hangs ->
  forall j,
    0 <= cursor_frame j < nframes w -> 0 <= restarts j <= 8 ->
    (restarts j + Z.of_nat (List.length hangs) <= 8 ->
     forall rest,
     exists j',
       restarts j' = restarts j + Z.of_nat (List.length hangs) /\
       0 <= cursor_frame j' < nframes w /\
       supervise default_knobs w (nframes w) (framerate w) chunk
         (hangs ++ rest) j
       = supervise default_knobs w (nframes w) (framerate w) chunk rest j') /\
    (restarts j + Z.of_nat (List.length hangs) = 9 ->
     forall rest,
       supervise default_knobs w (nframes w) (framerate w) chunk
         (hangs ++ rest) j
       = Some (Raise (TooManyRestarts 8 (Some (lit "hang_timeout"))))).
Proof.
  intros (Hn & Hr & _ & _) Hn1 Hall.
  induction Hall as [|env hangs Hhang _ IH]; intros j Hcur Hres.
  - cbn [List.length app]. split; [|cbn; lia].
    intros _ rest. exists j. cbn. repeat split; lia.
  - cbn [List.length app]. rewrite Nat2Z.inj_succ.
    destruct (int_div_float_of_small (cursor_frame j) (framerate w))
      as (base & Hbase).
    { split; [lia|]. apply pow32_lt_pow53. lia. }
    { split; [lia|]. apply pow32_lt_pow53. lia. }
    destruct (sub_session_hang default_knobs w (nframes w) (framerate w) chunk
                env j base Hhang Hbase) as (s & j1 & Hreason & Hres1 & Hcur1 & Hsub).
    assert (Hov : 1 <= 3 * framerate w / 2)
      by (apply Z.div_le_lower_bound; lia).
    destruct (Z.le_gt_cases (restarts j + 1) 8) as [Hle|Hgt].
    + assert (Hrestart : exists j',
                 restart default_knobs (framerate w) s j1 = Ok j' /\
                 restarts j' = restarts j + 1 /\
                 0 <= cursor_frame j' < nframes w).
      { unfold restart. cbn [MAX_RESTARTS default_knobs].
        replace (8 <? restarts j1 + 1) with false
          by (symmetry; apply Z.ltb_ge; lia).
        rewrite overlap_frames_default by lia. cbn [bind].
        eexists. split; [reflexivity|]. cbn [restarts cursor_frame]. lia. }
      destruct Hrestart as (j' & Hrestart & Hres' & Hcur').
      rewrite Hrestart in Hsub.
      destruct (IH j' Hcur' ltac:(lia)) as [IH1 IH2].
      split.
      * intros Hlen rest. destruct (IH1 ltac:(lia) rest) as (j'' & H1 & H2 & H3).
        exists j''. repeat split; try lia.
        rewrite (supervise_step _ _ _ _ _ _ _ _ _ (proj2 Hcur) Hsub). exact H3.
      * intros Hlen rest.
        rewrite (supervise_step _ _ _ _ _ _ _ _ _ (proj2 Hcur) Hsub).
        apply IH2. lia.
    + split; [lia|]. intros Hlen rest.
      assert (Hfail : restart default_knobs (framerate w) s j1
                      = Raise (TooManyRestarts 8 (Some (lit "hang_timeout")))).
      { unfold restart. cbn [MAX_RESTARTS default_knobs].
        replace (8 <? restarts j1 + 1) with true
          by (symmetry; apply Z.ltb_lt; lia).
        now rewrite Hreason. }
      rewrite Hfail in Hsub.
      now rewrite (supervise_step _ _ _ _ _ _ _ _ _ (proj2 Hcur) Hsub).
Qed.

Lemma reaches_restarts k w tf rate chunk j :
  0 <= MAX_RESTARTS k ->
  reaches k w tf rate chunk initial_job j ->
  0 <= restarts j <= MAX_RESTARTS k.
Proof.
  intros Hmax. induction 1 as [|j1 j2 _ IH [_ [env Hsub]]]; [cbn; lia|].
  destruct (sub_session_ok _ _ _ _ _ _ _ _ Hsub)
    as (base & c & feeder & _ & _ & _ & _ & Hsettle).
  destruct (settle_ok _ _ _ _ _ _ _ Hsettle)
    as [[_ ->] | (_ & Hle & ov & _ & ->)]; cbn [restarts]; lia.
Qed.

Lemma restart_budget k rate s j :
  (MAX_RESTARTS k < restarts j + 1 ->
   restart k rate s j
   = Raise (TooManyRestarts (MAX_RESTARTS k) (restart_reason s))) /\
  (forall m r, restart k rate s j = Raise (TooManyRestarts m r) ->
               MAX_RESTARTS k < restarts j + 1).
Proof.
  unfold restart.
  destruct (Z.ltb_spec (MAX_RESTARTS k) (restarts j + 1)) as [Hlt|Hge].
  - split; [reflexivity|]. intros; assumption.
  - split; [lia|]. intros m r.
    destruct (int_float_mul (OVERLAP_S k) rate) as [ov|e] eqn:Hmul; cbn [bind];
      [discriminate|].
    intros [= ->].
    destruct (int_float_mul_raises _ _ _ Hmul); discriminate.
Qed.

Lemma hang_session_is_hang start :
  flt (HANG_TIMEOUT_S default_knobs)
      (fsub (round_int (start + 46)) (round_int start)) = true ->
  is_hang default_knobs (hang_session start).
Proof.
  intros H. repeat split.
  exists [round_int (start + 46)]. split; [reflexivity|].
  cbn [existsb hang_session start_time]. now rewrite H.
Qed.

(** The restart is decided exactly after a sub-session that has failed. *)
Lemma decide_restart_failed tf j c feeder :
  restart_needed
    (decide_restart tf (Z.min tf (cursor_frame j + frames_sent feeder))
       feeder (snd c)) = true <->
  failed tf j c feeder.
Proof.
  unfold decide_restart, failed.
  destruct (error feeder) as [exc|];
    destruct (restart_needed (snd c)) eqn:Hr;
    cbn [negb andb restart_needed set_restart]; rewrite ?Hr;
    cbn [negb andb restart_needed set_restart]; rewrite ?Hr.
  - split; [now left|reflexivity].
  - split; [intros _; right; left; discriminate|reflexivity].
  - split; [now left|reflexivity].
  - destruct (Z.ltb_spec (Z.min tf (cursor_frame j + frames_sent feeder)) tf)
      as [Hlt|Hge]; destruct (finished feeder) eqn:Hf; cbn [negb andb];
      cbn [restart_needed set_restart]; rewrite ?Hr.
    + split; [discriminate|]. intros [H|[H|[_ H]]]; congruence.
    + split; [intros _; right; right; split; [lia|reflexivity]|reflexivity].
    + split; [discriminate|]. intros [H|[H|[H _]]]; try congruence. lia.
    + split; [discriminate|]. intros [H|[H|[H _]]]; try congruence. lia.
Qed.

(** What the loop does with a sub-session that has failed. *)
Lemma failed_sub_session k w tf rate chunk env j base c feeder :
  int_div_float_of (cursor_frame j) rate = Ok base ->
  sdk_fault env = None ->
  run_session k w chunk env j base = Some (c, feeder) ->
  failed tf j c feeder ->
  (MAX_RESTARTS k < restarts j + 1 ->
   sub_session k w tf rate chunk env j
   = Some (Raise (TooManyRestarts (MAX_RESTARTS k) (reason_of tf j c feeder)))) /\
  (restarts j + 1 <= MAX_RESTARTS k ->
   forall overlap_frames,
     int_float_mul (OVERLAP_S k) rate = Ok overlap_frames ->
     sub_session k w tf rate chunk env j
     = Some (Ok (restarted tf overlap_frames j c feeder))).
Proof.
  intros Hbase Hsdk Hrun Hfailed.
  apply decide_restart_failed in Hfailed.
  unfold sub_session. rewrite Hbase, Hsdk, Hrun. unfold settle.
  rewrite Hfailed. unfold restart, reason_of. cbn [restarts].
  split.
  - intros Hover.
    replace (MAX_RESTARTS k <? restarts j + 1) with true
      by (symmetry; apply Z.ltb_lt; lia).
    reflexivity.
  - intros Hin ov Hov.
    replace (MAX_RESTARTS k <? restarts j + 1) with false
      by (symmetry; apply Z.ltb_ge; lia).
    rewrite Hov. reflexivity.
Qed.

(** Failures in a row are survived while the restart counter is within
    the budget; the next one is fatal. *)
Lemma failures_run k w tf rate chunk ov fails :
  int_float_mul (OVERLAP_S k) rate = Ok ov ->
  forall j,
    restarts j <= MAX_RESTARTS k ->
    all_fail k w tf rate chunk ov fails j ->
    (restarts j + Z.of_nat (List.length fails) <= MAX_RESTARTS k ->
     exists j',
       restarts j' = restarts j + Z.of_nat (List.length fails) /\
       forall rest,
         supervise k w tf rate chunk (fails ++ rest) j
         = supervise k w tf rate chunk rest j') /\
    (restarts j + Z.of_nat (List.length fails) = MAX_RESTARTS k + 1 ->
     exists reason,
       forall rest,
         supervise k w tf rate chunk (fails ++ rest) j
         = Some (Raise (TooManyRestarts (MAX_RESTARTS k) reason))).
Proof.
  intros Hov.
  induction fails as [|env fails IH]; intros j Hres Hall.
  - cbn [List.length app Z.of_nat]. split; [|lia].
    intros _. exists j. split; [lia|reflexivity].
  - cbn [List.length app]. rewrite Nat2Z.inj_succ.
    destruct Hall as (Hlt & base & c & feeder & Hbase & Hsdk & Hrun & Hfailed
                      & Hall).
    destruct (failed_sub_session k w tf rate chunk env j base c feeder
                Hbase Hsdk Hrun Hfailed) as [Hover Hin].
    destruct (Z.le_gt_cases (restarts j + 1) (MAX_RESTARTS k)) as [Hle|Hgt].
    + specialize (Hin Hle ov Hov).
      destruct (IH (restarted tf ov j c feeder) ltac:(cbn; lia) Hall)
        as [IH1 IH2].
      cbn [restarts restarted] in IH1, IH2.
      split.
      * intros Hlen. destruct (IH1 ltac:(lia)) as (j' & Hj' & Hsup).
        exists j'. split; [lia|]. intros rest.
        rewrite (supervise_step _ _ _ _ _ _ _ _ _ Hlt Hin). apply Hsup.
      * intros Hlen. destruct (IH2 ltac:(lia)) as (reason & Hsup).
        exists reason. intros rest.
        rewrite (supervise_step _ _ _ _ _ _ _ _ _ Hlt Hin). apply Hsup.
    + specialize (Hover Hgt). split; [lia|].
      intros Hlen. exists (reason_of tf j c feeder). intros rest.
      now rewrite (supervise_step _ _ _ _ _ _ _ _ _ Hlt Hover).
Qed.

(** C4, as the specification states it, fails: after 8 consecutive hangs
    the job has not failed; it makes a ninth attempt, and when that one
    succeeds the job returns its transcript. *)
Lemma eight_hangs_are_survived :
  exists j : Job,
    run_job default_knobs (hangs_env 8) (lit "a.wav") (lit "en-US")
      = Some (Ok j) /\
    restarts j = 8 /\
    List.length (attempts (effects j)) = 9%nat /\
    exists seg : TranscriptSegment,
      transcribe_with_diarization_local default_knobs (hangs_env 8)
        (lit "a.wav") (lit "en-US") = Some (Ok [seg]).
Proof.
  eexists. split; [vm_compute; reflexivity|].
  split; [reflexivity|]. split; [reflexivity|].
  eexists. vm_compute. reflexivity.
Qed.

(** C4, amended: the job fails with TooManyRestarts exactly when the
    restart counter, incremented for the restart being decided, exceeds
    MAX_RESTARTS; the counter of a running job never exceeds it; and no
    transcript is returned by a job that fails.  With the default of 8, a
    job survives 8 consecutive hangs (it goes on with the restart counter
    at 8) and fails at the ninth, with the reason [hang_timeout].

    The same holds for failures of every kind and for every setting: a
    sub-session that has failed (a request to restart by a callback or by
    the polling loop, an error of the feeder, or an early stop) ends the
    job with TooManyRestarts when the counter is at MAX_RESTARTS, and is
    followed by another sub-session when it is below; a job whose first
    sub-sessions fail in a row survives MAX_RESTARTS of them and raises
    TooManyRestarts at the next; and a sub-session raises TooManyRestarts
    only so (or when the SDK itself raises it). *)
Theorem too_many_restarts_after_budget :
  (forall (k : Knobs) (rate : Z) (s : Session) (j : Job),
      (MAX_RESTARTS k < restarts j + 1 ->
       restart k rate s j
       = Raise (TooManyRestarts (MAX_RESTARTS k) (restart_reason s))) /\
      (forall m r, restart k rate s j = Raise (TooManyRestarts m r) ->
                   MAX_RESTARTS k < restarts j + 1)) /\
  (forall (k : Knobs) (w : Wav) (total_frames rate chunk : Z) (j : Job),
      0 <= MAX_RESTARTS k ->
      reaches k w total_frames rate chunk initial_job j ->
      0 <= restarts j <= MAX_RESTARTS k) /\
  (forall (env : JobEnv) (file_path language wav_path : str)
          (config : SpeechConfig) (w : Wav) (hangs rest : list SessionEnv),
      convert_audio_to_wav (converter env) file_path = Ok wav_path ->
      create_local_speech_config (getenv env) language = Ok config ->
      wav_file env = Ok w -> wav_fits w -> 1 <= nframes w ->
      sessions env = hangs ++ rest ->
      Forall (is_hang default_knobs) hangs ->
      ((List.length hangs <= 8)%nat ->
       exists (chunk : Z) (j : Job),
         restarts j = Z.of_nat (List.length hangs) /\
         0 <= cursor_frame j < nframes w /\
         run_job default_knobs env file_path language
         = supervise default_knobs w (nframes w) (framerate w) chunk rest j) /\
      (List.length hangs = 9%nat ->
       transcribe_with_diarization_local default_knobs env file_path language
       = Some (Raise (TooManyRestarts 8 (Some (lit "hang_timeout")))))) /\
  (forall (k : Knobs) (w : Wav) (total_frames rate chunk : Z)
          (env : SessionEnv) (envs : list SessionEnv) (j : Job) (base : float)
          (c : Dedup * Session) (feeder : Feeder),
      cursor_frame j < total_frames ->
      int_div_float_of (cursor_frame j) rate = Ok base ->
      sdk_fault env = None ->
      run_session k w chunk env j base = Some (c, feeder) ->
      failed total_frames j c feeder ->
      (MAX_RESTARTS k < restarts j + 1 ->
       supervise k w total_frames rate chunk (env :: envs) j
       = Some (Raise (TooManyRestarts (MAX_RESTARTS k)
                        (reason_of total_frames j c feeder)))) /\
      (restarts j + 1 <= MAX_RESTARTS k ->
       forall overlap_frames : Z,
         int_float_mul (OVERLAP_S k) rate = Ok overlap_frames ->
         supervise k w total_frames rate chunk (env :: envs) j
         = supervise k w total_frames rate chunk envs
             (restarted total_frames overlap_frames j c feeder))) /\
  (forall (k : Knobs) (env : JobEnv) (file_path language wav_path : str)
          (config : SpeechConfig) (w : Wav) (chunk overlap_frames : Z)
          (fails rest : list SessionEnv),
      convert_audio_to_wav (converter env) file_path = Ok wav_path ->
      create_local_speech_config (getenv env) language = Ok config ->
      wav_file env = Ok w -> wav_fits w ->
      chunk_frames_of k (framerate w) = Ok chunk ->
      int_float_mul (OVERLAP_S k) (framerate w) = Ok overlap_frames ->
      0 <= MAX_RESTARTS k ->
      sessions env = fails ++ rest ->
      all_fail k w (nframes w) (framerate w) chunk overlap_frames fails
        initial_job ->
      (Z.of_nat (List.length fails) <= MAX_RESTARTS k ->
       exists j : Job,
         restarts j = Z.of_nat (List.length fails) /\
         run_job k env file_path language
         = supervise k w (nframes w) (framerate w) chunk rest j) /\
      (Z.of_nat (List.length fails) = MAX_RESTARTS k + 1 ->
       exists reason : option str,
         transcribe_with_diarization_local k env file_path language
         = Some (Raise (TooManyRestarts (MAX_RESTARTS k) reason)))) /\
  (forall (k : Knobs) (w : Wav) (total_frames rate chunk : Z)
          (env : SessionEnv) (j : Job) (m : Z) (r : option str),
      sub_session k w total_frames rate chunk env j
      = Some (Raise (TooManyRestarts m r)) ->
      sdk_fault env = Some (TooManyRestarts m r) \/
      (m = MAX_RESTARTS k /\ MAX_RESTARTS k < restarts j + 1 /\
       exists (base : float) (c : Dedup * Session) (feeder : Feeder),
         run_session k w chunk env j base = Some (c, feeder) /\
         failed total_frames j c feeder /\
         r = reason_of total_frames j c feeder)) /\
  (forall (k : Knobs) (env : JobEnv) (file_path language : str) (e : exn),
      run_job k env file_path language = Some (Raise e) ->
      transcribe_with_diarization_local k env file_path language
      = Some (Raise e)).
Proof.
  split; [exact restart_budget|]. split; [exact reaches_restarts|].
  split.
  { intros env file_path language wav_path config w hangs rest
      Hconv Hconf Hwav Hfits Hn1 Hsessions Hall.
    destruct (chunk_frames_of_default (framerate w)) as (chunk & Hchunk & _).
    { destruct Hfits as (_ & Hr & _). split; [lia|]. apply pow32_lt_pow53. lia. }
    pose proof (run_job_setup _ _ _ _ _ _ _ _ Hconv Hconf Hwav Hfits Hchunk)
      as Hrun.
    rewrite Hsessions in Hrun.
    destruct (hangs_run w chunk hangs Hfits Hn1 Hall initial_job)
      as [Hsurvive Hfail]; cbn [initial_job cursor_frame restarts]; try lia.
    split.
    - intros Hlen. destruct (Hsurvive ltac:(cbn; lia) rest) as (j & H1 & H2 & H3).
      exists chunk, j. cbn in H1. repeat split; try lia. now rewrite Hrun.
    - intros Hlen. unfold transcribe_with_diarization_local.
      rewrite Hrun, (Hfail ltac:(cbn; lia) rest). reflexivity. }
  split.
  { intros k w tf rate chunk env envs j base c feeder Hlt Hbase Hsdk Hrun
      Hfailed.
    destruct (failed_sub_session k w tf rate chunk env j base c feeder
                Hbase Hsdk Hrun Hfailed) as [Hover Hin].
    split.
    - intros H. now rewrite (supervise_step _ _ _ _ _ _ _ _ _ Hlt (Hover H)).
    - intros H ov Hov.
      now rewrite (supervise_step _ _ _ _ _ _ _ _ _ Hlt (Hin H ov Hov)). }
  split.
  { intros k env file_path language wav_path config w chunk ov fails rest
      Hconv Hconf Hwav Hfits Hchunk Hov Hmax Hsessions Hall.
    pose proof (run_job_setup _ _ _ _ _ _ _ _ Hconv Hconf Hwav Hfits Hchunk)
      as Hrun.
    rewrite Hsessions in Hrun.
    destruct (failures_run k w (nframes w) (framerate w) chunk ov fails Hov
                initial_job ltac:(cbn; lia) Hall) as [Hsurvive Hfail].
    cbn [restarts initial_job] in Hsurvive, Hfail.
    split.
    - intros Hlen. destruct (Hsurvive ltac:(lia)) as (j & Hj & Hsup).
      exists j. split; [lia|]. rewrite Hrun. apply Hsup.
    - intros Hlen. destruct (Hfail ltac:(lia)) as (reason & Hsup).
      exists reason. unfold transcribe_with_diarization_local.
      rewrite Hrun, Hsup. reflexivity. }
  split.
  { intros k w tf rate chunk env j m r. unfold sub_session.
    destruct (int_div_float_of (cursor_frame j) rate) as [base|e] eqn:Hbase.
    - destruct (sdk_fault env) as [e|]; [intros [= ->]; now left|].
      destruct (run_session k w chunk env j base) as [[c feeder]|] eqn:Hrun;
        [|discriminate].
      intros [= Hsettle]. right. unfold settle in Hsettle.
      destruct (restart_needed _) eqn:Hneed; [|discriminate].
      apply decide_restart_failed in Hneed.
      unfold restart in Hsettle. cbn [restarts] in Hsettle.
      destruct (Z.ltb_spec (MAX_RESTARTS k) (restarts j + 1)) as [Hover|Hin].
      + injection Hsettle as <- <-. split; [reflexivity|]. split; [exact Hover|].
        exists base, c, feeder. repeat split; assumption.
      + destruct (int_float_mul (OVERLAP_S k) rate) as [ov|e] eqn:Hmul;
          cbn [bind] in Hsettle; [discriminate|].
        injection Hsettle as ->.
        destruct (int_float_mul_raises _ _ _ Hmul); discriminate.
    - intros [= ->]. exfalso.
      unfold int_div_float_of, float_of_int, float_truediv in Hbase.
      destruct (is_finite (round_int rate)); cbn [bind] in Hbase;
        [|discriminate].
      destruct (is_finite (round_int (cursor_frame j))); cbn [bind] in Hbase;
        [|discriminate].
      destruct (is_zero (round_int rate)); discriminate. }
  intros k env file_path language e Hrun.
  unfold transcribe_with_diarization_local. now rewrite Hrun.
Qed.

Lemma too_many_restarts_after_budget_witness :
  transcribe_with_diarization_local default_knobs (hangs_env 9)
    (lit "a.wav") (lit "en-US")
  = Some (Raise (TooManyRestarts 8 (Some (lit "hang_timeout")))) /\
  supervise default_knobs (wav16k 16000) 16000 16000 1600
    [lost_connection_session; clean_session 4000] spent_job
  = Some (Raise (TooManyRestarts 8 (Some (lit "connection_or_timeout")))).
Proof.
  destruct too_many_restarts_after_budget as (_ & _ & Hhangs & Hfailed & _).
  split.
  - apply (proj2 (Hhangs
                  (hangs_env 9) (lit "a.wav") (lit "en-US") (lit "a.wav")
                  {| host := lit "ws://localhost:5000";
                     endpoint := lit "ws://localhost:5000" ++
                       lit "/speech/recognition/dictation/cognitiveservices/v1";
                     speech_recognition_language := lit "en-US" |}
                  (wav16k 16000) (repeat (hang_session 1000) 9)
                  [clean_session 2000]
                  eq_refl eq_refl eq_refl
                  ltac:(unfold wav_fits; cbn; lia)
                  ltac:(cbn; lia)
                  eq_refl
                  ltac:(repeat constructor; apply hang_session_is_hang;
                        reflexivity))).
    reflexivity.
  - apply (proj1 (Hfailed default_knobs (wav16k 16000) 16000 16000 1600
                    lost_connection_session [clean_session 4000] spent_job
                    (round_int 0) (fst lost_connection_end)
                    (snd lost_connection_end)
                    ltac:(cbn; lia) ltac:(vm_compute; reflexivity) eq_refl
                    ltac:(vm_compute; reflexivity)
                    ltac:(left; reflexivity))).
    cbn. lia.
Defined.

(** ** The job ends *)

(** A sub-session that asks for no restart has fed the file to its end. *)
Lemma no_restart_at_end tf cursor feeder s :
  restart_needed (decide_restart tf cursor feeder s) = false ->
  tf <= cursor \/ finished feeder = true.
Proof.
  unfold decide_restart.
  set (s1 := match error feeder with
             | Some exc =>
               if negb (restart_needed s)
               then set_restart true (Some (lit "feeder_error:" ++ type_name exc)) s
               else s
             | None => s
             end).
  destruct (restart_needed s1) eqn:Hs1; cbn [negb andb]; [congruence|].
  destruct (Z.ltb_spec cursor tf) as [Hlt|Hge]; cbn [andb]; [|now left].
  destruct (finished feeder); cbn [negb]; [now right|discriminate].
Qed.

(** X1: on a file that holds every frame its header declares, the loop
    ends (with a transcript or an exception) within [MAX_RESTARTS + 1]
    sub-sessions: it never asks for more scripts than that. *)
Theorem job_ends_within_budget :
  forall (k : Knobs) (w : Wav) (rate chunk : Z) (envs : list SessionEnv)
         (j : Job),
    1 <= nchannels w * sampwidth w -> 1 <= chunk ->
    holds_declared_frames w ->
    0 <= cursor_frame j -> restarts j <= MAX_RESTARTS k ->
    Forall (script_complete k w chunk) envs ->
    MAX_RESTARTS k - restarts j < Z.of_nat (List.length envs) ->
    supervise k w (nframes w) rate chunk envs j <> None.
Proof.
  intros k w rate chunk envs j Hsize Hchunk Hheld Hcur Hres Hall.
  revert j Hcur Hres.
  induction Hall as [|env envs Hcomplete _ IH]; intros j Hcur Hres Hlen.
  - cbn in Hlen. lia.
  - cbn [supervise].
    destruct (Z.ltb_spec (cursor_frame j) (nframes w)) as [Hlt|Hge];
      [|discriminate].
    destruct (sub_session k w (nframes w) rate chunk env j)
      as [[j'|e]|] eqn:Hsub; [| discriminate |].
    + destruct (sub_session_ok _ _ _ _ _ _ _ _ Hsub)
        as (base & c & feeder & _ & _ & _ & -> & Hsettle).
      destruct (run_frames w (feeder_env env) (cursor_frame j) chunk
                  Hsize Hchunk ltac:(lia)) as (Hsent & Hmax & _).
      pose proof (run_frames_complete w (feeder_env env) (cursor_frame j) chunk
                    Hsize Hchunk ltac:(lia) Hheld) as Hfin.
      destruct (settle_ok _ _ _ _ _ _ _ Hsettle)
        as [[Hno ->] | (_ & Hle & ov & _ & ->)].
      * assert (Hend : nframes w <=
                       Z.min (nframes w)
                         (cursor_frame j
                          + frames_sent (fst (run w (feeder_env env)
                               (new_feeder (cursor_frame j) chunk))))).
        { destruct (no_restart_at_end _ _ _ _ Hno) as [H|H]; [exact H|].
          specialize (Hfin H). lia. }
        destruct envs; cbn [supervise cursor_frame];
          (replace (_ <? nframes w) with false
             by (symmetry; apply Z.ltb_ge; exact Hend)); discriminate.
      * apply IH; cbn [cursor_frame restarts]; try lia.
        cbn [List.length] in Hlen. lia.
    + unfold sub_session in Hsub.
      destruct (int_div_float_of _ _); [|discriminate].
      destruct (sdk_fault env); [discriminate|].
      destruct (run_session k w chunk env j a) eqn:Hrun.
      * destruct p. discriminate.
      * now apply Hcomplete in Hrun.
Qed.

Lemma job_ends_within_budget_witness :
  supervise default_knobs (wav16k 16000) 16000 16000 1600
    (repeat (hang_session 1000) 9) initial_job <> None.
Proof.
  apply (job_ends_within_budget default_knobs (wav16k 16000) 16000 1600
           (repeat (hang_session 1000) 9) initial_job);
    try (unfold holds_declared_frames; cbn; lia).
  repeat constructor; intros j base; unfold run_session;
    cbn [hang_session before_loop rounds deliver_all fold_left];
    (rewrite (wait_loop_silent default_knobs base [round_int (1000 + 46)])
      by reflexivity); discriminate.
Defined.

(** ** The worked run, step by step *)

Lemma demo_final_reached :
  reaches default_knobs (wav16k 320000) 320000 16000 1600 initial_job demo_final.
Proof.
  apply (supervise_reaches _ _ _ _ _ (sessions demo_env)).
  vm_compute. reflexivity.
Qed.

Lemma cursor_advance_and_rollback_witness :
  restarts demo_restarted = restarts initial_job + 1 /\
  cursor_frame demo_restarted = Z.max 0 (0 + 168000 - 24000).
Proof.
  destruct (proj1 (cursor_advance_and_rollback default_knobs (wav16k 320000)
                     16000 1600 demo_session_1 initial_job demo_restarted
                     ltac:(cbn; lia) ltac:(lia)
                     (reaches_refl _ _ _ _ _ _) ltac:(cbn; lia) eq_refl))
    as [[Hsame _] | (Hmore & ov & Hov & Hcur)].
  - discriminate Hsame.
  - split; [exact Hmore|].
    rewrite (proj2 (cursor_advance_and_rollback default_knobs (wav16k 320000)
                     16000 1600 demo_session_1 initial_job demo_restarted
                     ltac:(cbn; lia) ltac:(lia)
                     (reaches_refl _ _ _ _ _ _) ltac:(cbn; lia) eq_refl)
               16000 ltac:(lia)) in Hov.
    injection Hov as <-. exact Hcur.
Defined.

Lemma backoff_sequence_witness :
  sleeps (effects demo_final) = [round_int 1] /\
  backoff_s demo_final = round_int 2.
Proof.
  destruct (backoff_sequence default_knobs (wav16k 320000) 320000 16000 1600
              demo_final demo_final_reached) as (Hsleeps & Hbackoff & _).
  split; [exact Hsleeps | exact Hbackoff].
Defined.

(** ** Converting the audio file *)

Lemma lower_app a b : lower (a ++ b) = lower a ++ lower b.
Proof. apply flat_map_app. Qed.

Lemma startswith_app p t : startswith (p ++ t) p = true.
Proof.
  induction p as [|c p IH]; cbn [startswith app]; [now destruct t|].
  now rewrite N.eqb_refl.
Qed.

Lemma endswith_app a b : endswith (a ++ b) b = true.
Proof. unfold endswith. rewrite rev_app_distr. apply startswith_app. Qed.

Lemma truthy_app_r a b : truthy b = true -> truthy (a ++ b) = true.
Proof. destruct a; [trivial|reflexivity]. Qed.

Lemma before_last_dot_none s :
  existsb (N.eqb 46) s = false -> before_last_dot s = None.
Proof.
  induction s as [|c t IH]; cbn [existsb before_last_dot]; [reflexivity|].
  intros H. apply orb_false_elim in H. destruct H as [Hc Ht].
  rewrite (IH Ht). rewrite N.eqb_sym in Hc. now rewrite Hc.
Qed.

Lemma before_last_dot_split stem ext :
  existsb (N.eqb 46) ext = false ->
  before_last_dot (stem ++ lit "." ++ ext) = Some stem.
Proof.
  intros H. induction stem as [|c t IH].
  - cbn [app lit list_ascii_of_string map before_last_dot].
    rewrite (before_last_dot_none ext H). reflexivity.
  - cbn [app before_last_dot] in *. now rewrite IH.
Qed.

Lemma lower_no_dot s :
  existsb (N.eqb 46) s = false -> existsb (N.eqb 46) (lower s) = false.
Proof.
  induction s as [|c t IH]; cbn [existsb lower flat_map]; [reflexivity|].
  intros H. apply orb_false_elim in H. destruct H as [Hc Ht].
  rewrite existsb_app. fold (lower t). rewrite (IH Ht), orb_false_r.
  unfold lower_cp.
  destruct ((65 <=? c)%N && (c <=? 90)%N) eqn:Hup.
  - apply andb_prop in Hup. destruct Hup as [H1 H2].
    apply N.leb_le in H1. cbn [existsb]. rewrite orb_false_r.
    apply N.eqb_neq. lia.
  - destruct (c =? 8490)%N; [reflexivity|].
    destruct (c =? 304)%N; [reflexivity|].
    cbn [existsb]. now rewrite Hc.
Qed.

Lemma endswith_wav_dot s :
  endswith s (lit ".wav") = true -> existsb (N.eqb 46) s = true.
Proof.
  unfold endswith. intros H.
  apply existsb_exists. exists 46%N. split; [|reflexivity].
  apply in_rev.
  destruct (rev s) as [|a [|b [|c [|d r]]]];
    cbn [startswith lit list_ascii_of_string map rev app] in H;
    rewrite ?andb_false_r in H; try discriminate.
  apply andb_prop in H. destruct H as [_ H].
  apply andb_prop in H. destruct H as [_ H].
  apply andb_prop in H. destruct H as [_ H].
  apply andb_prop in H. destruct H as [H _].
  apply N.eqb_eq in H. cbn [N_of_ascii] in H. subst d. cbn. tauto.
Qed.

(** X2: a path returned by [convert_audio_to_wav] ends in [.wav], in
    whatever case, and converting it again returns it as it is, without
    calling the audio library. *)
Theorem convert_audio_to_wav_idempotent :
  forall (converter converter' : res unit) (file_path wav_path : str),
    convert_audio_to_wav converter file_path = Ok wav_path ->
    endswith (lower wav_path) (lit ".wav") = true /\
    convert_audio_to_wav converter' wav_path = Ok wav_path.
Proof.
  intros converter converter' file_path wav_path.
  unfold convert_audio_to_wav at 1.
  destruct (truthy file_path) eqn:Hpath; cbn [negb]; [|discriminate].
  destruct (endswith (lower file_path) (lit ".wav")) eqn:Hwav.
  - intros [= <-]. split; [assumption|].
    unfold convert_audio_to_wav. now rewrite Hpath, Hwav.
  - destruct converter as [[]|e]; cbn [bind]; [|discriminate].
    intros [= <-].
    assert (Hends : endswith (lower (rsplit_dot_head file_path ++ lit ".wav"))
                      (lit ".wav") = true).
    { rewrite lower_app. apply endswith_app. }
    split; [assumption|].
    unfold convert_audio_to_wav.
    rewrite truthy_app_r by reflexivity. cbn [negb]. now rewrite Hends.
Qed.

Lemma convert_audio_to_wav_idempotent_witness :
  convert_audio_to_wav (Raise (Fault (lit "CouldntDecodeError"))) (lit "talk.wav")
  = Ok (lit "talk.wav").
Proof.
  apply (proj2 (convert_audio_to_wav_idempotent (Ok tt) _ (lit "talk.mp3")
                  (lit "talk.wav") eq_refl)).
Defined.

(** X3: the converted file is named after the input: what follows the last
    dot of the path is replaced by [wav] (also when it spans a directory
    separator), and a path without a dot gets [.wav] appended.  The name is
    computed before the audio library is called, and returned when the
    conversion succeeds. *)
Theorem convert_audio_to_wav_names_output :
  (forall (converter : res unit) (stem ext : str),
      existsb (N.eqb 46) ext = false ->
      endswith (lower (stem ++ lit "." ++ ext)) (lit ".wav") = false ->
      convert_audio_to_wav converter (stem ++ lit "." ++ ext)
      = (_ <- converter ;; Ok (stem ++ lit ".wav"))) /\
  (forall (converter : res unit) (file_path : str),
      truthy file_path = true ->
      existsb (N.eqb 46) file_path = false ->
      convert_audio_to_wav converter file_path
      = (_ <- converter ;; Ok (file_path ++ lit ".wav"))).
Proof.
  split.
  - intros converter stem ext Hext Hwav. unfold convert_audio_to_wav.
    rewrite truthy_app_r by reflexivity. cbn [negb]. rewrite Hwav.
    unfold rsplit_dot_head. now rewrite before_last_dot_split.
  - intros converter file_path Hpath Hdot. unfold convert_audio_to_wav.
    rewrite Hpath. cbn [negb].
    assert (Hwav : endswith (lower file_path) (lit ".wav") = false).
    { destruct (endswith (lower file_path) (lit ".wav")) eqn:E; [|reflexivity].
      apply endswith_wav_dot in E. now rewrite lower_no_dot in E. }
    rewrite Hwav. unfold rsplit_dot_head. now rewrite before_last_dot_none.
Qed.

Lemma convert_audio_to_wav_names_output_witness :
  convert_audio_to_wav (Ok tt) (lit "rec.2024/talk") = Ok (lit "rec.wav") /\
  convert_audio_to_wav (Ok tt) (lit "talk") = Ok (lit "talk.wav").
Proof.
  split.
  - apply (proj1 convert_audio_to_wav_names_output (Ok tt) (lit "rec")
             (lit "2024/talk")); reflexivity.
  - apply (proj2 convert_audio_to_wav_names_output (Ok tt) (lit "talk"));
      reflexivity.
Defined.

(** ** Checking the header of the file *)

(** X4: a file whose header gives a frame rate of zero (with a number of
    channels and a sample width that [wave.open] accepts) is refused with
    a ValueError that names the WAV path (the converted one), once the
    audio is converted and the language is accepted, and before any
    recogniser is started.  The frame rate of zero does not make the
    computation of the duration fail: [_wav_info] returns a duration of
    [0.0]. *)
Theorem invalid_wav_metadata_raises :
  forall (k : Knobs) (env : JobEnv) (file_path language wav_path : str)
         (config : SpeechConfig) (w : Wav),
    convert_audio_to_wav (converter env) file_path = Ok wav_path ->
    create_local_speech_config (getenv env) language = Ok config ->
    wav_file env = Ok w ->
    0 < nchannels w -> 0 < sampwidth w ->
    framerate w = 0 ->
    _wav_info (wav_file env)
    = Ok {| frames := nframes w; rate := 0;
            channels := nchannels w; bits_per_sample := sampwidth w * 8;
            wav_duration := S754_zero false |} /\
    transcribe_with_diarization_local k env file_path language
    = Some (Raise (ValueError (lit "Invalid WAV metadata for: " ++ wav_path))).
Proof.
  intros k env file_path language wav_path config w Hconv Hconf Hwav Hc Hs Hr.
  assert (Hinfo : _wav_info (wav_file env)
                  = Ok {| frames := nframes w; rate := 0;
                          channels := nchannels w;
                          bits_per_sample := sampwidth w * 8;
                          wav_duration := S754_zero false |}).
  { rewrite Hwav. unfold _wav_info. cbn [bind]. rewrite Hr. reflexivity. }
  split; [exact Hinfo|].
  unfold transcribe_with_diarization_local, run_job.
  rewrite Hconv, Hconf, Hwav. cbn [bind]. rewrite Hwav in Hinfo.
  rewrite Hinfo. reflexivity.
Qed.

Lemma invalid_wav_metadata_raises_witness :
  transcribe_with_diarization_local default_knobs zero_rate_env
    (lit "talk.mp3") (lit "en-US")
  = Some (Raise (ValueError (lit "Invalid WAV metadata for: talk.wav"))).
Proof.
  apply (proj2 (invalid_wav_metadata_raises default_knobs zero_rate_env
                  (lit "talk.mp3") (lit "en-US") (lit "talk.wav")
                  demo_config zero_rate_wav
                  eq_refl eq_refl eq_refl ltac:(cbn; lia) ltac:(cbn; lia)
                  eq_refl)).
Defined.

(** ** The speech configuration *)

(** X5: a speech configuration is made for five language codes only,
    compared as they are written, and only when the endpoint variable of
    the language is set and not empty; its host is the value of that
    variable and its endpoint the host followed by the path of the
    dictation service.  In every other case the ValueError names the
    language. *)
Theorem create_local_speech_config_supported :
  forall (getenv : str -> option str) (language : str),
    match create_local_speech_config getenv language with
    | Ok config =>
        In language [lit "en-US"; lit "ro-RO"; lit "ru-RU"; lit "zh-CN"; lit "ar-AE"] /\
        endpoint_map_get getenv language = Some (host config) /\
        truthy (host config) = true /\
        endpoint config
        = host config ++ lit "/speech/recognition/dictation/cognitiveservices/v1" /\
        speech_recognition_language config = language
    | Raise e =>
        e = ValueError (lit "Unsupported language or missing endpoint: " ++ language) /\
        (endpoint_map_get getenv language = None \/
         endpoint_map_get getenv language = Some [])
    end.
Proof.
  intros getenv language. unfold create_local_speech_config.
  destruct (endpoint_map_get getenv language) as [[|c h]|] eqn:Hget;
    cbn [or_empty truthy negb]; try (split; [reflexivity|tauto]).
  repeat split.
  unfold endpoint_map_get, str_eqb in Hget.
  repeat match type of Hget with
         | context [list_eq_dec ?d ?a ?b] =>
             destruct (list_eq_dec d a b) as [->|_]; [cbn; tauto|]
         end.
  discriminate.
Qed.

(** ** No audio is skipped *)

Lemma binary_round_aux_sign s m e l :
  match binary_round_aux prec emax s m e l with
  | S754_zero s' | S754_infinity s' | S754_finite s' _ _ => s' = s
  | S754_nan => True
  end.
Proof.
  unfold binary_round_aux.
  destruct (shr_fexp prec emax m e l) as [mrs' e'].
  destruct (shr_fexp prec emax _ e' loc_Exact) as [mrs'' e''].
  destruct (shr_m mrs''); try exact I; try reflexivity.
  destruct (e'' <=? emax - prec); reflexivity.
Qed.

Lemma round_int_sign (n : Z) :
  0 <= n ->
  match round_int n with
  | S754_zero s | S754_infinity s | S754_finite s _ _ => s = false
  | S754_nan => True
  end.
Proof.
  intros Hn. destruct n as [|p|p]; [reflexivity| |lia].
  unfold round_int, binary_normalize, binary_round.
  destruct (shl_align p 0 _) as [mz ez].
  apply binary_round_aux_sign.
Qed.

Lemma int_of_float_not_negative x n :
  not_negative x = true -> int_of_float x = Ok n -> 0 <= n.
Proof.
  destruct x as [s|s| |s m e]; try discriminate.
  - intros _ [= <-]. lia.
  - destruct s; [discriminate|]. intros _. cbn [int_of_float]. intros [= <-].
    destruct e as [|q|q].
    + rewrite Z.shiftl_0_r. lia.
    + apply Z.shiftl_nonneg. lia.
    + apply Z.shiftr_nonneg. lia.
Qed.

(** An overlap that is not negative is a window of no fewer than zero
    frames. *)
Lemma int_float_mul_not_negative x n ov :
  not_negative x = true -> 0 <= n ->
  int_float_mul x n = Ok ov -> 0 <= ov.
Proof.
  intros Hx Hn. unfold int_float_mul, float_of_int.
  pose proof (round_int_sign n Hn) as Hs.
  destruct (round_int n) as [sy|sy| |sy my ey]; cbn [is_finite bind];
    try discriminate; subst sy;
    destruct x as [sx|sx| |sx mx ex]; try discriminate;
    unfold fmul; cbn [SFmul]; try discriminate;
    try (intros [= <-]; lia).
  destruct sx; [discriminate|]. cbn [xorb].
  pose proof (binary_round_aux_sign false (Zpos (mx * my)) (ex + ey) loc_Exact)
    as Hsign.
  destruct (binary_round_aux prec emax false _ _ _) as [s|s| |s m e];
    try discriminate.
  - intros [= <-]. lia.
  - subst s. now apply int_of_float_not_negative.
Qed.

(** After a sub-session the cursor is not negative, and not beyond the
    last frame its feeder has sent. *)
Lemma sub_session_cursor k w rate chunk env j j' :
  1 <= nchannels w * sampwidth w -> 1 <= chunk -> 0 <= rate ->
  not_negative (OVERLAP_S k) = true ->
  0 <= cursor_frame j < nframes w ->
  sub_session k w (nframes w) rate chunk env j = Some (Ok j') ->
  let sent := frames_sent (fst (run w (feeder_env env)
                                  (new_feeder (cursor_frame j) chunk))) in
  0 <= sent /\ cursor_frame j + sent <= nframes w /\
  0 <= cursor_frame j' <= cursor_frame j + sent.
Proof.
  intros Hsize Hchunk Hrate Hov Hcur Hsub.
  destruct (sub_session_ok _ _ _ _ _ _ _ _ Hsub)
    as (base & c & feeder & _ & _ & _ & -> & Hsettle).
  destruct (run_frames w (feeder_env env) (cursor_frame j) chunk
              Hsize Hchunk ltac:(lia)) as (Hsent & Hmax & _).
  destruct (settle_ok _ _ _ _ _ _ _ Hsettle)
    as [[_ ->] | (_ & _ & ov & Hmul & ->)]; cbn [cursor_frame]; [lia|].
  pose proof (int_float_mul_not_negative _ _ _ Hov Hrate Hmul). lia.
Qed.

Lemma fed_spans_cover k w rate chunk envs :
  1 <= nchannels w * sampwidth w -> 1 <= chunk -> 0 <= rate ->
  not_negative (OVERLAP_S k) = true ->
  forall j j',
    0 <= cursor_frame j ->
    supervise k w (nframes w) rate chunk envs j = Some (Ok j') ->
    Forall (fun span => 0 <= fst span /\ 0 <= snd span /\
                        fst span + snd span <= nframes w)
      (fed_spans k w (nframes w) rate chunk envs j) /\
    forall frame, cursor_frame j <= frame < nframes w ->
      exists start sent,
        In (start, sent) (fed_spans k w (nframes w) rate chunk envs j) /\
        start <= frame < start + sent.
Proof.
  intros Hsize Hchunk Hrate Hov.
  induction envs as [|env envs IH]; intros j j' Hcur;
    cbn [supervise fed_spans];
    destruct (Z.ltb_spec (cursor_frame j) (nframes w)) as [Hlt|Hge];
    try discriminate; try (intros _; split; [constructor|intros; lia]).
  destruct (sub_session k w (nframes w) rate chunk env j) as [[j1|e]|] eqn:Hsub;
    try discriminate.
  intros Hrest.
  destruct (sub_session_cursor k w rate chunk env j j1 Hsize Hchunk Hrate Hov
              ltac:(lia) Hsub) as (Hsent & Hmax & Hcur1).
  destruct (IH j1 j' ltac:(lia) Hrest) as [Hin Hcov].
  split.
  - constructor; [cbn [fst snd]; lia|assumption].
  - intros frame Hframe.
    destruct (Z.lt_ge_cases frame
                (cursor_frame j
                 + frames_sent (fst (run w (feeder_env env)
                                       (new_feeder (cursor_frame j) chunk)))))
      as [Hhere|Hlater].
    + eexists _, _. split; [left; reflexivity|]. lia.
    + destruct (Hcov frame ltac:(lia)) as (start & sent & Hspan & Hbounds).
      exists start, sent. split; [now right|assumption].
Qed.

(** X6: a job that returns a transcript has fed every frame of the file to a
    recogniser: with an overlap that is not negative, each frame lies in the
    span sent by the feeder of some sub-session, and no feeder sends frames
    the file does not have. *)
Theorem every_frame_is_fed :
  forall (k : Knobs) (w : Wav) (rate chunk : Z) (envs : list SessionEnv)
         (j : Job),
    1 <= nchannels w * sampwidth w -> 1 <= chunk -> 0 <= rate ->
    not_negative (OVERLAP_S k) = true ->
    supervise k w (nframes w) rate chunk envs initial_job = Some (Ok j) ->
    Forall (fun span => 0 <= fst span /\ 0 <= snd span /\
                        fst span + snd span <= nframes w)
      (fed_spans k w (nframes w) rate chunk envs initial_job) /\
    forall frame : Z, 0 <= frame < nframes w ->
      exists start sent : Z,
        In (start, sent) (fed_spans k w (nframes w) rate chunk envs initial_job) /\
        start <= frame < start + sent.
Proof.
  intros k w rate chunk envs j Hsize Hchunk Hrate Hov Hrun.
  exact (fed_spans_cover k w rate chunk envs Hsize Hchunk Hrate Hov
           initial_job j ltac:(cbn; lia) Hrun).
Qed.

Lemma every_frame_is_fed_witness :
  exists start sent : Z,
    In (start, sent)
       (fed_spans default_knobs (wav16k 320000) 320000 16000 1600
          (sessions demo_env) initial_job) /\
    start <= 150000 < start + sent.
Proof.
  apply (proj2 (every_frame_is_fed default_knobs (wav16k 320000) 16000 1600
                  (sessions demo_env) demo_final
                  ltac:(cbn; lia) ltac:(lia) ltac:(lia) eq_refl
                  ltac:(vm_compute; reflexivity))).
  cbn. lia.
Defined.

(** ** The sub-sessions of a job *)

Lemma sub_sessions_counted k w rate chunk j :
  1 <= nchannels w * sampwidth w -> 1 <= chunk ->
  holds_declared_frames w ->
  reaches k w (nframes w) rate chunk initial_job j ->
  map fst (attempts (effects j))
  = map Z.of_nat (seq 0 (List.length (attempts (effects j)))) /\
  (Z.of_nat (List.length (attempts (effects j))) = restarts j \/
   Z.of_nat (List.length (attempts (effects j))) = restarts j + 1 /\
   nframes w <= cursor_frame j).
Proof.
  intros Hsize Hchunk Hheld Hreach.
  induction Hreach as [|j1 j2 Hreach1 IH [Hlt [env Hsub]]];
    [split; [reflexivity|now left]|].
  pose proof (reaches_cursor _ _ _ _ _ Hsize Hchunk Hreach1) as Hcur.
  destruct IH as [Hnum [Hlen|[_ Hend]]]; [|lia].
  destruct (sub_session_ok _ _ _ _ _ _ _ _ Hsub)
    as (base & c & feeder & _ & _ & _ & -> & Hsettle).
  destruct (run_frames w (feeder_env env) (cursor_frame j1) chunk
              Hsize Hchunk ltac:(lia)) as (Hsent & Hmax & _).
  pose proof (run_frames_complete w (feeder_env env) (cursor_frame j1) chunk
                Hsize Hchunk ltac:(lia) Hheld) as Hfin.
  assert (Hnext : map fst (attempts (effects j1) ++ [(restarts j1,
                     start_frame (fst (run w (feeder_env env)
                        (new_feeder (cursor_frame j1) chunk))))])
                  = map Z.of_nat
                      (seq 0 (List.length (attempts (effects j1)) + 1))).
  { rewrite map_app, Hnum, seq_app, map_app. cbn [seq map fst Nat.add].
    now rewrite Hlen. }
  destruct (settle_ok _ _ _ _ _ _ _ Hsettle)
    as [[Hno ->] | (_ & _ & ov & _ & ->)];
    cbn [effects restarts cursor_frame];
    rewrite !attempts_app; cbn [attempts flat_map app];
    rewrite ?app_nil_r, length_app; cbn [List.length];
    (split; [exact Hnext|]).
  - right. split; [lia|].
    destruct (no_restart_at_end _ _ _ _ Hno) as [H|H]; [exact H|].
    specialize (Hfin H). lia.
  - left. lia.
Qed.

(** X7: on a file that holds every frame its header declares, the
    sub-sessions of a job are numbered 0, 1, 2, ... in the order they are
    started.  While the loop goes on, as many sub-sessions have been run as
    restarts were made; one more has been run at most when it ends, and
    then the cursor is at the end of the file.  The job has slept once for
    each restart, and never runs more than [MAX_RESTARTS + 1]
    sub-sessions. *)
Theorem sub_sessions_are_numbered :
  forall (k : Knobs) (w : Wav) (rate chunk : Z) (j : Job),
    1 <= nchannels w * sampwidth w -> 1 <= chunk ->
    holds_declared_frames w ->
    reaches k w (nframes w) rate chunk initial_job j ->
    map fst (attempts (effects j))
    = map Z.of_nat (seq 0 (List.length (attempts (effects j)))) /\
    Z.of_nat (List.length (sleeps (effects j))) = restarts j /\
    (cursor_frame j < nframes w ->
     Z.of_nat (List.length (attempts (effects j))) = restarts j) /\
    (Z.of_nat (List.length (attempts (effects j))) <> restarts j ->
     Z.of_nat (List.length (attempts (effects j))) = restarts j + 1 /\
     nframes w <= cursor_frame j) /\
    (0 <= MAX_RESTARTS k ->
     Z.of_nat (List.length (attempts (effects j))) <= MAX_RESTARTS k + 1).
Proof.
  intros k w rate chunk j Hsize Hchunk Hheld Hreach.
  destruct (sub_sessions_counted k w rate chunk j Hsize Hchunk Hheld Hreach)
    as [Hnum Hlen].
  destruct (reaches_backoff _ _ _ _ _ _ Hreach) as (H0 & Hsl & _).
  split; [exact Hnum|]. split; [|split; [|split]].
  - rewrite Hsl, length_map, length_seq. lia.
  - intros Hlt. destruct Hlen as [H|[_ H]]; [exact H|lia].
  - intros Hne. destruct Hlen as [H|H]; [contradiction|exact H].
  - intros Hmax. pose proof (reaches_restarts _ _ _ _ _ _ Hmax Hreach). lia.
Qed.

Lemma sub_sessions_are_numbered_witness :
  map fst (attempts (effects demo_final)) = [0; 1] /\
  Z.of_nat (List.length (sleeps (effects demo_final))) = 1.
Proof.
  destruct (sub_sessions_are_numbered default_knobs (wav16k 320000) 16000 1600
              demo_final ltac:(cbn; lia) ltac:(lia)
              ltac:(unfold holds_declared_frames; cbn; lia) demo_final_reached)
    as (Hnum & Hsl & _).
  split; [exact Hnum|exact Hsl].
Defined.

(** ** Requests to restart *)

Lemma deliver_sticky k base c cb :
  (done (snd c) = true -> done (snd (deliver k base c cb)) = true) /\
  (restart_needed (snd c) = true ->
   restart_needed (snd (deliver k base c cb)) = true).
Proof.
  destruct cb as [t evt|t t' evt|evt|]; cbn [deliver snd].
  - rewrite transcribed_cb_stamp. now split.
  - unfold transcribing_cb. destruct (flt _ _); now split.
  - unfold canceled_cb.
    destruct (contains (lit "client buffer exceeded") _); [now split|].
    destruct (contains (lit "websocket") _ || contains (lit "connection") _
              || contains (lit "timeout") _); now split.
  - now split.
Qed.

Lemma deliver_all_sticky k base cbs :
  forall c,
    (done (snd c) = true -> done (snd (deliver_all k base cbs c)) = true) /\
    (restart_needed (snd c) = true ->
     restart_needed (snd (deliver_all k base cbs c)) = true).
Proof.
  unfold deliver_all.
  induction cbs as [|cb cbs IH]; intros c; cbn [fold_left]; [now split|].
  destruct (IH (deliver k base c cb)) as [IH1 IH2].
  destruct (deliver_sticky k base c cb) as [H1 H2].
  split; intros H; [apply IH1, H1, H|apply IH2, H2, H].
Qed.

Lemma wait_loop_sticky k base rounds :
  forall c c',
    wait_loop k base rounds c = Some c' ->
    done (snd c') = true /\
    (restart_needed (snd c) = true -> restart_needed (snd c') = true).
Proof.
  induction rounds as [|r rounds IH]; intros c c'; cbn [wait_loop];
    destruct (done (snd c)) eqn:Hdone; try discriminate;
    try (intros [= <-]; now split).
  intros Hloop. destruct (IH _ _ Hloop) as [H1 H2]. split; [exact H1|].
  intros Hneed. apply H2. apply deliver_all_sticky.
  destruct (flt _ _); cbn [snd]; [reflexivity|].
  now apply deliver_all_sticky.
Qed.

(** X8: within a sub-session, no callback and no poll takes back a request
    to restart or the end of the session: once set, [restart_needed] and
    [done] stay set whatever the recogniser delivers afterwards, and the
    polling loop is only left with [done] set.  A sub-session that ends with
    a request to restart goes to the restart code: it fails, or it
    increments the restart counter and sleeps for the current backoff. *)
Theorem restart_request_is_kept :
  (forall (k : Knobs) (base : float) (cbs : list Callback) (c : Dedup * Session),
      (done (snd c) = true -> done (snd (deliver_all k base cbs c)) = true) /\
      (restart_needed (snd c) = true ->
       restart_needed (snd (deliver_all k base cbs c)) = true)) /\
  (forall (k : Knobs) (base : float) (rounds : list Round)
          (c c' : Dedup * Session),
      wait_loop k base rounds c = Some c' ->
      done (snd c') = true /\
      (restart_needed (snd c) = true -> restart_needed (snd c') = true)) /\
  (forall (k : Knobs) (total_frames rate : Z) (j : Job) (c : Dedup * Session)
          (feeder : Feeder),
      restart_needed (snd c) = true ->
      match settle k total_frames rate j c feeder with
      | Ok j' => restarts j' = restarts j + 1 /\
                 sleeps (effects j') = sleeps (effects j) ++ [backoff_s j]
      | Raise _ => True
      end).
Proof.
  split; [exact deliver_all_sticky|]. split; [exact wait_loop_sticky|].
  intros k tf rate j c feeder Hneed.
  destruct (settle k tf rate j c feeder) as [j'|e] eqn:Hsettle; [|exact I].
  destruct (settle_ok _ _ _ _ _ _ _ Hsettle)
    as [[Hno _] | (_ & _ & ov & _ & ->)].
  - rewrite decide_restart_needed in Hno by assumption. congruence.
  - cbn [restarts effects]. split; [reflexivity|].
    rewrite !sleeps_app. cbn [sleeps flat_map app]. now rewrite app_nil_r.
Qed.

(** ** A sub-session that ends the job *)

Lemma feed_loop_start_frame w bpf ticks :
  forall pos f, start_frame (fst (feed_loop w bpf ticks pos f)) = start_frame f.
Proof.
  induction ticks as [|t ticks IH]; intros pos f; cbn [feed_loop]; [reflexivity|].
  destruct (stop_is_set t); [reflexivity|].
  destruct (read_fault t); [reflexivity|].
  destruct (_ =? 0); [reflexivity|].
  destruct (write_fault t); [reflexivity|].
  now rewrite IH.
Qed.

Lemma run_start_frame w env f : start_frame (fst (run w env f)) = start_frame f.
Proof.
  rewrite run_after_try. cbn [fst].
  assert (H : start_frame (fst (run_try w env f)) = start_frame f).
  { unfold run_try. destruct (open_fault env); [reflexivity|].
    destruct (setpos w (start_frame f)); [|reflexivity].
    apply feed_loop_start_frame. }
  destruct (snd (run_try w env f)); cbn [start_frame set_error]; exact H.
Qed.

(** X9: on a file that holds every frame its header declares, a
    sub-session in which nothing asked for a restart and whose feeder met
    no fault and finished ends the job: the cursor is at the last frame,
    the loop is left without a pause, no other recogniser is started, and
    the job ends with the segments accepted so far. *)
Theorem clean_sub_session_ends_job :
  forall (k : Knobs) (w : Wav) (rate chunk : Z) (env : SessionEnv)
         (envs : list SessionEnv) (j : Job) (base : float)
         (c : Dedup * Session) (feeder : Feeder),
    1 <= nchannels w * sampwidth w -> 1 <= chunk ->
    holds_declared_frames w ->
    0 <= cursor_frame j < nframes w ->
    int_div_float_of (cursor_frame j) rate = Ok base ->
    sdk_fault env = None ->
    run_session k w chunk env j base = Some (c, feeder) ->
    restart_needed (snd c) = false ->
    error feeder = None -> finished feeder = true ->
    supervise k w (nframes w) rate chunk (env :: envs) j
    = Some (Ok {| dedup := fst c;
                  cursor_frame := nframes w;
                  restarts := restarts j;
                  backoff_s := backoff_s j;
                  effects := effects j ++
                             [SubSession (restarts j) (cursor_frame j)] |}).
Proof.
  intros k w rate chunk env envs j base c feeder Hsize Hchunk Hheld Hcur Hbase
    Hsdk Hrun Hneed Herr Hfin.
  assert (Hfeeder : feeder = fst (run w (feeder_env env)
                                    (new_feeder (cursor_frame j) chunk))).
  { unfold run_session in Hrun. destruct (wait_loop _ _ _ _); [|discriminate].
    now injection Hrun as _ <-. }
  pose proof (run_frames_complete w (feeder_env env) (cursor_frame j) chunk
                Hsize Hchunk ltac:(lia) Hheld) as Hall.
  rewrite <- Hfeeder in Hall. specialize (Hall Hfin).
  assert (Hstart : start_frame feeder = cursor_frame j)
    by (rewrite Hfeeder; apply run_start_frame).
  assert (Hsub : sub_session k w (nframes w) rate chunk env j
                 = Some (Ok {| dedup := fst c;
                               cursor_frame := nframes w;
                               restarts := restarts j;
                               backoff_s := backoff_s j;
                               effects := effects j ++
                                 [SubSession (restarts j) (cursor_frame j)] |})).
  { unfold sub_session. rewrite Hbase, Hsdk, Hrun. unfold settle, decide_restart.
    rewrite Herr, Hneed, Hfin, Hall, Z.min_id, Hstart. cbn [negb andb].
    rewrite andb_false_r. now rewrite Hneed. }
  rewrite (supervise_step _ _ _ _ _ _ envs _ _ (proj2 Hcur) Hsub).
  destruct envs; cbn [supervise cursor_frame]; now rewrite Z.ltb_irrefl.
Qed.

Lemma clean_sub_session_ends_job_witness :
  supervise default_knobs (wav16k 320000) 320000 16000 1600 [demo_session_2]
    demo_restarted
  = Some (Ok demo_final).
Proof.
  exact (clean_sub_session_ends_job default_knobs (wav16k 320000) 16000 1600
             demo_session_2 [] demo_restarted (round_int 9)
             (fst demo_session_2_end) (snd demo_session_2_end)
             ltac:(cbn; lia) ltac:(lia)
             ltac:(unfold holds_declared_frames; cbn; lia) ltac:(cbn; lia)
             ltac:(vm_compute; reflexivity) eq_refl
             ltac:(vm_compute; reflexivity) eq_refl eq_refl eq_refl).
Defined.

(** ** A feeder that is left alone *)

(** X10: a feeder that meets no fault and finds the stop signal set at
    its iteration number [t] has sent [t] chunks, or the whole frames that
    are left in the file when that is less.  It reports [finished] only
    when one of its reads found nothing left, that is when [t - 1] chunks
    hold all the bytes that are left: a feeder stopped just after it has
    sent the last frame does not report it.  On a file cut short it has
    sent what the file holds, not what the header declares. *)
Theorem feeder_left_alone :
  forall (w : Wav) (start chunk : Z) (t : nat),
    1 <= nchannels w * sampwidth w -> 1 <= chunk ->
    0 <= start <= nframes w ->
    frames_sent (fst (run w (silent_feeder t) (new_feeder start chunk)))
    = Z.min (Z.of_nat t * chunk)
            (bytes_left w start / (nchannels w * sampwidth w)) /\
    finished (fst (run w (silent_feeder t) (new_feeder start chunk)))
    = (bytes_left w start
       <=? (Z.of_nat t - 1) * (chunk * (nchannels w * sampwidth w))) /\
    error (fst (run w (silent_feeder t) (new_feeder start chunk))) = None /\
    (holds_declared_frames w ->
     bytes_left w start / (nchannels w * sampwidth w) = nframes w - start).
Proof.
  intros w start chunk t Hsize Hchunk Hstart.
  assert (Hq : Forall quiet (repeat quiet_tick t))
    by (apply Forall_forall; intros x Hx; apply repeat_spec in Hx; subst x;
        repeat split).
  destruct (run_try_quiet w (silent_feeder t) start chunk
              (repeat quiet_tick t)
              [{| stop_is_set := true; read_fault := None;
                  write_fault := None |}]
              Hsize Hchunk Hstart eq_refl eq_refl Hq)
    as (f' & _ & _ & He & Hfr & Hrun).
  rewrite repeat_length in Hfr, Hrun.
  rewrite run_after_try.
  split; [|split; [|split]].
  - destruct (_ <=? _); destruct Hrun as [-> _]; cbn; exact Hfr.
  - destruct (_ <=? _); destruct Hrun as [-> Hf]; cbn; exact Hf.
  - destruct (_ <=? _); destruct Hrun as [-> _]; cbn; exact He.
  - intros Hheld. unfold bytes_left.
    assert (Hds : nchannels w * sampwidth w * nframes w <= data_size w)
      by (unfold nframes; apply Z.mul_div_le; lia).
    pose proof (readable_frames w Hsize) as Hle.
    assert (Hge : nframes w <= readable w / (nchannels w * sampwidth w)).
    { apply Z.div_le_lower_bound; [lia|].
      unfold holds_declared_frames in Hheld. unfold readable. lia. }
    assert (Hr : start * (nchannels w * sampwidth w) <= readable w).
    { assert (nchannels w * sampwidth w * (readable w / (nchannels w * sampwidth w))
              <= readable w) by (apply Z.mul_div_le; lia).
      nia. }
    rewrite Z.max_r by lia.
    replace (readable w - start * (nchannels w * sampwidth w))
      with (readable w + (- start) * (nchannels w * sampwidth w)) by lia.
    rewrite Z.div_add by lia. lia.
Qed.

Lemma feeder_left_alone_witness :
  frames_sent (fst (run (wav16k 3200) (silent_feeder 2) (new_feeder 0 1600)))
  = 3200 /\
  finished (fst (run (wav16k 3200) (silent_feeder 2) (new_feeder 0 1600)))
  = false /\
  frames_sent (fst (run short_wav (silent_feeder 20) (new_feeder 0 1600)))
  = 8000 /\
  finished (fst (run short_wav (silent_feeder 20) (new_feeder 0 1600)))
  = true.
Proof.
  destruct (feeder_left_alone (wav16k 3200) 0 1600 2
              ltac:(cbn; lia) ltac:(lia) ltac:(cbn; lia))
    as (Hsent & Hfin & _).
  destruct (feeder_left_alone short_wav 0 1600 20
              ltac:(cbn; lia) ltac:(lia) ltac:(cbn; lia))
    as (Hsent' & Hfin' & _).
  repeat split; assumption.
Defined.

(** ** Hangs *)

(** X11: while the recogniser is silent, the polling loop goes on as long as
    every poll finds the last activity no older than the hang timeout, and
    ends, asking for a restart with the reason [hang_timeout], at the first
    poll that finds it older: the test is strict. *)
Theorem hang_is_declared_after_timeout :
  forall (k : Knobs) (base : float) (polls : list float) (d : Dedup)
         (s : Session),
    done s = false ->
    wait_loop k base (map silent_round polls) (d, s)
    = if existsb (fun t => flt (HANG_TIMEOUT_S k) (fsub t (last_activity s)))
           polls
      then Some (d, hang_timeout s)
      else None.
Proof.
  intros k base polls d s Hdone.
  destruct (existsb _ polls) eqn:Hex; [now apply wait_loop_silent|].
  induction polls as [|t polls IH]; cbn [map wait_loop snd fst];
    rewrite Hdone; [reflexivity|].
  cbn [silent_round during_sleep now before_test deliver_all fold_left snd fst].
  cbn [existsb] in Hex. apply orb_false_elim in Hex. destruct Hex as [Ht Hrest].
  rewrite Ht. now apply IH.
Qed.

Lemma hang_is_declared_after_timeout_witness :
  wait_loop default_knobs (round_int 0)
    (map silent_round [round_int 1045; round_int 1046]) (demo_dedup, demo_session)
  = Some (demo_dedup, hang_timeout demo_session).
Proof.
  apply (hang_is_declared_after_timeout default_knobs (round_int 0)
           [round_int 1045; round_int 1046] demo_dedup demo_session eq_refl).
Defined.

(** ** The transcript only grows *)

Lemma accept_appends k base evt d0 d :
  (exists more, transcription_results d = transcription_results d0 ++ more) ->
  exists more,
    transcription_results (accept k base evt d)
    = transcription_results d0 ++ more.
Proof.
  intros (more & Hmore).
  destruct (accept_cases k base evt d) as [-> | (r & le & seg & _ & _ & _ & _ &
    _ & _ & _ & -> & _)]; [now exists more|].
  exists (more ++ [seg]). now rewrite Hmore, app_assoc.
Qed.

(** X12: segments are only ever appended: the transcript at any point of a
    job begins with the transcript at every earlier point, whatever the
    callbacks, the restarts and the sub-sessions in between, and the
    transcript returned begins with each of them. *)
Theorem transcript_is_append_only :
  (forall (k : Knobs) (base : float) (cbs : list Callback) (c : Dedup * Session),
      exists more : list TranscriptSegment,
        transcription_results (fst (deliver_all k base cbs c))
        = transcription_results (fst c) ++ more) /\
  (forall (k : Knobs) (w : Wav) (total_frames rate chunk_frames : Z)
          (j j' : Job),
      reaches k w total_frames rate chunk_frames j j' ->
      exists more : list TranscriptSegment,
        transcription_results (dedup j')
        = transcription_results (dedup j) ++ more).
Proof.
  split.
  - intros k base cbs c.
    apply (deliver_all_keeps k
             (fun d => exists more, transcription_results d
                                    = transcription_results (fst c) ++ more)
             (fun base evt d => accept_appends k base evt (fst c) d)).
    exists []. now rewrite app_nil_r.
  - intros k w tf rate chunk j j' Hreach.
    induction Hreach as [|j1 j2 _ IH [_ [env Hsub]]].
    + exists []. now rewrite app_nil_r.
    + exact (sub_session_keeps k
               (fun d => exists more, transcription_results d
                                      = transcription_results (dedup j) ++ more)
               (fun base evt d => accept_appends k base evt (dedup j) d)
               _ _ _ _ _ _ _ Hsub IH).
Qed.

(** ** Rounding to nearest

    What [binary_round_aux] returns for a mantissa that is not too short
    for its exponent. *)

Lemma valid_finite s m e :
  valid (S754_finite s m e) = true <->
  Z.max (Zpos (digits2_pos m) + e - 53) (-1074) = e /\ e <= 971.
Proof.
  unfold valid, valid_binary, bounded, canonical_mantissa.
  rewrite andb_true_iff, Z.eqb_eq, Z.leb_le, fexp_eq.
  unfold emax, prec. lia.
Qed.

Lemma Zdigits2_lower m : 0 < m -> 2 ^ (Zdigits2 m - 1) <= m.
Proof.
  destruct m as [|p|p]; try lia. intros _. cbn [Zdigits2].
  pose proof (digits2_pos_lower p) as H.
  replace (Zpos (digits2_pos p)) with (1 + (Zpos (digits2_pos p) - 1)) in H by lia.
  rewrite Z.pow_add_r in H by lia. lia.
Qed.

Lemma Zdigits2_ge m n : 2 ^ (n - 1) <= m -> 0 < m -> n <= Zdigits2 m.
Proof.
  intros Hn Hm. pose proof (Zdigits2_upper m ltac:(lia)) as Hu.
  pose proof (Zdigits2_nonneg m) as Hd.
  destruct (Z.le_gt_cases n (Zdigits2 m)) as [H|H]; [assumption|].
  assert (2 ^ Zdigits2 m <= 2 ^ (n - 1)) by (apply Z.pow_le_mono_r; lia).
  lia.
Qed.

Lemma Zdigits2_div m k :
  0 < m -> 0 <= k <= Zdigits2 m -> Zdigits2 (m / 2 ^ k) = Zdigits2 m - k.
Proof.
  intros Hm Hk.
  assert (Hp : 0 < 2 ^ k) by (apply Z.pow_pos_nonneg; lia).
  pose proof (Zdigits2_upper m ltac:(lia)) as Hu.
  pose proof (Zdigits2_lower m Hm) as Hl.
  assert (Hq : m / 2 ^ k < 2 ^ (Zdigits2 m - k)).
  { apply Z.div_lt_upper_bound; [lia|].
    rewrite <- Z.pow_add_r by lia.
    now replace (k + (Zdigits2 m - k)) with (Zdigits2 m) by lia. }
  destruct (Z.eq_dec k (Zdigits2 m)) as [->|Hne].
  - rewrite Z.sub_diag in *. change (2 ^ 0) with 1 in Hq.
    assert (H0 : 0 <= m / 2 ^ Zdigits2 m) by (apply Z.div_pos; lia).
    replace (m / 2 ^ Zdigits2 m) with 0 by lia. reflexivity.
  - assert (Hq1 : 2 ^ (Zdigits2 m - k - 1) <= m / 2 ^ k).
    { apply Z.div_le_lower_bound; [lia|].
      rewrite <- Z.pow_add_r by lia.
      now replace (k + (Zdigits2 m - k - 1)) with (Zdigits2 m - 1) by lia. }
    assert (Hq0 : 0 < m / 2 ^ k).
    { assert (0 < 2 ^ (Zdigits2 m - k - 1)) by (apply Z.pow_pos_nonneg; lia).
      lia. }
    apply Z.le_antisymm.
    + apply Zdigits2_le; lia.
    + apply Zdigits2_ge; assumption.
Qed.

Lemma loc_of_shr_record_of_loc m l :
  loc_of_shr_record (shr_record_of_loc m l) = l.
Proof. destruct l as [|[]]; reflexivity. Qed.

(** The first shift of [binary_round_aux]. *)
Lemma shr_fexp_first m e l :
  0 < m -> -1074 <= e <= fexp prec emax (Zdigits2 m + e) ->
  let e1 := fexp prec emax (Zdigits2 m + e) in
  let q := m / 2 ^ (e1 - e) in
  snd (shr_fexp prec emax m e l) = e1 /\
  shr_m (fst (shr_fexp prec emax m e l)) = q /\
  0 < q /\
  fexp prec emax (Zdigits2 q + e1) = e1 /\
  (e < e1 -> 2 ^ 52 <= q) /\
  (e = e1 -> loc_of_shr_record (fst (shr_fexp prec emax m e l)) = l) /\
  (l = loc_Exact -> m mod 2 ^ (e1 - e) = 0 ->
   loc_of_shr_record (fst (shr_fexp prec emax m e l)) = loc_Exact).
Proof.
  intros Hm He e1 q. unfold shr_fexp, shr. fold e1.
  pose proof (Zdigits2_nonneg m) as Hd.
  assert (He1 : e1 = Z.max (Zdigits2 m + e - 53) (-1074)) by reflexivity.
  destruct (e1 - e) as [|k|k] eqn:Hk; try lia; cbn [fst snd].
  - assert (Hq : q = m) by (unfold q; apply Z.div_1_r).
    rewrite shr_record_of_loc_m, loc_of_shr_record_of_loc, Hq.
    repeat split; try lia; try reflexivity; try (intros; assumption).
    replace e1 with e by lia. rewrite fexp_eq. lia.
  - assert (Hnormal : e1 = Zdigits2 m + e - 53) by lia.
    assert (Hdq : Zdigits2 q = 53).
    { unfold q. rewrite Zdigits2_div by lia. lia. }
    pose proof (Zdigits2_lower q) as Hl.
    assert (Hq0 : 0 < q).
    { assert (0 <= q)
        by (unfold q; apply Z.div_pos; [lia|apply Z.pow_pos_nonneg; lia]).
      destruct (Z.eq_dec q 0) as [H0|H0]; [rewrite H0 in Hdq; discriminate|lia]. }
    rewrite iter_shr_1_m by (rewrite shr_record_of_loc_m; lia).
    rewrite shr_record_of_loc_m.
    split; [lia|]. split; [reflexivity|]. split; [assumption|].
    split; [rewrite Hdq, fexp_eq; lia|].
    split; [intros _; specialize (Hl Hq0); rewrite Hdq in Hl; exact Hl|].
    split; [lia|].
    intros -> Hmod.
    assert (Hmq : m = q * 2 ^ Zpos k).
    { unfold q.
      pose proof (Z.div_mod m (2 ^ Zpos k)
                    ltac:(apply Z.pow_nonzero; lia)) as H.
      lia. }
    cbn [shr_record_of_loc]. rewrite Hmq at 1.
    rewrite iter_shr_1_exact by lia. reflexivity.
Qed.

(** The second shift of [binary_round_aux], after a carry. *)
Lemma shr_fexp_second m1 e1 :
  0 < m1 -> -1074 <= e1 ->
  fexp prec emax (Zdigits2 m1 + e1) = e1 \/
  fexp prec emax (Zdigits2 m1 + e1) = e1 + 1 /\ m1 = 2 ^ 53 ->
  exists m' e',
    shr_m (fst (shr_fexp prec emax m1 e1 loc_Exact)) = Zpos m' /\
    snd (shr_fexp prec emax m1 e1 loc_Exact) = e' /\
    fexp prec emax (Zpos (digits2_pos m') + e') = e' /\
    Zpos m' * 2 ^ (e' + 1074) = m1 * 2 ^ (e1 + 1074).
Proof.
  intros Hm He [Hkeep|[Hcarry ->]]; unfold shr_fexp.
  - rewrite Hkeep, Z.sub_diag. cbn [shr fst snd shr_record_of_loc shr_m].
    destruct m1 as [|p|p]; try lia.
    exists p, e1. repeat split. exact Hkeep.
  - rewrite Hcarry. replace (e1 + 1 - e1) with 1 by lia.
    cbn [shr fst snd shr_record_of_loc].
    exists (2 ^ 52)%positive, (e1 + 1). repeat split.
    + rewrite fexp_eq. cbn [digits2_pos Pos.pow]. 
      change (Zpos (digits2_pos (2 ^ 52))) with 53. lia.
    + replace (e1 + 1 + 1074) with (1 + (e1 + 1074)) by lia.
      rewrite Z.pow_add_r by lia.
      change (Zpos (2 ^ 52)) with (2 ^ 52). change (2 ^ 53) with (2 ^ 52 * 2 ^ 1).
      ring.
Qed.

(** The float [binary_round_aux] returns: in standard form, and worth a
    mantissa next to the quotient of the shift. *)
Lemma binary_round_aux_shape s m e l :
  0 < m -> -1074 <= e <= fexp prec emax (Zdigits2 m + e) ->
  exists m1 m' e',
    m / 2 ^ (fexp prec emax (Zdigits2 m + e) - e) <= m1
      <= m / 2 ^ (fexp prec emax (Zdigits2 m + e) - e) + 1 /\
    (l = loc_Exact -> m mod 2 ^ (fexp prec emax (Zdigits2 m + e) - e) = 0 ->
     m1 = m / 2 ^ (fexp prec emax (Zdigits2 m + e) - e)) /\
    (e < fexp prec emax (Zdigits2 m + e) ->
     2 ^ 52 <= m / 2 ^ (fexp prec emax (Zdigits2 m + e) - e)) /\
    fexp prec emax (Zpos (digits2_pos m') + e') = e' /\
    Zpos m' * 2 ^ (e' + 1074)
    = m1 * 2 ^ (fexp prec emax (Zdigits2 m + e) + 1074) /\
    binary_round_aux prec emax s m e l
    = if e' <=? 971 then S754_finite s m' e' else S754_infinity s.
Proof.
  intros Hm He.
  destruct (shr_fexp_first m e l Hm He) as (H1 & H2 & Hq0 & Hfq & Hbig & Hloc0 & Hloc).
  set (e1 := fexp prec emax (Zdigits2 m + e)) in *.
  set (q := m / 2 ^ (e1 - e)) in *.
  unfold binary_round_aux.
  destruct (shr_fexp prec emax m e l) as [mrs' e1'] eqn:Hfirst.
  cbn [fst snd] in *. subst e1'.
  pose proof (round_nearest_even_bounds (shr_m mrs') (loc_of_shr_record mrs'))
    as Hr.
  set (m1 := round_nearest_even (shr_m mrs') (loc_of_shr_record mrs')) in *.
  rewrite H2 in Hr.
  assert (He1 : -1074 <= e1) by (unfold e1; rewrite fexp_eq; lia).
  assert (Hstage : fexp prec emax (Zdigits2 m1 + e1) = e1 \/
                   fexp prec emax (Zdigits2 m1 + e1) = e1 + 1 /\ m1 = 2 ^ 53).
  { pose proof (Zdigits2_mono q m1 ltac:(lia)) as Hd1.
    assert (Hd2 : Zdigits2 m1 <= Zdigits2 q + 1).
    { destruct (Z.eq_dec m1 q) as [->|Hne]; [lia|].
      replace m1 with (q + 1) by lia. apply Zdigits2_succ. lia. }
    pose proof (Zdigits2_upper q ltac:(lia)) as Hu.
    pose proof (Zdigits2_lower m1 ltac:(lia)) as Hl.
    rewrite fexp_eq in Hfq. rewrite fexp_eq.
    destruct (Z.eq_dec (Zdigits2 m1) (Zdigits2 q)) as [Heq|Hne];
      [left; lia|].
    assert (Hd : Zdigits2 m1 = Zdigits2 q + 1) by lia.
    destruct (Z.eq_dec (Zdigits2 q) 53) as [H53|H53]; [|left; lia].
    right. split; [lia|].
    rewrite Hd, H53 in Hl. rewrite H53 in Hu.
    change (53 + 1 - 1) with 53 in Hl. lia. }
  destruct (shr_fexp_second m1 e1 ltac:(lia) He1 Hstage)
    as (m' & e' & Hm' & He' & Hcanon & Hvalue).
  destruct (shr_fexp prec emax m1 e1 loc_Exact) as [mrs'' e''].
  cbn [fst snd] in *. subst e''. rewrite Hm'.
  exists m1, m', e'. repeat split; try lia; try assumption.
  intros Hl Hmod. unfold m1. rewrite (Hloc Hl Hmod), H2. reflexivity.
Qed.

(** A float in standard form that is at most the number rounded is at
    most its rounding, and one that is at least the number is at least
    its rounding: the arithmetic of both facts. *)
Lemma rounding_keeps_order m e e1 m1 my ey :
  0 < m -> -1074 <= e <= e1 ->
  (e < e1 -> 2 ^ 52 <= m / 2 ^ (e1 - e)) ->
  0 < my < 2 ^ 53 -> -1074 <= ey ->
  (m / 2 ^ (e1 - e) <= m1 ->
   my * 2 ^ (ey + 1074) <= m * 2 ^ (e + 1074) ->
   my * 2 ^ (ey + 1074) <= m1 * 2 ^ (e1 + 1074)) /\
  (m1 <= m / 2 ^ (e1 - e) + 1 ->
   (m mod 2 ^ (e1 - e) = 0 -> m1 = m / 2 ^ (e1 - e)) ->
   m * 2 ^ (e + 1074) <= my * 2 ^ (ey + 1074) ->
   m1 * 2 ^ (e1 + 1074) <= my * 2 ^ (ey + 1074)).
Proof.
  intros Hm He Hbig Hmy Hey.
  remember (e1 - e) as k eqn:Hk0.
  remember (2 ^ k) as K eqn:HK0.
  remember (m / K) as q eqn:Hq.
  remember (m mod K) as r eqn:Hr.
  remember (2 ^ (e + 1074)) as A eqn:HA0.
  assert (HA : 0 < A) by (subst A; apply Z.pow_pos_nonneg; lia).
  assert (HK : 0 < K) by (subst K; apply Z.pow_pos_nonneg; lia).
  assert (HE : 2 ^ (e1 + 1074) = K * A).
  { subst K A. rewrite <- Z.pow_add_r by lia. f_equal. lia. }
  pose proof (Z.div_mod m K ltac:(lia)) as Hdiv. rewrite <- Hq, <- Hr in Hdiv.
  pose proof (Z.mod_pos_bound m K HK) as Hrem. rewrite <- Hr in Hrem.
  assert (Hq0 : 0 <= q) by (subst q; apply Z.div_pos; lia).
  assert (HK1 : e = e1 -> K = 1).
  { intros Heq. subst K k. rewrite Heq, Z.sub_diag. reflexivity. }
  rewrite HE.
  assert (Hsmall : ey < e1 -> e < e1 ->
                   my * 2 ^ (ey + 1074) < q * (K * A)).
  { intros Hlt Hk. specialize (Hbig Hk).
    assert (2 ^ (ey + 1074) * 2 <= K * A).
    { rewrite <- HE. change 2 with (2 ^ 1) at 2.
      rewrite <- Z.pow_add_r by lia. apply Z.pow_le_mono_r; lia. }
    assert (0 < 2 ^ (ey + 1074)) by (apply Z.pow_pos_nonneg; lia).
    change (2 ^ 53) with (2 ^ 52 * 2) in Hmy. nia. }
  assert (Hgrid : e1 <= ey ->
                  2 ^ (ey + 1074) = 2 ^ (ey - e1) * (K * A)).
  { intros Hle. rewrite <- HE, <- Z.pow_add_r by lia. f_equal. lia. }
  assert (HKA : 0 < K * A) by lia.
  assert (Hpos : e1 <= ey -> 0 < 2 ^ (ey - e1))
    by (intros; apply Z.pow_pos_nonneg; lia).
  split.
  - intros Hm1 Hle.
    apply (Z.le_trans _ (q * (K * A))); [|nia].
    destruct (Z.eq_dec e e1) as [Heq|Hne].
    + rewrite (HK1 Heq) in *. nia.
    + destruct (Z.lt_ge_cases ey e1) as [Hlt|Hge];
        [specialize (Hsmall Hlt ltac:(lia)); lia|].
      rewrite (Hgrid Hge) in *.
      remember (my * 2 ^ (ey - e1)) as c eqn:Hc0.
      replace (my * (2 ^ (ey - e1) * (K * A))) with (c * (K * A)) in *
        by (subst c; ring).
      assert (Hc : c * (K * A) < (q + 1) * (K * A)) by nia.
      apply Z.mul_lt_mono_pos_r in Hc; [|assumption]. nia.
  - intros Hm1 Hexact Hle.
    destruct (Z.eq_dec r 0) as [Hr0|Hr0].
    + rewrite (Hexact Hr0). nia.
    + assert (Hk : e < e1).
      { destruct (Z.eq_dec e e1) as [Heq|Hne]; [|lia].
        specialize (HK1 Heq). lia. }
      destruct (Z.lt_ge_cases ey e1) as [Hlt|Hge];
        [specialize (Hsmall Hlt Hk); nia|].
      rewrite (Hgrid Hge) in *.
      remember (my * 2 ^ (ey - e1)) as c eqn:Hc0.
      replace (my * (2 ^ (ey - e1) * (K * A))) with (c * (K * A)) in *
        by (subst c; ring).
      assert (Hc : q * (K * A) < c * (K * A)) by nia.
      apply Z.mul_lt_mono_pos_r in Hc; [|assumption]. nia.
Qed.

Lemma valid_finite_bounds s m e :
  valid (S754_finite s m e) = true ->
  0 < Zpos m < 2 ^ 53 /\ -1074 <= e <= 971 /\
  (-1074 < e -> 2 ^ 52 <= Zpos m).
Proof.
  intros H. apply valid_finite in H. destruct H as [Hc He].
  pose proof (digits2_pos_upper m) as Hu.
  pose proof (Zdigits2_lower (Zpos m) ltac:(lia)) as Hl. cbn [Zdigits2] in Hl.
  assert (Hd : Zpos (digits2_pos m) <= 53) by lia.
  assert (2 ^ Zpos (digits2_pos m) <= 2 ^ 53) by (apply Z.pow_le_mono_r; lia).
  repeat split; try lia.
  intros Hn. replace (Zpos (digits2_pos m)) with 53 in Hl by lia. exact Hl.
Qed.

(** Rounding a mantissa that is not too short: the float returned is in
    standard form, is not below a float of standard form that the number
    is not below, and not above one that the number is not above; it is
    the number itself when the mantissa has the right size. *)
Lemma binary_round_aux_bounds s m e :
  0 < m -> -1074 <= e <= fexp prec emax (Zdigits2 m + e) ->
  exists m' e',
    fexp prec emax (Zpos (digits2_pos m') + e') = e' /\
    binary_round_aux prec emax s m e loc_Exact
    = (if e' <=? 971 then S754_finite s m' e' else S754_infinity s) /\
    (forall my ey,
        valid (S754_finite false my ey) = true ->
        Zpos my * 2 ^ (ey + 1074) <= m * 2 ^ (e + 1074) ->
        Zpos my * 2 ^ (ey + 1074) <= Zpos m' * 2 ^ (e' + 1074)) /\
    (forall my ey,
        valid (S754_finite false my ey) = true ->
        m * 2 ^ (e + 1074) <= Zpos my * 2 ^ (ey + 1074) ->
        Zpos m' * 2 ^ (e' + 1074) <= Zpos my * 2 ^ (ey + 1074) /\ e' <= 971) /\
    (e = fexp prec emax (Zdigits2 m + e) ->
     Zpos m' * 2 ^ (e' + 1074) = m * 2 ^ (e + 1074)).
Proof.
  intros Hm He.
  destruct (binary_round_aux_shape s m e loc_Exact Hm He)
    as (m1 & m' & e' & Hm1 & Hexact & Hbig & Hcanon & Hvalue & Hres).
  exists m', e'. split; [assumption|]. split; [assumption|].
  specialize (Hexact eq_refl).
  split; [|split].
  - intros my ey Hy Hle.
    destruct (valid_finite_bounds _ _ _ Hy) as (Hmy & Hey & _).
    rewrite Hvalue.
    apply (proj1 (rounding_keeps_order m e _ m1 (Zpos my) ey Hm He Hbig Hmy
                    ltac:(lia))); [lia|assumption].
  - intros my ey Hy Hle.
    destruct (valid_finite_bounds _ _ _ Hy) as (Hmy & Hey & _).
    assert (Hbound : Zpos m' * 2 ^ (e' + 1074) <= Zpos my * 2 ^ (ey + 1074)).
    { rewrite Hvalue.
      apply (proj2 (rounding_keeps_order m e _ m1 (Zpos my) ey Hm He Hbig Hmy
                      ltac:(lia))); [lia|assumption|assumption]. }
    split; [assumption|].
    destruct (Z.le_gt_cases e' 971) as [Hok|Hover]; [assumption|exfalso].
    rewrite fexp_eq in Hcanon.
    pose proof (Zdigits2_lower (Zpos m') ltac:(lia)) as Hl.
    cbn [Zdigits2] in Hl.
    replace (Zpos (digits2_pos m')) with 53 in Hl by lia.
    change (53 - 1) with 52 in Hl.
    assert (H1 : 2 ^ (ey + 1074) <= 2 ^ (971 + 1074))
      by (apply Z.pow_le_mono_r; lia).
    assert (H2 : 2 ^ (972 + 1074) <= 2 ^ (e' + 1074))
      by (apply Z.pow_le_mono_r; lia).
    assert (H3 : 2 ^ (972 + 1074) = 2 * 2 ^ (971 + 1074)).
    { change 2 with (2 ^ 1) at 2. rewrite <- Z.pow_add_r by lia. f_equal. }
    assert (H4 : 0 < 2 ^ (971 + 1074)) by (apply Z.pow_pos_nonneg; lia).
    assert (H5 : 0 < 2 ^ (ey + 1074)) by (apply Z.pow_pos_nonneg; lia).
    change (2 ^ 53) with (2 * 2 ^ 52) in Hmy.
    assert (H6 : 0 < 2 ^ 52) by reflexivity.
    remember (2 ^ 52) as c52. remember (2 ^ (971 + 1074)) as P.
    remember (2 ^ (ey + 1074)) as Q. remember (2 ^ (e' + 1074)) as R.
    assert (Zpos my * Q < 2 * c52 * P) by nia.
    assert (2 * c52 * P <= Zpos m' * R) by nia.
    lia.
  - intros Heq. rewrite Hvalue. rewrite <- Heq in *.
    rewrite Z.sub_diag in *. change (2 ^ 0) with 1 in *.
    rewrite Z.div_1_r in *. rewrite (Hexact (Z.mod_1_r m)). reflexivity.
Qed.

Lemma binary_round_bounds s p e :
  -1074 <= e ->
  exists m' e',
    fexp prec emax (Zpos (digits2_pos m') + e') = e' /\
    binary_round prec emax s p e
    = (if e' <=? 971 then S754_finite s m' e' else S754_infinity s) /\
    (forall my ey,
        valid (S754_finite false my ey) = true ->
        Zpos my * 2 ^ (ey + 1074) <= Zpos p * 2 ^ (e + 1074) ->
        Zpos my * 2 ^ (ey + 1074) <= Zpos m' * 2 ^ (e' + 1074)) /\
    (forall my ey,
        valid (S754_finite false my ey) = true ->
        Zpos p * 2 ^ (e + 1074) <= Zpos my * 2 ^ (ey + 1074) ->
        Zpos m' * 2 ^ (e' + 1074) <= Zpos my * 2 ^ (ey + 1074) /\ e' <= 971) /\
    (Zpos (digits2_pos p) <= 53 ->
     Zpos m' * 2 ^ (e' + 1074) = Zpos p * 2 ^ (e + 1074)).
Proof.
  intros He. unfold binary_round.
  remember (fexp prec emax (Zpos (digits2_pos p) + e)) as f eqn:Hf.
  rewrite fexp_eq in Hf.
  pose proof (shl_align_size p e f) as [Hsize Hexp].
  assert (Hval : Zpos (fst (shl_align p e f)) * 2 ^ (snd (shl_align p e f) + 1074)
                 = Zpos p * 2 ^ (e + 1074)).
  { rewrite Hexp.
    destruct (Z.le_gt_cases f e) as [Hle|Hgt].
    - rewrite shl_align_fst by assumption.
      rewrite Z.min_r by assumption.
      rewrite <- Z.mul_assoc, <- Z.pow_add_r by lia.
      do 2 f_equal. lia.
    - unfold shl_align.
      destruct (f - e) eqn:Hd; try lia.
      cbn [fst]. rewrite Z.min_l by lia. reflexivity. }
  destruct (shl_align p e f) as [mz ez]. cbn [fst snd] in *.
  assert (Hez : -1074 <= ez <= fexp prec emax (Zdigits2 (Zpos mz) + ez)).
  { cbn [Zdigits2]. rewrite Hsize, Hexp. rewrite fexp_eq. lia. }
  destruct (binary_round_aux_bounds s (Zpos mz) ez ltac:(lia) Hez)
    as (m' & e' & Hcanon & Hres & Hge & Hle & Hexact).
  exists m', e'. rewrite Hval in *.
  split; [assumption|]. split; [assumption|].
  split; [assumption|]. split; [assumption|].
  intros Hd. apply Hexact.
  cbn [Zdigits2]. rewrite Hsize, Hexp. rewrite fexp_eq. lia.
Qed.


Lemma rounded_valid s m e :
  fexp prec emax (Zpos (digits2_pos m) + e) = e ->
  valid (if e <=? 971 then S754_finite s m e else S754_infinity s) = true.
Proof.
  intros H. destruct (Z.leb_spec e 971) as [Hle|Hgt]; [|reflexivity].
  apply valid_finite. rewrite fexp_eq in H. lia.
Qed.

(** ** The order of floats in standard form is that of their values *)

Lemma valid_exponent_order sx mx ex sy my ey :
  valid (S754_finite sx mx ex) = true -> valid (S754_finite sy my ey) = true ->
  ex < ey -> Zpos mx * 2 ^ (ex + 1074) < Zpos my * 2 ^ (ey + 1074).
Proof.
  intros Hx Hy Hlt.
  destruct (valid_finite_bounds _ _ _ Hx) as (Hmx & Hex & _).
  destruct (valid_finite_bounds _ _ _ Hy) as (Hmy & Hey & Hbig).
  specialize (Hbig ltac:(lia)).
  assert (H1 : 2 ^ (ex + 1074) * 2 <= 2 ^ (ey + 1074)).
  { change 2 with (2 ^ 1) at 2. rewrite <- Z.pow_add_r by lia.
    apply Z.pow_le_mono_r; lia. }
  assert (H2 : 0 < 2 ^ (ex + 1074)) by (apply Z.pow_pos_nonneg; lia).
  change (2 ^ 53) with (2 ^ 52 * 2) in Hmx. nia.
Qed.

Lemma fle_scaled x y :
  valid x = true -> valid y = true ->
  is_finite x = true -> is_finite y = true ->
  (fle x y = true <-> scaled x <= scaled y).
Proof.
  destruct x as [sx|sx| |sx mx ex], y as [sy|sy| |sy my ey]; try discriminate;
    intros Hx Hy _ _; unfold fle, SFleb; cbn [SFcompare scaled].
  - split; [lia|reflexivity].
  - assert (0 < 2 ^ (ey + 1074)).
    { destruct (valid_finite_bounds _ _ _ Hy) as (_ & Hey & _).
      apply Z.pow_pos_nonneg; lia. }
    destruct sy; cbn [cond_Zopp]; split; try discriminate; try reflexivity; lia.
  - assert (0 < 2 ^ (ex + 1074)).
    { destruct (valid_finite_bounds _ _ _ Hx) as (_ & Hex & _).
      apply Z.pow_pos_nonneg; lia. }
    destruct sx; cbn [cond_Zopp]; split; try discriminate; try reflexivity; lia.
  - assert (Hpx : 0 < 2 ^ (ex + 1074)).
    { destruct (valid_finite_bounds _ _ _ Hx) as (_ & Hex & _).
      apply Z.pow_pos_nonneg; lia. }
    assert (Hpy : 0 < 2 ^ (ey + 1074)).
    { destruct (valid_finite_bounds _ _ _ Hy) as (_ & Hey & _).
      apply Z.pow_pos_nonneg; lia. }
    pose proof (valid_exponent_order sx mx ex sy my ey Hx Hy) as Hlt.
    pose proof (valid_exponent_order sy my ey sx mx ex Hy Hx) as Hgt.
    change (Pos.compare_cont Eq mx my) with (Pos.compare mx my).
    destruct sx, sy; cbn [cond_Zopp];
      destruct (Z.compare_spec ex ey) as [Heq|Hl|Hg];
      try (split; [intros _; nia|reflexivity]);
      try (split; [discriminate|intros; nia]);
      try subst ey;
      destruct (Pos.compare_spec mx my) as [Hm|Hm|Hm]; cbn [CompOpp];
      try (split; [intros _; nia|reflexivity]);
      try (split; [discriminate|intros; nia]).
Qed.

(** ** Adding a number that is not negative *)

Lemma aligned_value m e ez :
  -1074 <= ez <= e ->
  Zpos (fst (shl_align m e ez)) * 2 ^ (ez + 1074) = Zpos m * 2 ^ (e + 1074).
Proof.
  intros H. rewrite shl_align_fst by lia.
  rewrite <- Z.mul_assoc, <- Z.pow_add_r by lia. do 2 f_equal. lia.
Qed.

(** Adding a finite number that is not negative to a float gives a float
    that is not smaller. *)
Lemma fadd_not_below x eps :
  valid x = true -> is_nan x = false ->
  valid eps = true -> is_finite eps = true -> not_negative eps = true ->
  fle x (fadd x eps) = true.
Proof.
  intros Hx Hnan Heps Hfin Hpos.
  destruct eps as [se|se| |se me ee]; try discriminate.
  - destruct x as [sx|sx| |sx mx ex]; try discriminate.
    + destruct sx, se; reflexivity.
    + destruct sx; reflexivity.
    + apply fle_refl. reflexivity.
  - destruct se; [discriminate|].
    destruct x as [sx|sx| |sx mx ex]; try discriminate.
    + reflexivity.
    + destruct sx; reflexivity.
    + destruct (valid_finite_bounds _ _ _ Hx) as (Hmx & Hex & _).
      destruct (valid_finite_bounds _ _ _ Heps) as (Hme & Hee & _).
      unfold fadd. cbn [SFadd].
      set (ez := Z.min ex ee).
      pose proof (aligned_value mx ex ez ltac:(lia)) as Hvx.
      pose proof (aligned_value me ee ez ltac:(lia)) as Hve.
      assert (Hpz : 0 < 2 ^ (ez + 1074)) by (apply Z.pow_pos_nonneg; lia).
      remember (Zpos (fst (shl_align mx ex ez))) as ax eqn:Hax.
      remember (Zpos (fst (shl_align me ee ez))) as ae eqn:Hae.
      assert (Hax0 : 0 < ax) by (subst ax; lia).
      assert (Hae0 : 0 < ae) by (subst ae; lia).
      cbn [cond_Zopp].
      destruct sx; cbn [cond_Zopp].
      * destruct (- ax + ae) as [|p|p] eqn:Hsum; cbn [binary_normalize].
        -- reflexivity.
        -- destruct (binary_round_bounds false p ez ltac:(lia))
             as (m' & e' & _ & -> & _).
           destruct (e' <=? 971); reflexivity.
        -- destruct (binary_round_bounds true p ez ltac:(lia))
             as (m' & e' & Hcanon & Hres & _ & Hle & _).
           destruct (Hle mx ex Hx ltac:(nia)) as [Hbound He'].
           pose proof (rounded_valid true m' e' Hcanon) as Hvalid.
           rewrite Hres in *.
           replace (e' <=? 971) with true in *
             by (symmetry; apply Z.leb_le; assumption).
           apply fle_scaled; try assumption; try reflexivity.
           cbn [scaled cond_Zopp]. lia.
      * destruct (ax + ae) as [|p|p] eqn:Hsum; try lia.
        cbn [binary_normalize].
        destruct (binary_round_bounds false p ez ltac:(lia))
          as (m' & e' & Hcanon & Hres & Hge & _).
        specialize (Hge mx ex Hx ltac:(nia)).
        pose proof (rounded_valid false m' e' Hcanon) as Hvalid.
        rewrite Hres in *.
        destruct (e' <=? 971); [|reflexivity].
        apply fle_scaled; try assumption; try reflexivity.
Qed.

(** ** The operations return floats in standard form *)

Lemma binary_round_aux_valid s m e l :
  0 <= m -> -1074 <= e <= fexp prec emax (Zdigits2 m + e) ->
  valid (binary_round_aux prec emax s m e l) = true.
Proof.
  intros Hm He. destruct (Z.eq_dec m 0) as [->|Hne].
  - cbn [Zdigits2] in He. rewrite fexp_eq in He.
    replace e with (-1074) by lia.
    destruct l as [|[]]; reflexivity.
  - destruct (binary_round_aux_shape s m e l ltac:(lia) He)
      as (m1 & m' & e' & _ & _ & _ & Hcanon & _ & ->).
    now apply rounded_valid.
Qed.

Lemma Zdigits2_quotient a b :
  0 <= a -> 0 < b -> Zdigits2 a - Zdigits2 b <= Zdigits2 (a / b).
Proof.
  intros Ha Hb.
  pose proof (Zdigits2_nonneg (a / b)) as Hq.
  pose proof (Zdigits2_nonneg b) as Hdb.
  destruct (Z.le_gt_cases (Zdigits2 a - Zdigits2 b) 0) as [Hle|Hgt]; [lia|].
  assert (Ha0 : 0 < a) by (destruct a; cbn in *; lia).
  pose proof (Zdigits2_lower a Ha0) as Hl.
  pose proof (Zdigits2_upper b ltac:(lia)) as Hu.
  assert (Hpow : 0 < 2 ^ (Zdigits2 a - Zdigits2 b - 1))
    by (apply Z.pow_pos_nonneg; lia).
  assert (Hlow : 2 ^ (Zdigits2 a - Zdigits2 b - 1) <= a / b).
  { apply Z.div_le_lower_bound; [assumption|].
    apply (Z.le_trans _ (2 ^ Zdigits2 b * 2 ^ (Zdigits2 a - Zdigits2 b - 1)));
      [nia|].
    rewrite <- Z.pow_add_r by lia.
    now replace (Zdigits2 b + (Zdigits2 a - Zdigits2 b - 1))
      with (Zdigits2 a - 1) by lia. }
  apply Zdigits2_ge; lia.
Qed.

Lemma SFdiv_valid sx mx ex sy my ey :
  -1074 <= ex - ey ->
  valid (SFdiv prec emax (S754_finite sx mx ex) (S754_finite sy my ey)) = true.
Proof.
  intros He. cbn [SFdiv]. unfold SFdiv_core_binary.
  remember (Z.min (fexp prec emax (Zdigits2 (Zpos mx) + ex
                                   - (Zdigits2 (Zpos my) + ey))) (ex - ey))
    as e' eqn:He'.
  rewrite fexp_eq in He'.
  remember (match ex - ey - e' with
            | 0 => Zpos mx
            | Zpos _ => Z.shiftl (Zpos mx) (ex - ey - e')
            | Zneg _ => 0
            end) as m' eqn:Hm'.
  assert (Hm : m' = Zpos mx * 2 ^ (ex - ey - e')).
  { subst m'. destruct (ex - ey - e') as [|p|p] eqn:Hs; try lia.
    now rewrite Z.shiftl_mul_pow2 by lia. }
  assert (Hpow : 0 < 2 ^ (ex - ey - e')) by (apply Z.pow_pos_nonneg; lia).
  pose proof (Z_div_mod m' (Zpos my) ltac:(lia)) as Hdiv.
  assert (Hq : fst (Z.div_eucl m' (Zpos my)) = m' / Zpos my) by reflexivity.
  destruct (Z.div_eucl m' (Zpos my)) as [q r]. cbn [fst] in Hq.
  destruct Hdiv as [Hqr Hr].
  assert (Hq0 : 0 <= q) by (rewrite Hq; apply Z.div_pos; nia).
  apply binary_round_aux_valid; [assumption|].
  split; [lia|].
  pose proof (Zdigits2_quotient m' (Zpos my) ltac:(nia) ltac:(lia)) as Hd.
  rewrite <- Hq in Hd. rewrite Hm, Zdigits2_shift in Hd by lia.
  rewrite fexp_eq. lia.
Qed.

Lemma int_truediv_valid a b x : int_truediv a b = Ok x -> valid x = true.
Proof.
  unfold int_truediv. destruct (b =? 0); [discriminate|].
  assert (H : forall a b, valid (round_frac a b) = true).
  { intros [|p|p] [|q|q]; cbn [round_frac]; try reflexivity;
      apply SFdiv_valid; lia. }
  destruct (0 <? b);
    match goal with
    | |- context [is_finite ?y] => destruct (is_finite y); [|discriminate]
    end; intros [= <-]; apply H.
Qed.

(** The float of an integer that is not zero has an exponent of -52 at
    least. *)
Lemma round_int_exponent n s m e :
  round_int n = S754_finite s m e -> -52 <= e <= 971.
Proof.
  assert (Hone : valid (S754_finite false (2 ^ 52) (-52)) = true) by reflexivity.
  assert (H : forall sg p, binary_round prec emax sg p 0 = S754_finite s m e ->
                           -52 <= e <= 971).
  { intros sg p.
    destruct (binary_round_bounds sg p 0 ltac:(lia))
      as (m' & e' & Hcanon & -> & Hge & _).
    destruct (Z.leb_spec e' 971) as [Hle|Hgt]; [|discriminate].
    intros [= _ <- <-]. split; [|assumption].
    specialize (Hge _ _ Hone).
    change (-52 + 1074) with 1022 in Hge. change (0 + 1074) with 1074 in Hge.
    assert (H1 : Zpos (2 ^ 52) * 2 ^ 1022 = 2 ^ 1074)
      by (change (Zpos (2 ^ 52)) with (2 ^ 52);
          rewrite <- Z.pow_add_r by lia; reflexivity).
    assert (Hp : 0 < 2 ^ 1074) by (apply Z.pow_pos_nonneg; lia).
    rewrite H1 in Hge. specialize (Hge ltac:(nia)).
    pose proof (digits2_pos_upper m') as Hu.
    rewrite fexp_eq in Hcanon.
    assert (Hd : Zpos (digits2_pos m') <= 53) by lia.
    assert (Hm : Zpos m' < 2 ^ 53).
    { apply (Z.lt_le_trans _ _ _ Hu). apply Z.pow_le_mono_r; lia. }
    destruct (Z.le_gt_cases (-52) e') as [Hok|Hsmall]; [assumption|exfalso].
    assert (H2 : 2 ^ (e' + 1074) * 2 ^ 53 <= 2 ^ 1074).
    { rewrite <- Z.pow_add_r by lia. apply Z.pow_le_mono_r; lia. }
    assert (H3 : 0 < 2 ^ (e' + 1074)) by (apply Z.pow_pos_nonneg; lia).
    nia. }
  destruct n as [|p|p]; unfold round_int; cbn [binary_normalize];
    [discriminate| |]; apply H.
Qed.

Lemma round_int_valid n : valid (round_int n) = true.
Proof.
  destruct n as [|p|p]; unfold round_int; cbn [binary_normalize];
    [reflexivity| |].
  - destruct (binary_round_bounds false p 0 ltac:(lia))
      as (m' & e' & Hcanon & -> & _). now apply rounded_valid.
  - destruct (binary_round_bounds true p 0 ltac:(lia))
      as (m' & e' & Hcanon & -> & _). now apply rounded_valid.
Qed.

(** The base offset of a sub-session is a float in standard form. *)
Lemma session_base_valid base : session_base base -> valid base = true.
Proof.
  intros (n & d & H). revert H. unfold int_div_float_of, float_of_int.
  destruct (is_finite (round_int d)) eqn:Hfd; cbn [bind]; [|discriminate].
  destruct (is_finite (round_int n)) eqn:Hfn; cbn [bind]; [|discriminate].
  unfold float_truediv. destruct (is_zero (round_int d)) eqn:Hzd; [discriminate|].
  intros [= <-].
  destruct (round_int d) as [sd|sd| |sd md ed] eqn:Hd; try discriminate.
  destruct (round_int n) as [sn|sn| |sn mn en] eqn:Hn; try discriminate;
    [reflexivity|].
  apply SFdiv_valid.
  pose proof (round_int_exponent _ _ _ _ Hd).
  pose proof (round_int_exponent _ _ _ _ Hn). lia.
Qed.

Lemma session_bases_valid (finals : list (float * RecognitionEvent)) :
  Forall (fun f => session_base (fst f)) finals ->
  Forall (fun f => valid (fst f) = true) finals.
Proof.
  intros H. eapply Forall_impl; [|exact H].
  intros f. apply session_base_valid.
Qed.

Lemma fadd_valid x y :
  valid x = true -> valid y = true -> valid (fadd x y) = true.
Proof.
  destruct x as [sx|sx| |sx mx ex], y as [sy|sy| |sy my ey];
    intros Hx Hy; unfold fadd; cbn [SFadd]; try assumption; try reflexivity;
    try (destruct sx, sy; reflexivity).
  destruct (valid_finite_bounds _ _ _ Hx) as (_ & Hex & _).
  destruct (valid_finite_bounds _ _ _ Hy) as (_ & Hey & _).
  destruct (_ + _) as [|p|p]; cbn [binary_normalize]; [reflexivity| |].
  - destruct (binary_round_bounds false p (Z.min ex ey) ltac:(lia))
      as (m' & e' & Hcanon & -> & _).
    now apply rounded_valid.
  - destruct (binary_round_bounds true p (Z.min ex ey) ltac:(lia))
      as (m' & e' & Hcanon & -> & _).
    now apply rounded_valid.
Qed.

(** ** The ends of the accepted segments *)

Lemma flt_irrefl x : flt x x = false.
Proof.
  destruct (is_nan x) eqn:Hnan.
  - destruct x; try discriminate. reflexivity.
  - unfold flt, SFltb. now rewrite (SFcompare_rank x x Hnan Hnan), lex3_refl.
Qed.

(** With base offsets in standard form, so is the watermark. *)
Lemma accept_valid_watermark k base evt d :
  valid base = true ->
  valid (accepted_last_end_s d) = true ->
  valid (accepted_last_end_s (accept k base evt d)) = true.
Proof.
  intros Hbase Hw.
  destruct (accept_cases k base evt d) as [-> | (r & le & seg & _ & _ & Hle & _ &
    _ & _ & _ & _ & ->)]; [assumption|].
  unfold fmax. destruct (flt _ _); [|assumption].
  apply fadd_valid; [|assumption]. exact (int_truediv_valid _ _ _ Hle).
Qed.

Lemma process_valid_watermark k finals :
  Forall (fun f => valid (fst f) = true) finals ->
  forall d,
    valid (accepted_last_end_s d) = true ->
    valid (accepted_last_end_s (process k finals d)) = true.
Proof.
  unfold process.
  induction 1 as [|f finals Hf _ IH]; intros d Hd; cbn [fold_left];
    [assumption|].
  apply IH. now apply accept_valid_watermark.
Qed.

(** The watermark of a job is at most itself plus epsilon. *)
Lemma watermark_below_threshold k finals :
  valid (DEDUP_EPS_S k) = true -> is_finite (DEDUP_EPS_S k) = true ->
  not_negative (DEDUP_EPS_S k) = true ->
  Forall (fun f => valid (fst f) = true) finals ->
  fle (accepted_last_end_s (process k finals (dedup initial_job)))
      (fadd (accepted_last_end_s (process k finals (dedup initial_job)))
            (DEDUP_EPS_S k)) = true.
Proof.
  intros Hv Hf Hn Hall.
  apply fadd_not_below; try assumption.
  - apply process_valid_watermark; [assumption|reflexivity].
  - assert (H0 : watermark_from (accepted_last_end_s (dedup initial_job))
                   (process k finals (dedup initial_job)))
      by (apply process_watermark; reflexivity).
    now destruct (fle_not_nan _ _ H0).
Qed.

Lemma later_end_is_greater k pre1 base1 evt1 seg1 pre2 base evt seg :
  valid (DEDUP_EPS_S k) = true -> is_finite (DEDUP_EPS_S k) = true ->
  not_negative (DEDUP_EPS_S k) = true ->
  Forall (fun f => valid (fst f) = true) (pre1 ++ (base1, evt1) :: pre2) ->
  transcription_results
    (accept k base1 evt1 (process k pre1 (dedup initial_job)))
  = transcription_results (process k pre1 (dedup initial_job)) ++ [seg1] ->
  transcription_results
    (accept k base evt
       (process k (pre1 ++ (base1, evt1) :: pre2) (dedup initial_job)))
  = transcription_results
      (process k (pre1 ++ (base1, evt1) :: pre2) (dedup initial_job)) ++ [seg] ->
  exists end1 end2,
    seg_end_s_of base1 evt1 = Some end1 /\
    seg_end_s_of base evt = Some end2 /\
    flt end1 end2 = true.
Proof.
  intros Hv Hf Hn Hall Hacc1 Hacc.
  destruct (accept_end_not_nan _ _ _ _ _ Hacc1) as (e1 & He1 & Hnan1 & _ & Hw1).
  destruct (accept_end_not_nan _ _ _ _ _ Hacc) as (e2 & He2 & Hnan2 & Hgt & _).
  exists e1, e2. split; [assumption|]. split; [assumption|].
  pose proof (watermark_below_threshold k _ Hv Hf Hn Hall) as Hstep.
  assert (Hbelow : fle e1 (accepted_last_end_s
                             (process k (pre1 ++ (base1, evt1) :: pre2)
                                (dedup initial_job))) = true).
  { rewrite process_app. cbn [process fold_left fst snd].
    change (fold_left _ pre2 ?d) with (process k pre2 d).
    apply process_watermark. unfold watermark_from. rewrite Hw1.
    apply fmax_ge_r; [|assumption].
    assert (H0 : watermark_from (accepted_last_end_s (dedup initial_job))
                   (process k pre1 (dedup initial_job)))
      by (apply process_watermark; reflexivity).
    now destruct (fle_not_nan _ _ H0). }
  destruct (flt e1 e2) eqn:Hlt; [reflexivity|exfalso].
  pose proof (fle_total e1 e2 Hnan1 Hnan2 Hlt) as Hle.
  rewrite (fle_trans _ _ _ Hle (fle_trans _ _ _ Hbelow Hstep)) in Hgt.
  discriminate.
Qed.

(** X13: with an epsilon that is a number and not negative, the global ends
    of the accepted segments increase strictly in the order of acceptance:
    an event that is accepted ends later than every event accepted before
    it in the job. *)
Theorem accepted_ends_increase :
  forall (k : Knobs) (pre1 : list (float * RecognitionEvent)) (base1 : float)
         (evt1 : RecognitionEvent) (seg1 : TranscriptSegment)
         (pre2 : list (float * RecognitionEvent)) (base : float)
         (evt : RecognitionEvent) (seg : TranscriptSegment),
    valid (DEDUP_EPS_S k) = true -> is_finite (DEDUP_EPS_S k) = true ->
    not_negative (DEDUP_EPS_S k) = true ->
    Forall (fun f => session_base (fst f)) (pre1 ++ (base1, evt1) :: pre2) ->
    transcription_results
      (accept k base1 evt1 (process k pre1 (dedup initial_job)))
    = transcription_results (process k pre1 (dedup initial_job)) ++ [seg1] ->
    transcription_results
      (accept k base evt
         (process k (pre1 ++ (base1, evt1) :: pre2) (dedup initial_job)))
    = transcription_results
        (process k (pre1 ++ (base1, evt1) :: pre2) (dedup initial_job)) ++ [seg] ->
    exists end1 end2 : float,
      seg_end_s_of base1 evt1 = Some end1 /\
      seg_end_s_of base evt = Some end2 /\
      flt end1 end2 = true.
Proof.
  intros k pre1 base1 evt1 seg1 pre2 base evt seg Hv Hf Hn Hall.
  apply later_end_is_greater; try assumption.
  now apply session_bases_valid.
Qed.

Lemma accepted_ends_increase_witness :
  exists end1 end2 : float,
    seg_end_s_of (round_int 0) (speech 80000000 10000000 "one") = Some end1 /\
    seg_end_s_of (round_int 9) (speech 0 30000000 "two and three") = Some end2 /\
    flt end1 end2 = true.
Proof.
  apply (accepted_ends_increase default_knobs
           [] (round_int 0) (speech 80000000 10000000 "one")
           {| speaker_id := Some (lit "Guest-1"); text := lit "one";
              offset := 80000000; duration := 10000000 |}
           [(round_int 0, speech 95000000 5000000 "two")]
           (round_int 9) (speech 0 30000000 "two and three")
           {| speaker_id := Some (lit "Guest-1"); text := lit "two and three";
              offset := 90000000; duration := 30000000 |});
    try reflexivity.
  repeat constructor; now exists 0, 16000.
Defined.

(** X14: an event that has been accepted is not accepted again: delivered
    once more with the same base offset, at once or after other events, it
    leaves the segment list and the watermark as they are.  So delivering a
    final event twice in a row is the same as delivering it once. *)
Theorem accepted_event_is_not_repeated :
  forall (k : Knobs),
    valid (DEDUP_EPS_S k) = true -> is_finite (DEDUP_EPS_S k) = true ->
    not_negative (DEDUP_EPS_S k) = true ->
    (forall (pre1 : list (float * RecognitionEvent)) (base : float)
            (evt : RecognitionEvent) (seg : TranscriptSegment)
            (pre2 : list (float * RecognitionEvent)),
        Forall (fun f => session_base (fst f)) (pre1 ++ (base, evt) :: pre2) ->
        transcription_results
          (accept k base evt (process k pre1 (dedup initial_job)))
        = transcription_results (process k pre1 (dedup initial_job)) ++ [seg] ->
        accept k base evt
          (process k (pre1 ++ (base, evt) :: pre2) (dedup initial_job))
        = process k (pre1 ++ (base, evt) :: pre2) (dedup initial_job)) /\
    (forall (pre : list (float * RecognitionEvent)) (base : float)
            (evt : RecognitionEvent),
        Forall (fun f => session_base (fst f)) (pre ++ [(base, evt)]) ->
        process k (pre ++ [(base, evt); (base, evt)]) (dedup initial_job)
        = process k (pre ++ [(base, evt)]) (dedup initial_job)).
Proof.
  intros k Hv Hf Hn.
  assert (Hfirst : forall pre1 base evt seg pre2,
             Forall (fun f => session_base (fst f)) (pre1 ++ (base, evt) :: pre2) ->
             transcription_results
               (accept k base evt (process k pre1 (dedup initial_job)))
             = transcription_results (process k pre1 (dedup initial_job)) ++ [seg] ->
             accept k base evt
               (process k (pre1 ++ (base, evt) :: pre2) (dedup initial_job))
             = process k (pre1 ++ (base, evt) :: pre2) (dedup initial_job)).
  { intros pre1 base evt seg pre2 Hall Hacc1.
    destruct (accept_cases k base evt
                (process k (pre1 ++ (base, evt) :: pre2) (dedup initial_job)))
      as [Hsame | (r & le & seg' & _ & _ & _ & _ & _ & _ & _ & Hacc & _)];
      [assumption|exfalso].
    destruct (later_end_is_greater k pre1 base evt seg pre2 base evt seg'
                Hv Hf Hn (session_bases_valid _ Hall) Hacc1 Hacc)
      as (e1 & e2 & He1 & He2 & Hlt).
    rewrite He1 in He2. injection He2 as <-.
    now rewrite flt_irrefl in Hlt. }
  split; [exact Hfirst|].
  intros pre base evt Hall.
  replace (pre ++ [(base, evt); (base, evt)])
    with ((pre ++ [(base, evt)]) ++ [(base, evt)])
    by (rewrite <- app_assoc; reflexivity).
  rewrite (process_app k (pre ++ [(base, evt)])).
  cbn [process fold_left fst snd].
  change (fold_left (fun d f => accept k (fst f) (snd f) d) ?l ?d)
    with (process k l d).
  destruct (accept_cases k base evt (process k pre (dedup initial_job)))
    as [Hsame | (r & le & seg & _ & _ & _ & _ & _ & _ & _ & Hacc & _)].
  - rewrite process_app. cbn [process fold_left fst snd].
    now rewrite !Hsame.
  - exact (Hfirst pre base evt seg [] Hall Hacc).
Qed.

Lemma accepted_event_is_not_repeated_witness :
  process default_knobs
    [(round_int 0, speech 80000000 10000000 "one");
     (round_int 0, speech 80000000 10000000 "one")] (dedup initial_job)
  = process default_knobs
      [(round_int 0, speech 80000000 10000000 "one")] (dedup initial_job).
Proof.
  apply (proj2 (accepted_event_is_not_repeated default_knobs
                  eq_refl eq_refl eq_refl)
           [] (round_int 0) (speech 80000000 10000000 "one")).
  repeat constructor. now exists 0, 16000.
Defined.

(** X15: with an epsilon that is a number and not negative, the watermark is
    the global end of the event accepted last: the maximum of line 282
    always chooses the new end. *)
Theorem watermark_is_last_accepted_end :
  forall (k : Knobs) (pre : list (float * RecognitionEvent)) (base : float)
         (evt : RecognitionEvent) (seg : TranscriptSegment),
    valid (DEDUP_EPS_S k) = true -> is_finite (DEDUP_EPS_S k) = true ->
    not_negative (DEDUP_EPS_S k) = true ->
    Forall (fun f => session_base (fst f)) pre ->
    transcription_results
      (accept k base evt (process k pre (dedup initial_job)))
    = transcription_results (process k pre (dedup initial_job)) ++ [seg] ->
    seg_end_s_of base evt
    = Some (accepted_last_end_s
              (accept k base evt (process k pre (dedup initial_job)))) /\
    flt (accepted_last_end_s (process k pre (dedup initial_job)))
        (accepted_last_end_s
           (accept k base evt (process k pre (dedup initial_job)))) = true.
Proof.
  intros k pre base evt seg Hv Hf Hn Hall Hacc.
  destruct (accept_end_not_nan _ _ _ _ _ Hacc) as (ge & Hge & Hnan & Hgt & Hw).
  pose proof (watermark_below_threshold k pre Hv Hf Hn
                (session_bases_valid _ Hall)) as Hstep.
  destruct (fle_not_nan _ _ Hstep) as [Hwnan _].
  assert (Hlt : flt (accepted_last_end_s (process k pre (dedup initial_job))) ge
                = true).
  { destruct (flt _ ge) eqn:Hlt; [reflexivity|exfalso].
    pose proof (fle_total _ _ Hwnan Hnan Hlt) as Hle.
    rewrite (fle_trans _ _ _ Hle Hstep) in Hgt. discriminate. }
  rewrite Hw. unfold fmax. rewrite Hlt. split; assumption.
Qed.

Lemma watermark_is_last_accepted_end_witness :
  seg_end_s_of (round_int 9) (speech 0 30000000 "two and three")
  = Some (accepted_last_end_s
            (accept default_knobs (round_int 9)
               (speech 0 30000000 "two and three")
               (process default_knobs
                  [(round_int 0, speech 80000000 10000000 "one")]
                  (dedup initial_job)))).
Proof.
  apply (proj1 (watermark_is_last_accepted_end default_knobs
                  [(round_int 0, speech 80000000 10000000 "one")]
                  (round_int 9) (speech 0 30000000 "two and three")
                  {| speaker_id := Some (lit "Guest-1");
                     text := lit "two and three";
                     offset := 90000000; duration := 30000000 |}
                  eq_refl eq_refl eq_refl
                  ltac:(repeat constructor; now exists 0, 16000) eq_refl)).
Defined.

(** ** The size of a chunk *)

Lemma int_of_float_scaled m e :
  -1074 <= e ->
  int_of_float (S754_finite false m e)
  = Ok (Zpos m * 2 ^ (e + 1074) / 2 ^ 1074).
Proof.
  intros He. cbn [int_of_float]. f_equal.
  destruct e as [|p|p].
  - rewrite Z.shiftl_0_r. change (0 + 1074) with 1074.
    rewrite Z.div_mul; [reflexivity|]. apply Z.pow_nonzero; lia.
  - rewrite Z.shiftl_mul_pow2 by lia.
    rewrite Z.pow_add_r, Z.mul_assoc by lia.
    rewrite Z.div_mul; [reflexivity|]. apply Z.pow_nonzero; lia.
  - rewrite Z.shiftr_div_pow2 by lia.
    replace (2 ^ 1074) with (2 ^ Zpos p * 2 ^ (Zneg p + 1074))
      by (rewrite <- Z.pow_add_r by lia; f_equal; lia).
    rewrite Z.div_mul_cancel_r; [reflexivity| |];
      apply Z.pow_nonzero; lia.
Qed.

(** The float of standard form worth [M * 2 ^ e], for a mantissa of 53
    bits at most. *)
Lemma standard_form M e :
  0 < M < 2 ^ 53 -> -1021 <= e <= 971 ->
  exists my ey,
    valid (S754_finite false my ey) = true /\
    Zpos my * 2 ^ (ey + 1074) = M * 2 ^ (e + 1074).
Proof.
  intros HM He.
  pose proof (Zdigits2_nonneg M) as Hd0.
  assert (Hd : Zdigits2 M <= 53) by (apply Zdigits2_le; lia).
  assert (Hpow : 0 < 2 ^ (53 - Zdigits2 M)) by (apply Z.pow_pos_nonneg; lia).
  exists (Z.to_pos (M * 2 ^ (53 - Zdigits2 M))), (e - (53 - Zdigits2 M)).
  assert (Hpos : Zpos (Z.to_pos (M * 2 ^ (53 - Zdigits2 M)))
                 = M * 2 ^ (53 - Zdigits2 M)) by (rewrite Z2Pos.id; nia).
  split.
  - apply valid_finite.
    change (Zpos (digits2_pos ?p)) with (Zdigits2 (Zpos p)).
    rewrite Hpos, Zdigits2_shift by lia. lia.
  - rewrite Hpos, <- Z.mul_assoc, <- Z.pow_add_r by lia. do 2 f_equal. lia.
Qed.

(** X16: with the default chunk duration of 100 ms, a chunk is a tenth of
    the frames of one second, rounded down, and one frame at least: the
    float product [rate * 0.1] never falls on the wrong side of an
    integer. *)
Theorem chunk_frames_default :
  forall rate : Z,
    0 < rate < 2 ^ 32 ->
    chunk_frames_of default_knobs rate = Ok (Z.max 1 (rate / 10)).
Proof.
  intros rate Hr. unfold chunk_frames_of.
  assert (Hc : (x <- float_of_int (CHUNK_MS default_knobs) ;;
                float_truediv x (round_int 1000))
               = Ok (S754_finite false 7205759403792794 (-56)))
    by (vm_compute; reflexivity).
  rewrite Hc. cbn [bind]. unfold float_of_int.
  assert (Hr53 : 0 < rate < 2 ^ 53).
  { split; [lia|]. apply pow32_lt_pow53. lia. }
  destruct (round_int_small rate Hr53) as (mr & Hy & Hdr & Hmr).
  rewrite Hy. cbn [is_finite bind]. unfold fmul. cbn [SFmul xorb].
  set (d := Zdigits2 rate) in *.
  assert (Hd : 1 <= d <= 32).
  { split; [apply Zdigits2_ge; lia|apply Zdigits2_le; lia]. }
  change (Zpos (mr * 7205759403792794)) with (Zpos mr * 7205759403792794).
  assert (Hmr52 : 2 ^ 52 <= Zpos mr).
  { pose proof (Zdigits2_lower (Zpos mr) ltac:(lia)) as H. cbn [Zdigits2] in H.
    now rewrite Hdr in H. }
  assert (Hsize : 105 <= Zdigits2 (Zpos mr * 7205759403792794)).
  { apply Zdigits2_ge; [|lia]. change (2 ^ (105 - 1)) with (2 ^ 52 * 2 ^ 52).
    assert (2 ^ 52 <= 7205759403792794) by (vm_compute; discriminate).
    assert (0 < 2 ^ 52) by reflexivity. nia. }
  destruct (binary_round_aux_bounds false (Zpos mr * 7205759403792794)
              (d - 53 + -56) ltac:(lia)
              ltac:(rewrite fexp_eq; lia))
    as (m' & e' & Hcanon & -> & Hge & Hle & _).
  assert (Hvalue : Zpos mr * 7205759403792794 * 2 ^ (d - 53 + -56 + 1074)
                   = rate * 7205759403792794 * 2 ^ 1018).
  { rewrite Hmr.
    replace (rate * 2 ^ (53 - d) * 7205759403792794 * 2 ^ (d - 53 + -56 + 1074))
      with (rate * 7205759403792794 * (2 ^ (53 - d) * 2 ^ (d - 53 + -56 + 1074)))
      by ring.
    rewrite <- Z.pow_add_r by lia. do 2 f_equal. lia. }
  rewrite Hvalue in Hge, Hle.
  set (n := rate / 10).
  pose proof (Z.div_mod rate 10 ltac:(lia)) as Hdiv. fold n in Hdiv.
  pose proof (Z.mod_pos_bound rate 10 ltac:(lia)) as Hrem.
  assert (Hn : 0 <= n < 2 ^ 29).
  { split; [apply Z.div_pos; lia|].
    apply Z.div_lt_upper_bound; [lia|]. change (10 * 2 ^ 29) with 5368709120.
    change (2 ^ 32) with 4294967296 in Hr. lia. }
  assert (H1074 : 2 ^ 1074 = 2 ^ 56 * 2 ^ 1018)
    by (change 1074 with (56 + 1018); apply Z.pow_add_r; lia).
  assert (H1054 : 2 ^ (-20 + 1074) = 2 ^ 36 * 2 ^ 1018)
    by (change (-20 + 1074) with (36 + 1018); apply Z.pow_add_r; lia).
  assert (Hp : 0 < 2 ^ 1018) by (apply Z.pow_pos_nonneg; lia).
  (* the product is below n + 1 *)
  destruct (standard_form ((n + 1) * 2 ^ 20 - 1) (-20)) as (my & ey & Hy1 & Hy2).
  { change (2 ^ 53) with (2 ^ 33 * 2 ^ 20).
    assert (0 < 2 ^ 20) by reflexivity.
    change (2 ^ 29) with 536870912 in Hn. change (2 ^ 33) with 8589934592. nia. }
  { lia. }
  rewrite H1054 in Hy2.
  destruct (Hle my ey Hy1) as [Hupper He'].
  { rewrite Hy2. change (2 ^ 20) with 1048576. change (2 ^ 36) with 68719476736.
    change (2 ^ 29) with 536870912 in Hn. nia. }
  rewrite Hy2 in Hupper.
  replace (e' <=? 971) with true by (symmetry; now apply Z.leb_le).
  assert (He'0 : -1074 <= e') by (rewrite fexp_eq in Hcanon; lia).
  rewrite int_of_float_scaled by assumption. cbn [bind]. do 2 f_equal.
  (* and not below n *)
  assert (Hlower : n * 2 ^ 1074 <= Zpos m' * 2 ^ (e' + 1074)).
  { destruct (Z.eq_dec n 0) as [->|Hn0].
    - assert (0 < 2 ^ (e' + 1074)) by (apply Z.pow_pos_nonneg; lia). lia.
    - destruct (standard_form n 0) as (mn & en & Hn1 & Hn2).
      { split; [lia|]. apply (Z.lt_trans _ (2 ^ 29)); [lia|reflexivity]. }
      { lia. }
      change (0 + 1074) with 1074 in Hn2. rewrite <- Hn2.
      apply (Hge mn en Hn1). rewrite Hn2, H1074.
      change (2 ^ 56) with 72057594037927936. nia. }
  apply Z.le_antisymm.
  - assert (Zpos m' * 2 ^ (e' + 1074) / 2 ^ 1074 < n + 1); [|lia].
    apply Z.div_lt_upper_bound; [apply Z.pow_pos_nonneg; lia|].
    rewrite H1074. change (2 ^ 20) with 1048576 in Hupper.
    change (2 ^ 36) with 68719476736 in Hupper.
    change (2 ^ 56) with 72057594037927936. nia.
  - apply Z.div_le_lower_bound; [apply Z.pow_pos_nonneg; lia|]. lia.
Qed.

Lemma chunk_frames_default_witness :
  chunk_frames_of default_knobs 16000 = Ok 1600 /\
  chunk_frames_of default_knobs 7 = Ok 1.
Proof.
  split.
  - apply (chunk_frames_default 16000). lia.
  - apply (chunk_frames_default 7). lia.
Defined.

Lemma binary_round_aux_not_positive m e l :
  not_positive (binary_round_aux prec emax true m e l).
Proof.
  pose proof (binary_round_aux_sign true m e l) as H.
  destruct (binary_round_aux prec emax true m e l); cbn; trivial.
Qed.

Lemma round_int_not_positive n : n <= 0 -> not_positive (round_int n).
Proof.
  intros Hn. destruct n as [|p|p]; [exact I|lia|].
  unfold round_int, binary_normalize, binary_round.
  destruct (shl_align p 0 _) as [mz ez]. apply binary_round_aux_not_positive.
Qed.

Lemma SFdiv_not_positive x my ey :
  not_positive x -> not_positive (SFdiv prec emax x (S754_finite false my ey)).
Proof.
  destruct x as [s|s| |s mx ex]; cbn [not_positive SFdiv]; trivial.
  - intros ->. reflexivity.
  - intros ->. cbn [xorb].
    destruct (SFdiv_core_binary prec emax (Zpos mx) ex (Zpos my) ey)
      as [[mz ez] lz].
    apply binary_round_aux_not_positive.
Qed.

Lemma fmul_not_positive mx ex y :
  not_positive y -> not_positive (fmul (S754_finite false mx ex) y).
Proof.
  destruct y as [s|s| |s my ey]; unfold fmul; cbn [not_positive SFmul]; trivial.
  intros ->. apply binary_round_aux_not_positive.
Qed.

Lemma int_of_float_not_positive x n :
  not_positive x -> int_of_float x = Ok n -> n <= 0.
Proof.
  destruct x as [s|s| |s m e]; cbn [not_positive int_of_float];
    try discriminate.
  - intros _ [= <-]. lia.
  - intros -> [= <-].
    assert (0 <= match e with
                 | Z.neg k => Z.shiftr (Z.pos m) (Z.pos k)
                 | _ => Z.shiftl (Z.pos m) e
                 end); [|lia].
    destruct e as [|q|q].
    + rewrite Z.shiftl_0_r. lia.
    + apply Z.shiftl_nonneg. lia.
    + apply Z.shiftr_nonneg. lia.
Qed.

(** X17: the chunk size is computed for every chunk duration and frame rate
    of at most 53 bits and is one frame at least; it is one frame when the
    chunk duration is zero or negative. *)
Theorem chunk_frames_at_least_one :
  forall (k : Knobs) (rate : Z),
    - 2 ^ 53 < CHUNK_MS k < 2 ^ 53 -> 0 < rate < 2 ^ 53 ->
    exists chunk : Z,
      chunk_frames_of k rate = Ok chunk /\ 1 <= chunk /\
      (CHUNK_MS k <= 0 -> chunk = 1).
Proof.
  intros k rate Hms Hrate.
  destruct (chunk_frames_of_ok k rate Hms Hrate) as (chunk & Hchunk & H1).
  exists chunk. split; [assumption|]. split; [assumption|].
  intros Hneg. revert Hchunk. unfold chunk_frames_of, float_of_int.
  rewrite (below_finite _ _ (round_int_below (CHUNK_MS k) Hms)).
  cbn [bind]. unfold float_truediv.
  change (round_int 1000) with (S754_finite false 8796093022208000 (-43)).
  cbn [is_zero bind].
  destruct (round_int_small rate Hrate) as (mr & -> & _).
  cbn [is_finite bind].
  pose proof (fmul_not_positive mr (Zdigits2 rate - 53) _
                (SFdiv_not_positive _ 8796093022208000 (-43)
                   (round_int_not_positive _ Hneg))) as Hprod.
  destruct (int_of_float _) as [n|] eqn:Hn; cbn [bind]; [|discriminate].
  intros [= <-].
  pose proof (int_of_float_not_positive _ _ Hprod Hn). lia.
Qed.

Lemma chunk_frames_at_least_one_witness :
  exists chunk : Z,
    chunk_frames_of zero_chunk_knobs 16000 = Ok chunk /\ chunk = 1.
Proof.
  destruct (chunk_frames_at_least_one zero_chunk_knobs 16000
              ltac:(cbn; lia) ltac:(lia)) as (chunk & Hchunk & _ & Hone).
  exists chunk. split; [exact Hchunk|]. apply Hone. cbn. lia.
Defined.

(** ** The pause of the feeder *)

(** The divisor of line 201 is a tenth at least. *)
Lemma pace_divisor (speed : float) :
  is_nan speed = false ->
  fmax speed (dec 1 10) = S754_infinity false \/
  exists m e, fmax speed (dec 1 10) = S754_finite false m e /\ -56 <= e.
Proof.
  intros Hnan. unfold fmax.
  change (dec 1 10) with (S754_finite false 7205759403792794 (-56)).
  destruct (flt speed _) eqn:Hlt;
    [right; exists 7205759403792794%positive, (-56); split; [reflexivity|lia]|].
  destruct speed as [s|s| |s m e]; try discriminate.
  - destruct s; [discriminate|now left].
  - destruct s; [discriminate|]. right. exists m, e. split; [reflexivity|].
    unfold flt, SFltb in Hlt. cbn [SFcompare] in Hlt.
    destruct (Z.compare_spec e (-56)); try lia; discriminate.
Qed.

(** X18: the pause between two chunks is computed without a division by
    zero whatever the feed speed, which counts as 0.1 when it is smaller;
    it is a finite number, and not a negative one unless the chunk duration
    is negative: [time.sleep] accepts it. *)
Theorem sleep_per_chunk_is_a_duration :
  forall k : Knobs,
    - 2 ^ 53 < CHUNK_MS k < 2 ^ 53 -> is_nan (FEED_SPEED k) = false ->
    exists pause : float,
      sleep_per_chunk_s_of k = Ok pause /\
      is_finite pause = true /\
      (0 <= CHUNK_MS k -> not_negative pause = true).
Proof.
  intros k Hms Hnan. unfold sleep_per_chunk_s_of, float_of_int.
  pose proof (round_int_below (CHUNK_MS k) Hms) as Hx.
  rewrite (below_finite _ _ Hx). cbn [bind]. unfold float_truediv at 1.
  change (round_int 1000) with (S754_finite false 8796093022208000 (-43)).
  cbn [is_zero bind].
  pose proof (SFdiv_below 53 _ false 8796093022208000 (-43) Hx ltac:(lia))
    as Hc.
  assert (Hsign : 0 <= CHUNK_MS k ->
            match SFdiv prec emax (round_int (CHUNK_MS k))
                    (S754_finite false 8796093022208000 (-43)) with
            | S754_zero s | S754_infinity s | S754_finite s _ _ => s = false
            | S754_nan => True
            end).
  { intros H0. pose proof (round_int_sign _ H0) as Hs.
    destruct (round_int (CHUNK_MS k)) as [s|s| |s m e]; cbn [SFdiv];
      try exact I; subst s; cbn [xorb]; try reflexivity.
    destruct (SFdiv_core_binary prec emax (Zpos m) e 8796093022208000 (-43))
      as [[mz ez] lz].
    apply binary_round_aux_sign. }
  set (chunk_s := SFdiv prec emax (round_int (CHUNK_MS k))
                    (S754_finite false 8796093022208000 (-43))) in *.
  unfold float_truediv.
  destruct (pace_divisor (FEED_SPEED k) Hnan) as [->|(m & e & -> & He)];
    cbn [is_zero].
  - eexists. split; [reflexivity|].
    destruct chunk_s as [s|s| |s mc ec]; try contradiction; cbn [SFdiv xorb].
    + split; [reflexivity|]. intros _. now destruct s.
    + split; [reflexivity|]. intros _. now destruct s.
  - eexists. split; [reflexivity|].
    pose proof (SFdiv_below (Z.max 97 (e - 1074)) _ false m e
                  (below_le (53 - -43 + 1) (Z.max 97 (e - 1074)) chunk_s
                     ltac:(lia) Hc) ltac:(lia)) as Hq.
    split; [exact (below_finite _ _ Hq)|].
    intros H0. specialize (Hsign H0).
    destruct chunk_s as [s|s| |s mc ec]; try contradiction; cbn [SFdiv] in *.
    + now destruct s.
    + subst s. cbn [xorb] in *.
      destruct (SFdiv_core_binary prec emax (Zpos mc) ec (Zpos m) e)
        as [[mz ez] lz].
      pose proof (binary_round_aux_sign false mz ez lz) as Hs.
      destruct (binary_round_aux prec emax false mz ez lz) as [s|s| |s m' e'];
        try contradiction; subst; reflexivity.
Qed.

Lemma sleep_per_chunk_is_a_duration_witness :
  exists pause : float,
    sleep_per_chunk_s_of default_knobs = Ok pause /\ not_negative pause = true.
Proof.
  destruct (sleep_per_chunk_is_a_duration default_knobs
              ltac:(cbn; lia) eq_refl) as (pause & Hp & _ & Hn).
  exists pause. split; [exact Hp|]. apply Hn. cbn. lia.
Defined.

(** ** The exceptions of a job *)

Lemma float_of_int_raises n e : float_of_int n = Raise e -> e = OverflowError.
Proof.
  unfold float_of_int. destruct (is_finite _); [discriminate|]. now intros [= <-].
Qed.

Lemma round_int_not_zero n : n <> 0 -> is_zero (round_int n) = false.
Proof.
  intros Hn. destruct n as [|p|p]; [congruence| |];
    unfold round_int; cbn [binary_normalize].
  - destruct (binary_round_bounds false p 0 ltac:(lia)) as (m' & e' & _ & -> & _).
    now destruct (e' <=? 971).
  - destruct (binary_round_bounds true p 0 ltac:(lia)) as (m' & e' & _ & -> & _).
    now destruct (e' <=? 971).
Qed.

Lemma int_div_float_of_raises n d e :
  d <> 0 -> int_div_float_of n d = Raise e -> e = OverflowError.
Proof.
  intros Hd. unfold int_div_float_of.
  destruct (float_of_int d) as [y|] eqn:Hy; cbn [bind];
    [|intros [= <-]; exact (float_of_int_raises _ _ Hy)].
  destruct (float_of_int n) as [x|] eqn:Hx; cbn [bind];
    [|intros [= <-]; exact (float_of_int_raises _ _ Hx)].
  unfold float_truediv.
  assert (Hz : is_zero y = false).
  { unfold float_of_int in Hy. destruct (is_finite (round_int d)); [|discriminate].
    injection Hy as <-. now apply round_int_not_zero. }
  rewrite Hz. discriminate.
Qed.

Lemma int_of_float_raises x e :
  int_of_float x = Raise e ->
  e = OverflowError \/ e = ValueError (lit "cannot convert float NaN to integer").
Proof.
  destruct x; cbn; try discriminate; intros [= <-]; [now left|now right].
Qed.

Lemma chunk_frames_of_raises k rate e :
  chunk_frames_of k rate = Raise e ->
  e = OverflowError \/ e = ValueError (lit "cannot convert float NaN to integer").
Proof.
  unfold chunk_frames_of.
  destruct (float_of_int (CHUNK_MS k)) as [x|] eqn:Hx; cbn [bind];
    [|intros [= <-]; left; exact (float_of_int_raises _ _ Hx)].
  unfold float_truediv.
  change (is_zero (round_int 1000)) with false. cbn [bind].
  destruct (float_of_int rate) as [y|] eqn:Hy; cbn [bind];
    [|intros [= <-]; left; exact (float_of_int_raises _ _ Hy)].
  destruct (int_of_float _) as [n|] eqn:Hn; cbn [bind]; [discriminate|].
  intros [= <-]. exact (int_of_float_raises _ _ Hn).
Qed.

Lemma _wav_info_raises opened e :
  _wav_info opened = Raise e -> opened = Raise e \/ e = OverflowError.
Proof.
  unfold _wav_info. destruct opened as [wf|e0]; cbn [bind];
    [|intros [= <-]; now left].
  destruct (Z.eqb_spec (framerate wf) 0) as [H0|H0]; cbn [bind]; [discriminate|].
  destruct (int_div_float_of _ _) eqn:Hd; cbn [bind]; [discriminate|].
  intros [= <-]. right. exact (int_div_float_of_raises _ _ _ H0 Hd).
Qed.

Lemma sub_session_raises k w tf rate chunk env j e :
  rate <> 0 ->
  sub_session k w tf rate chunk env j = Some (Raise e) ->
  sdk_fault env = Some e \/ e = OverflowError \/
  e = ValueError (lit "cannot convert float NaN to integer") \/
  exists reason, e = TooManyRestarts (MAX_RESTARTS k) reason.
Proof.
  intros Hrate. unfold sub_session.
  destruct (int_div_float_of _ _) as [base|e0] eqn:Hbase;
    [|intros [= <-]; right; left; exact (int_div_float_of_raises _ _ _ Hrate Hbase)].
  destruct (sdk_fault env) as [e0|]; [intros [= <-]; now left|].
  destruct (run_session _ _ _ _ _ _) as [[c feeder]|]; [|discriminate].
  intros [= Hsettle]. right. revert Hsettle. unfold settle.
  destruct (restart_needed _); [|discriminate].
  unfold restart. destruct (_ <? _); [intros [= <-]; right; right; now eexists|].
  destruct (int_float_mul _ _) as [ov|e0] eqn:Hmul; cbn [bind]; [discriminate|].
  intros [= <-]. destruct (int_float_mul_raises _ _ _ Hmul); tauto.
Qed.

Lemma supervise_raises k w tf rate chunk envs e :
  rate <> 0 ->
  forall j,
    supervise k w tf rate chunk envs j = Some (Raise e) ->
    (exists s, In s envs /\ sdk_fault s = Some e) \/ e = OverflowError \/
    e = ValueError (lit "cannot convert float NaN to integer") \/
    exists reason, e = TooManyRestarts (MAX_RESTARTS k) reason.
Proof.
  intros Hrate. induction envs as [|env envs IH]; intros j; cbn [supervise];
    destruct (cursor_frame j <? tf); try discriminate.
  destruct (sub_session k w tf rate chunk env j) as [[j1|e0]|] eqn:Hsub;
    [| |discriminate].
  - intros H. destruct (IH _ H) as [(s & Hin & Hs)|H']; [|now right].
    left. exists s. split; [now right|assumption].
  - intros [= <-].
    destruct (sub_session_raises _ _ _ _ _ _ _ _ Hrate Hsub) as [H|H];
      [|now right].
    left. exists env. split; [now left|assumption].
Qed.

(** X19: every exception that ends a job is one the surroundings raised
    through the audio converter, [wave.open] or the SDK while a recogniser
    is started, or one of the job's own: the three ValueErrors of its
    checks, an OverflowError or the ValueError of a conversion between
    floats and integers, or the exhausted restart budget.  The job itself
    never divides by zero.  (The faults a feeder meets and the exceptions
    of a callback are stored or dropped; they are not in this list.) *)
Theorem job_exceptions :
  forall (k : Knobs) (env : JobEnv) (file_path language : str) (e : exn),
    transcribe_with_diarization_local k env file_path language
    = Some (Raise e) ->
    raised_by_surroundings env e \/ raised_by_job k language e.
Proof.
  intros k env file_path language e.
  unfold transcribe_with_diarization_local.
  destruct (run_job k env file_path language) as [[j|e0]|] eqn:Hjob;
    try discriminate.
  intros [= ->]. revert Hjob.
  unfold run_job, raised_by_surroundings, raised_by_job.
  unfold convert_audio_to_wav.
  destruct (truthy file_path); cbn [negb bind];
    [|intros [= <-]; right; now left].
  assert (Hrest : forall wav_path,
    match
      (speech_config <- create_local_speech_config (getenv env) language ;;
       wf <- wav_file env ;;
       wav <- _wav_info (wav_file env) ;;
       (let total_frames := frames wav in
        let rate := rate wav in
        if (rate <=? 0) || (channels wav <=? 0) || (bits_per_sample wav <=? 0)
        then Raise (ValueError (lit "Invalid WAV metadata for: " ++ wav_path))
        else chunk_frames <- chunk_frames_of k rate ;;
             Ok (wf, total_frames, rate, chunk_frames)))
    with
    | Ok (wf, total_frames, rate, chunk_frames) =>
        supervise k wf total_frames rate chunk_frames (sessions env) initial_job
    | Raise e0 => Some (Raise e0)
    end = Some (Raise e) ->
    (converter env = Raise e \/ wav_file env = Raise e \/
     exists s, In s (sessions env) /\ sdk_fault s = Some e) \/
    (e = ValueError (lit "No file path provided to convert_audio_to_wav.") \/
     e = ValueError (lit "Unsupported language or missing endpoint: " ++ language) \/
     (exists wav_path, e = ValueError (lit "Invalid WAV metadata for: " ++ wav_path)) \/
     e = OverflowError \/
     e = ValueError (lit "cannot convert float NaN to integer") \/
     exists reason, e = TooManyRestarts (MAX_RESTARTS k) reason)).
  { intros wav_path. unfold create_local_speech_config.
    destruct (negb (truthy (or_empty (endpoint_map_get (getenv env) language))));
      cbn [bind]; [intros [= <-]; right; tauto|].
    destruct (wav_file env) as [wf|e0] eqn:Hwav; cbn [bind];
      [|intros [= <-]; left; tauto].
    destruct (_wav_info (Ok wf)) as [wav|e0] eqn:Hinfo; cbn [bind].
    - destruct (Z.leb_spec (rate wav) 0) as [Hle|Hgt]; cbn [orb];
        [intros [= <-]; right; right; right; left; now eexists|].
      destruct ((channels wav <=? 0) || (bits_per_sample wav <=? 0));
        [intros [= <-]; right; right; right; left; now eexists|].
      destruct (chunk_frames_of k (rate wav)) as [chunk|e0] eqn:Hchunk;
        cbn [bind].
      + intros Hrun.
        assert (Hne : rate wav <> 0) by lia.
        destruct (supervise_raises _ _ _ _ _ _ _ Hne _ Hrun)
          as [H|H]; [left; tauto|right; tauto].
      + intros [= <-].
        destruct (chunk_frames_of_raises _ _ _ Hchunk); right; tauto.
    - intros [= <-].
      destruct (_wav_info_raises _ _ Hinfo) as [H|H];
        [discriminate|right; tauto]. }
  destruct (endswith (lower file_path) (lit ".wav")); cbn [bind];
    [apply Hrest|].
  destruct (converter env) as [[]|e0]; cbn [bind];
    [apply Hrest|intros [= <-]; left; tauto].
Qed.

Lemma job_exceptions_witness :
  raised_by_surroundings (hangs_env 9) (TooManyRestarts 8 (Some (lit "hang_timeout"))) \/
  raised_by_job default_knobs (lit "en-US")
    (TooManyRestarts 8 (Some (lit "hang_timeout"))).
Proof.
  apply (job_exceptions default_knobs (hangs_env 9) (lit "a.wav") (lit "en-US")).
  vm_compute. reflexivity.
Defined.

(** ** A file that was cut short *)

Lemma run_frames_held w env (start chunk : Z) :
  1 <= nchannels w * sampwidth w ->
  1 <= chunk ->
  0 <= start <= nframes w ->
  start + frames_sent (fst (run w env (new_feeder start chunk)))
  <= Z.max start (readable w / (nchannels w * sampwidth w)).
Proof.
  intros Hsize Hchunk Hstart. rewrite run_after_try. unfold run_try.
  destruct (open_fault env) as [e|]; [cbn; lia|].
  unfold setpos. cbn [start_frame new_feeder].
  replace ((start <? 0) || (nframes w <? start)) with false
    by (symmetry; apply orb_false_intro; [apply Z.ltb_ge|apply Z.ltb_ge]; lia).
  pose proof (feed_loop_frames w (ticks env) start Hsize
                (start * (nchannels w * sampwidth w))
                (new_feeder start chunk) Hchunk) as H.
  cbn [frames_sent new_feeder] in H.
  destruct (feed_loop _ _ _ _ _) as [f r]. cbn [fst snd] in *.
  destruct H as (_ & H2 & _); [left; f_equal; lia|].
  replace (start + 0) with start in H2 by lia.
  destruct r; cbn [frames_sent set_error]; exact H2.
Qed.

(** With an overlap that is not negative, the cursor stays within the
    frames the file holds, so the loop is never left by its test. *)
Lemma supervise_short k w rate chunk envs :
  1 <= nchannels w * sampwidth w -> 1 <= chunk -> 0 <= rate ->
  not_negative (OVERLAP_S k) = true ->
  readable w / (nchannels w * sampwidth w) < nframes w ->
  forall j j',
    0 <= cursor_frame j <= readable w / (nchannels w * sampwidth w) ->
    supervise k w (nframes w) rate chunk envs j <> Some (Ok j').
Proof.
  intros Hsize Hchunk Hrate Hov Hshort.
  induction envs as [|env envs IH]; intros j j' Hcur; cbn [supervise];
    (replace (cursor_frame j <? nframes w) with true
       by (symmetry; apply Z.ltb_lt; lia)); [discriminate|].
  destruct (sub_session k w (nframes w) rate chunk env j) as [[j1|e]|] eqn:Hsub;
    try discriminate.
  apply IH.
  pose proof (run_frames_held w (feeder_env env) (cursor_frame j) chunk
                Hsize Hchunk ltac:(lia)) as Hheld.
  destruct (sub_session_cursor k w rate chunk env j j1 Hsize Hchunk Hrate Hov
              ltac:(lia) Hsub) as (_ & _ & Hj1).
  lia.
Qed.

Lemma chunk_frames_of_min k rate chunk :
  chunk_frames_of k rate = Ok chunk -> 1 <= chunk.
Proof.
  unfold chunk_frames_of.
  destruct (_ <- float_of_int (CHUNK_MS k) ;; _) as [chunk_s|]; cbn [bind];
    [|discriminate].
  destruct (float_of_int rate) as [r|]; cbn [bind]; [|discriminate].
  destruct (int_of_float _) as [n|]; cbn [bind]; [|discriminate].
  intros [= <-]. lia.
Qed.

(** X20: with an overlap that is not negative, a job on a file that holds
    fewer whole frames than its header declares never returns a
    transcript: the cursor cannot pass the frames the file holds, so the
    loop is never left by its test.  Such a job ends, if it ends, with an
    exception, as when the restart budget is spent. *)
Theorem short_file_never_returns :
  forall (k : Knobs) (env : JobEnv) (file_path language : str) (w : Wav)
         (segs : list TranscriptSegment),
    wav_file env = Ok w ->
    0 < nchannels w -> 0 < sampwidth w -> 0 <= data_held w ->
    data_held w / (nchannels w * sampwidth w) < nframes w ->
    not_negative (OVERLAP_S k) = true ->
    transcribe_with_diarization_local k env file_path language
    <> Some (Ok segs).
Proof.
  intros k env file_path language w segs Hwav Hc Hs Hheld Hshort Hov.
  assert (Hsize : 1 <= nchannels w * sampwidth w) by nia.
  assert (Hds : nchannels w * sampwidth w * nframes w <= data_size w)
    by (unfold nframes; apply Z.mul_div_le; lia).
  assert (H0 : 0 <= data_held w / (nchannels w * sampwidth w))
    by (apply Z.div_pos; lia).
  assert (Hr0 : 0 <= readable w / (nchannels w * sampwidth w))
    by (apply Z.div_pos; [unfold readable; nia|lia]).
  assert (Hr : readable w / (nchannels w * sampwidth w) < nframes w).
  { apply (Z.le_lt_trans _ (data_held w / (nchannels w * sampwidth w)));
      [|exact Hshort].
    apply Z.div_le_mono; [lia|]. unfold readable. lia. }
  unfold transcribe_with_diarization_local.
  destruct (run_job k env file_path language) as [[j|e]|] eqn:Hrun;
    try discriminate.
  exfalso. unfold run_job in Hrun.
  destruct (convert_audio_to_wav (converter env) file_path) as [wav_path|];
    cbn [bind] in Hrun; [|discriminate].
  destruct (create_local_speech_config (getenv env) language) as [config|];
    cbn [bind] in Hrun; [|discriminate].
  rewrite Hwav in Hrun. cbn [bind] in Hrun. unfold _wav_info in Hrun.
  cbn [bind] in Hrun.
  destruct (if framerate w =? 0 then Ok (S754_zero false)
            else int_div_float_of (nframes w) (framerate w)) as [duration|];
    cbn [bind frames rate channels bits_per_sample] in Hrun; [|discriminate].
  destruct (Z.leb_spec (framerate w) 0) as [Hrate|Hrate];
    [cbn [orb] in Hrun; discriminate|].
  destruct ((false || (nchannels w <=? 0)) || (sampwidth w * 8 <=? 0));
    [discriminate|].
  destruct (chunk_frames_of k (framerate w)) as [chunk|] eqn:Hchunk;
    cbn [bind] in Hrun; [|discriminate].
  apply chunk_frames_of_min in Hchunk.
  exact (supervise_short k w (framerate w) chunk (sessions env) Hsize Hchunk
           ltac:(lia) Hov Hr initial_job j ltac:(cbn; lia) Hrun).
Qed.

Lemma short_file_never_returns_witness :
  transcribe_with_diarization_local default_knobs short_env
    (lit "a.wav") (lit "en-US") <> Some (Ok []).
Proof.
  apply (short_file_never_returns default_knobs short_env
           (lit "a.wav") (lit "en-US") short_wav [] eq_refl);
    try reflexivity; cbn; lia.
Defined.
